(** * LocalBroadcastChannel: the in-process broadcast exchange channel

    A shallow embedding of
    [src/Processors/Exchange/DataTrans/Local/LocalBroadcastChannel.cpp]
    and the properties its specification states about [recv], [sendImpl],
    [finish], [merge] and the destructor.

    The member functions are written once, as programs over the atomic
    operations they perform on the shared channel (loads and the
    compare-and-swap of [broadcast_status], the operations of the transport
    queue, the memory-credit transfers, the metric updates).  Such a program
    can be run to completion on a state ([run]), read as the set of operation
    sequences one call can issue whatever other threads do ([path]), or
    interleaved with other calls one atomic operation at a time
    ([pool_step]). *)

From Stdlib Require Import ZArith NArith Lia.
From stdpp Require Import base option list functions gmap strings pretty.

Local Open Scope Z_scope.

(* ===================================================================== *)
(** ** Data model *)
(* ===================================================================== *)

(** [BroadcastStatusCode] is a signed enumeration; [RUNNING] is its zero. *)
Definition BroadcastStatusCode := Z.

(** Modelled from the spec: the enumerators of [BroadcastStatusCode] are
    declared in DataTrans_fwd.h, which is not part of the sources; the
    specification fixes only that the running code is 0. *)
Definition RUNNING : BroadcastStatusCode := 0.

(** The enumerators and helpers the channel uses whose declarations are not
    part of the sources; the development is parametric in them. *)
Class Externals := {
  RECV_TIMEOUT : BroadcastStatusCode;
  SEND_TIMEOUT : BroadcastStatusCode;
  SEND_UNKNOWN_ERROR : BroadcastStatusCode;
  (** [ErrorCodes::NOT_IMPLEMENTED] *)
  NOT_IMPLEMENTED : Z;
  (** [DateLUT::instance().timeToString] *)
  timeToString : Z -> string;
  (** [std::to_string] on a [time_t] *)
  to_string : Z -> string;
  (** the message of the member [init_status] *)
  init_message : string;
}.

(** [struct BroadcastStatus]: the field is spelled [is_modifer] in the
    source. *)
Record BroadcastStatus := mkBroadcastStatus {
  code : BroadcastStatusCode;
  is_modifer : bool;
  message : string;
}.

Definition set_is_modifer (b : bool) (s : BroadcastStatus) : BroadcastStatus :=
  {| code := code s; is_modifer := b; message := message s |}.

(** A [Chunk] is opaque to the channel, which only asks for [bytes()] and
    [allocatedBytes()]; [chunk_id] stands for the column data. *)
Record Chunk := mkChunk {
  chunk_id : nat;
  bytes : N;
  allocatedBytes : N;
}.

(** [SendDoneMark] is the name of the channel that finished. *)
Definition SendDoneMark := string.

(** [MultiPathDataPacket] is a [std::variant]; [recv] tests for the [Chunk]
    and the [SendDoneMark] alternatives and has a third, empty branch for
    anything else, here [PktOther]. *)
Inductive MultiPathDataPacket :=
| PktChunk (c : Chunk)
| PktSendDoneMark (m : SendDoneMark)
| PktOther (tag : nat).

(** [RecvDataPacket] is [std::variant<Chunk, BroadcastStatus>]. *)
Inductive RecvDataPacket :=
| RecvChunk (c : Chunk)
| RecvStatus (s : BroadcastStatus).

Record timespec := mkTimespec { tv_sec : Z; tv_nsec : Z }.

Record LocalChannelOptions := mkOptions {
  max_timeout_ts : timespec;
  enable_metrics : bool;
}.

Record ExchangeDataKey := mkKey { exchange_id : Z; parallel_index : Z }.

(** What the channel reads from its [ContextPtr]: the initial query id and
    whether a query exchange log is configured. *)
Record Context := mkContext {
  getInitialQueryId : string;
  hasQueryExchangeLog : bool;
}.

(** [broadcast_status] holds either the address of the member [init_status]
    or the address of a heap-allocated [BroadcastStatus]. *)
Inductive StatusPtr :=
| InitPtr
| HeapPtr (a : nat).

Global Instance StatusPtr_eq_dec : EqDecision StatusPtr.
Proof. solve_decision. Defined.

(** A [bvar::Adder] over a 64-bit unsigned integer: [<<] adds a sample,
    [get_value] is the sum, which wraps around at [2^64].  The samples are
    kept so that recordings can be counted. *)
Definition Adder := list N.
Definition adder_add (x : N) (a : Adder) : Adder := a ++ [x].
Definition total (a : list N) : N := foldr N.add 0%N a.
Definition get_value (a : Adder) : N := (total a mod 2 ^ 64)%N.

Record SenderMetrics := mkSenderMetrics {
  send_time_ms : Adder;
  send_rows : Adder;
  send_uncompressed_bytes : Adder;
  finish_code : Z;
  is_modifier : Z;
  sm_message : string;
}.

Record ReceiverMetrics := mkReceiverMetrics {
  recv_time_ms : Adder;
  register_time_ms : Adder;
  recv_bytes : Adder;
}.

Record QueryExchangeLogElement := mkElement {
  el_initial_query_id : string;
  el_exchange_id : string;
  el_partition_id : string;
  el_type : string;
  el_event_time : N;
  el_send_time_ms : N;
  el_send_rows : N;
  el_send_uncompressed_bytes : N;
  el_finish_code : Z;
  el_is_modifier : Z;
  el_message : string;
  el_recv_time_ms : N;
  el_register_time_ms : N;
  el_recv_bytes : N;
}.

Inductive LogEntry :=
| LogDebugTransition (name : string) (from to : BroadcastStatusCode) (msg : string)
| LogTraceFail (name : string) (new cur : BroadcastStatusCode) (msg : string).

Record Exception := mkException { what : string; error_code : Z }.

(** ** The transport queue

    [MultiPathQueue] is declared outside the sources.  The channel uses four
    of its operations; a queue is any type that offers them.  A timed
    operation returns its outcome and the queue it leaves. *)
Class TransportQueue (Q : Type) := {
  tryPopUntil : Q -> timespec -> option MultiPathDataPacket * Q;
  tryEmplaceUntil : Q -> timespec -> MultiPathDataPacket -> bool * Q;
  close : Q -> Q;
  closed : Q -> bool;
}.

(** Modelled from the spec: the bounded transport queue, "an ordered sequence
    of transport items, capacity-bounded, with a closed boolean"; closing
    discards what is queued and makes every later insert fail; an insert into
    a full queue and a removal from an empty one end at the deadline without
    effect, which is what a call observes when no other thread intervenes. *)
Record BoundedQueue := mkQueue {
  items : list MultiPathDataPacket;
  capacity : nat;
  is_closed : bool;
}.

Definition bq_tryPopUntil (q : BoundedQueue) (_ : timespec)
  : option MultiPathDataPacket * BoundedQueue :=
  match items q with
  | [] => (None, q)
  | x :: rest => (Some x, {| items := rest; capacity := capacity q; is_closed := is_closed q |})
  end.

Definition bq_tryEmplaceUntil (q : BoundedQueue) (_ : timespec) (x : MultiPathDataPacket)
  : bool * BoundedQueue :=
  if is_closed q then (false, q)
  else if (length (items q) <? capacity q)%nat
       then (true, {| items := items q ++ [x]; capacity := capacity q; is_closed := false |})
       else (false, q).

Definition bq_close (q : BoundedQueue) : BoundedQueue :=
  {| items := []; capacity := capacity q; is_closed := true |}.

Global Instance BoundedQueue_queue : TransportQueue BoundedQueue := {
  tryPopUntil := bq_tryPopUntil;
  tryEmplaceUntil := bq_tryEmplaceUntil;
  close := bq_close;
  closed := is_closed;
}.

(* ===================================================================== *)
(** ** Atomic operations and programs *)
(* ===================================================================== *)

(** The operations a member function performs on state shared with other
    threads, indexed by the type of what they return. *)
Inductive Cmd : Type -> Type :=
(** [broadcast_status.load(std::memory_order_acquire)] *)
| LoadStatus : Cmd StatusPtr
(** [*p] *)
| Deref (p : StatusPtr) : Cmd BroadcastStatus
(** [new BroadcastStatus(...)] *)
| NewStatus (s : BroadcastStatus) : Cmd StatusPtr
(** [delete p] *)
| DeleteStatus (p : StatusPtr) : Cmd unit
(** [broadcast_status.compare_exchange_strong(expected, desired)]: the flag
    and the value [expected] holds afterwards *)
| CasStatus (expected desired : StatusPtr) : Cmd (bool * StatusPtr)
| TryPopUntil (ts : timespec) : Cmd (option MultiPathDataPacket)
| TryEmplaceUntil (ts : timespec) (x : MultiPathDataPacket) : Cmd bool
| CloseQueue : Cmd unit
| QueueClosed : Cmd bool
(** [ExchangeUtils::transferGlobalMemoryToThread] *)
| TransferGlobalMemoryToThread (n : N) : Cmd unit
(** [ExchangeUtils::transferThreadMemoryToGlobal] *)
| TransferThreadMemoryToGlobal (n : N) : Cmd unit
| RecvBytesAdd (n : N) : Cmd unit
| RecvTimeAdd (ms : N) : Cmd unit
| SetFinishCode (c : Z) : Cmd unit
| SetIsModifier (b : Z) : Cmd unit
| SetMessage (m : string) : Cmd unit
| GetSenderMetrics : Cmd SenderMetrics
| GetReceiverMetrics : Cmd ReceiverMetrics
(** a reading of the clock, in milliseconds *)
| Now : Cmd N
| Log (e : LogEntry) : Cmd unit
(** [query_exchange_log->add(element)] *)
| ExchangeLogAdd (e : QueryExchangeLogElement) : Cmd unit.

Inductive Prog (A : Type) : Type :=
| Ret (a : A)
| Vis (B : Type) (c : Cmd B) (k : B -> Prog A).

Arguments Ret {A} a.
Arguments Vis {A B} c k.

Fixpoint bind {A B : Type} (t : Prog A) (f : A -> Prog B) : Prog B :=
  match t with
  | Ret a => f a
  | Vis c k => Vis c (fun b => bind (k b) f)
  end.

Definition call {B : Type} (c : Cmd B) : Prog B := Vis c Ret.

Declare Scope prog_scope.
Delimit Scope prog_scope with prog.
Notation "x <- c ;; k" := (bind c (fun x => k))
  (at level 100, c at next level, right associativity) : prog_scope.
Notation "c ;;; k" := (bind c (fun _ => k))
  (at level 100, right associativity) : prog_scope.
Local Open Scope prog_scope.

(** One operation with its return value, as a thread observes it. *)
Inductive Event := Ev (B : Type) (c : Cmd B) (b : B).
Arguments Ev {B} c b.

(** [path t tr a]: the call [t] can issue the operations [tr], receive the
    listed return values and return [a].  The return values are arbitrary, so
    the paths cover every behaviour of the rest of the system. *)
Fixpoint path {A : Type} (t : Prog A) (tr : list Event) (a : A) : Prop :=
  match t with
  | Ret a' => tr = [] /\ a = a'
  | Vis c k => exists b tr', tr = Ev c b :: tr' /\ path (k b) tr' a
  end.

(* ===================================================================== *)
(** ** The channel *)
(* ===================================================================== *)

(** The members that are set at construction and only read afterwards. *)
Record Channel := mkChannel {
  name : string;
  data_key : ExchangeDataKey;
  options : LocalChannelOptions;
  context : Context;
  enable_sender_metrics : bool;
  enable_receiver_metrics : bool;
  init_status : BroadcastStatus;
}.

(** The members that calls change, the heap of [BroadcastStatus] objects,
    and what the channel acts on outside itself (the process-wide memory
    budget, the clock, the logger, the query exchange log). *)
Record World (Q : Type) := mkWorld {
  broadcast_status : StatusPtr;
  heap : gmap nat BroadcastStatus;
  receive_queue : Q;
  sender_metrics : SenderMetrics;
  receiver_metrics : ReceiverMetrics;
  global_memory : Z;
  clock : N;
  logger : list LogEntry;
  query_exchange_log : list QueryExchangeLogElement;
}.

Arguments mkWorld {Q}.
Arguments broadcast_status {Q}.
Arguments heap {Q}.
Arguments receive_queue {Q}.
Arguments sender_metrics {Q}.
Arguments receiver_metrics {Q}.
Arguments global_memory {Q}.
Arguments clock {Q}.
Arguments logger {Q}.
Arguments query_exchange_log {Q}.

Section World.
Context {Q : Type}.

Definition set_broadcast_status (p : StatusPtr) (w : World Q) : World Q :=
  mkWorld p (heap w) (receive_queue w) (sender_metrics w) (receiver_metrics w)
          (global_memory w) (clock w) (logger w) (query_exchange_log w).

Definition set_heap (h : gmap nat BroadcastStatus) (w : World Q) : World Q :=
  mkWorld (broadcast_status w) h (receive_queue w) (sender_metrics w) (receiver_metrics w)
          (global_memory w) (clock w) (logger w) (query_exchange_log w).

Definition set_receive_queue (q : Q) (w : World Q) : World Q :=
  mkWorld (broadcast_status w) (heap w) q (sender_metrics w) (receiver_metrics w)
          (global_memory w) (clock w) (logger w) (query_exchange_log w).

Definition set_sender_metrics (m : SenderMetrics) (w : World Q) : World Q :=
  mkWorld (broadcast_status w) (heap w) (receive_queue w) m (receiver_metrics w)
          (global_memory w) (clock w) (logger w) (query_exchange_log w).

Definition set_receiver_metrics (m : ReceiverMetrics) (w : World Q) : World Q :=
  mkWorld (broadcast_status w) (heap w) (receive_queue w) (sender_metrics w) m
          (global_memory w) (clock w) (logger w) (query_exchange_log w).

Definition set_global_memory (g : Z) (w : World Q) : World Q :=
  mkWorld (broadcast_status w) (heap w) (receive_queue w) (sender_metrics w) (receiver_metrics w)
          g (clock w) (logger w) (query_exchange_log w).

Definition set_logger (l : list LogEntry) (w : World Q) : World Q :=
  mkWorld (broadcast_status w) (heap w) (receive_queue w) (sender_metrics w) (receiver_metrics w)
          (global_memory w) (clock w) l (query_exchange_log w).

Definition set_query_exchange_log (l : list QueryExchangeLogElement) (w : World Q) : World Q :=
  mkWorld (broadcast_status w) (heap w) (receive_queue w) (sender_metrics w) (receiver_metrics w)
          (global_memory w) (clock w) (logger w) l.
End World.

Definition sm_set_finish_code (c : Z) (m : SenderMetrics) : SenderMetrics :=
  mkSenderMetrics (send_time_ms m) (send_rows m) (send_uncompressed_bytes m)
                  c (is_modifier m) (sm_message m).
Definition sm_set_is_modifier (b : Z) (m : SenderMetrics) : SenderMetrics :=
  mkSenderMetrics (send_time_ms m) (send_rows m) (send_uncompressed_bytes m)
                  (finish_code m) b (sm_message m).
Definition sm_set_message (s : string) (m : SenderMetrics) : SenderMetrics :=
  mkSenderMetrics (send_time_ms m) (send_rows m) (send_uncompressed_bytes m)
                  (finish_code m) (is_modifier m) s.
Definition rm_add_recv_bytes (n : N) (m : ReceiverMetrics) : ReceiverMetrics :=
  mkReceiverMetrics (recv_time_ms m) (register_time_ms m) (adder_add n (recv_bytes m)).
Definition rm_add_recv_time (n : N) (m : ReceiverMetrics) : ReceiverMetrics :=
  mkReceiverMetrics (adder_add n (recv_time_ms m)) (register_time_ms m) (recv_bytes m).

Section Semantics.
Context {Q : Type} `{TransportQueue Q}.
Variable ch : Channel.

(** Reading through a pointer: the member [init_status], or a live object
    of the heap; reading a freed object has no defined result. *)
Definition read_status (h : gmap nat BroadcastStatus) (p : StatusPtr)
  : option BroadcastStatus :=
  match p with
  | InitPtr => Some (init_status ch)
  | HeapPtr a => h !! a
  end.

Definition deref (w : World Q) (p : StatusPtr) : option BroadcastStatus :=
  read_status (heap w) p.

(** The effect of one atomic operation; [None] is undefined behaviour
    (reading or freeing an object that is not live, freeing a member). *)
Definition interp {B : Type} (c : Cmd B) (w : World Q) : option (B * World Q) :=
  match c in Cmd B return option (B * World Q) with
  | LoadStatus => Some (broadcast_status w, w)
  | Deref p => s ← deref w p; Some (s, w)
  | NewStatus s =>
      let a := fresh (dom (heap w)) in
      Some (HeapPtr a, set_heap (<[a := s]> (heap w)) w)
  | DeleteStatus p =>
      match p with
      | InitPtr => None
      | HeapPtr a => _ ← heap w !! a; Some (tt, set_heap (delete a (heap w)) w)
      end
  | CasStatus expected desired =>
      if decide (broadcast_status w = expected)
      then Some ((true, expected), set_broadcast_status desired w)
      else Some ((false, broadcast_status w), w)
  | TryPopUntil ts =>
      let r := tryPopUntil (receive_queue w) ts in
      Some (fst r, set_receive_queue (snd r) w)
  | TryEmplaceUntil ts x =>
      let r := tryEmplaceUntil (receive_queue w) ts x in
      Some (fst r, set_receive_queue (snd r) w)
  | CloseQueue => Some (tt, set_receive_queue (close (receive_queue w)) w)
  | QueueClosed => Some (closed (receive_queue w), w)
  | TransferGlobalMemoryToThread n =>
      Some (tt, set_global_memory (global_memory w - Z.of_N n) w)
  | TransferThreadMemoryToGlobal n =>
      Some (tt, set_global_memory (global_memory w + Z.of_N n) w)
  | RecvBytesAdd n =>
      Some (tt, set_receiver_metrics (rm_add_recv_bytes n (receiver_metrics w)) w)
  | RecvTimeAdd n =>
      Some (tt, set_receiver_metrics (rm_add_recv_time n (receiver_metrics w)) w)
  | SetFinishCode c =>
      Some (tt, set_sender_metrics (sm_set_finish_code c (sender_metrics w)) w)
  | SetIsModifier b =>
      Some (tt, set_sender_metrics (sm_set_is_modifier b (sender_metrics w)) w)
  | SetMessage m =>
      Some (tt, set_sender_metrics (sm_set_message m (sender_metrics w)) w)
  | GetSenderMetrics => Some (sender_metrics w, w)
  | GetReceiverMetrics => Some (receiver_metrics w, w)
  | Now => Some (clock w, w)
  | Log e => Some (tt, set_logger (logger w ++ [e]) w)
  | ExchangeLogAdd e =>
      Some (tt, set_query_exchange_log (query_exchange_log w ++ [e]) w)
  end.

(** A call run to completion with no other thread in between: its result,
    the state it leaves and the operations it issued. *)
Fixpoint run {A : Type} (t : Prog A) (w : World Q)
  : option (A * World Q * list Event) :=
  match t with
  | Ret a => Some (a, w, [])
  | Vis c k =>
      match interp c w with
      | None => None
      | Some (b, w') =>
          match run (k b) w' with
          | None => None
          | Some (a, w'', tr) => Some (a, w'', Ev c b :: tr)
          end
      end
  end.

(** One atomic operation of a call that has not returned. *)
Definition step_thread {A : Type} (t : Prog A) (w : World Q)
  : option (Prog A * World Q) :=
  match t with
  | Ret _ => None
  | Vis c k =>
      match interp c w with
      | None => None
      | Some (b, w') => Some (k b, w')
      end
  end.
End Semantics.

(* ===================================================================== *)
(** ** The member functions *)
(* ===================================================================== *)

Section Programs.
Context `{Externals}.

(** Modelled from the spec: the member [init_status] is initialised in the
    header, which is not part of the sources; it is "the initial Status
    (code 0)", which no thread has modified. *)
Definition initial_status : BroadcastStatus :=
  mkBroadcastStatus RUNNING false init_message.

(** The constructor: both metric switches copy [options.enable_metrics]. *)
Definition LocalBroadcastChannel (data_key_ : ExchangeDataKey)
    (options_ : LocalChannelOptions) (name_ : string) (context_ : Context)
  : Channel :=
  {| name := name_;
     data_key := data_key_;
     options := options_;
     context := context_;
     enable_sender_metrics := enable_metrics options_;
     enable_receiver_metrics := enable_metrics options_;
     init_status := initial_status |}.

Variable ch : Channel.

Definition getName : string := name ch.

Definition when (b : bool) (t : Prog unit) : Prog unit :=
  if b then t else Ret tt.

(** The branch of [finish] taken when the compare-and-swap succeeded. *)
Definition finish_won (current_status_ptr new_status_ptr : StatusPtr)
  : Prog BroadcastStatus :=
  (* LOG_DEBUG *)
  cur <- call (Deref current_status_ptr) ;;
  new <- call (Deref new_status_ptr) ;;
  call (Log (LogDebugTransition (name ch) (code cur) (code new) (message new))) ;;;
  new <- call (Deref new_status_ptr) ;;
  (if 0 <? code new
   then (* close queue immediately *)
        call CloseQueue
   else _ <- call (TryEmplaceUntil (max_timeout_ts (options ch))
                                   (PktSendDoneMark getName)) ;; Ret tt) ;;;
  res <- call (Deref new_status_ptr) ;;
  let res := set_is_modifer true res in
  new <- call (Deref new_status_ptr) ;;
  call (SetFinishCode (code new)) ;;;
  call (SetIsModifier 1) ;;;
  new <- call (Deref new_status_ptr) ;;
  call (SetMessage (message new)) ;;;
  Ret res.

(** The branch of [finish] taken when the compare-and-swap failed;
    [current_status_ptr] is what the compare-and-swap found. *)
Definition finish_lost (message_ : string)
    (current_status_ptr new_status_ptr : StatusPtr) : Prog BroadcastStatus :=
  (* LOG_TRACE *)
  new <- call (Deref new_status_ptr) ;;
  cur <- call (Deref current_status_ptr) ;;
  call (Log (LogTraceFail (name ch) (code new) (code cur) message_)) ;;;
  cur <- call (Deref current_status_ptr) ;;
  call (SetFinishCode (code cur)) ;;;
  call (SetIsModifier 0) ;;;
  call (DeleteStatus new_status_ptr) ;;;
  cur <- call (Deref current_status_ptr) ;;
  Ret cur.

Definition finish (status_code : BroadcastStatusCode) (message_ : string)
  : Prog BroadcastStatus :=
  let current_status_ptr := InitPtr in
  new_status_ptr <- call (NewStatus (mkBroadcastStatus status_code false message_)) ;;
  r <- call (CasStatus current_status_ptr new_status_ptr) ;;
  if fst r
  then finish_won (snd r) new_status_ptr
  else finish_lost message_ (snd r) new_status_ptr.

Definition recv_timeout_message (timeout_ts : timespec) : string :=
  "Receive from channel " +:+ name ch +:+ " timeout after ms: "
    +:+ timeToString (tv_sec timeout_ts).

(** The end of [recv], reached when nothing was returned earlier; [s] is
    the reading of the stopwatch started on entry. *)
Definition recv_finish (s : N) (timeout_ts : timespec) : Prog RecvDataPacket :=
  current_status <- finish RECV_TIMEOUT (recv_timeout_message timeout_ts) ;;
  when (enable_receiver_metrics ch)
       (now <- call Now ;; call (RecvTimeAdd (now - s)%N)) ;;;
  Ret (RecvStatus current_status).

Definition recv (timeout_ts : timespec) : Prog RecvDataPacket :=
  s <- call Now ;;
  current_status_ptr <- call LoadStatus ;;
  current_status <- call (Deref current_status_ptr) ;;
  (* Positive status code means that we should close immediately and
     negative code means we should consume all in flight data before close *)
  if 0 <? code current_status
  then Ret (RecvStatus current_status)
  else
    data_packet <- call (TryPopUntil timeout_ts) ;;
    match data_packet with
    | Some (PktChunk recv_chunk) =>
        when (enable_receiver_metrics ch)
             (call (RecvBytesAdd (bytes recv_chunk))) ;;;
        call (TransferGlobalMemoryToThread (allocatedBytes recv_chunk)) ;;;
        Ret (RecvChunk recv_chunk)
    | Some (PktSendDoneMark _) =>
        p <- call LoadStatus ;;
        st <- call (Deref p) ;;
        Ret (RecvStatus st)
    | Some (PktOther _) => recv_finish s timeout_ts
    | None => recv_finish s timeout_ts
    end.

Definition send_timeout_message : string :=
  "Send to channel " +:+ name ch +:+ " timeout after ms: "
    +:+ to_string (tv_sec (max_timeout_ts (options ch))).

Definition send_interrupted : BroadcastStatus :=
  mkBroadcastStatus SEND_UNKNOWN_ERROR false "Send operation was interrupted".

(** The part of [sendImpl] after a failed insertion. *)
Definition sendImpl_failed : Prog BroadcastStatus :=
  (* finished in other thread, receive_queue is closed. *)
  is_closed_ <- call QueueClosed ;;
  if is_closed_ : bool
  then
    current_status_ptr <- call LoadStatus ;;
    current_status <- call (Deref current_status_ptr) ;;
    if negb (code current_status =? RUNNING)
    then Ret current_status
    else (* queue is closed but status not set yet *)
         Ret send_interrupted
  else finish SEND_TIMEOUT send_timeout_message.

Definition sendImpl (chunk : Chunk) : Prog BroadcastStatus :=
  s <- call Now ;;
  current_status_ptr <- call LoadStatus ;;
  current_status <- call (Deref current_status_ptr) ;;
  if negb (code current_status =? RUNNING)
  then Ret current_status
  else
    let allocated_bytes := allocatedBytes chunk in
    inserted <- call (TryEmplaceUntil (max_timeout_ts (options ch)) (PktChunk chunk)) ;;
    if inserted : bool
    then
      call (TransferThreadMemoryToGlobal allocated_bytes) ;;;
      p <- call LoadStatus ;;
      st <- call (Deref p) ;;
      Ret st
    else sendImpl_failed.

(** [merge] throws; a call that throws returns [inl] of the exception. *)
Definition merge {Sender : Type} (_ : Sender) : Prog (Exception + unit) :=
  Ret (inl (mkException "merge is not implemented for LocalBroadcastChannel"
                        NOT_IMPLEMENTED)).

Definition make_element (event_time : N) (sm : SenderMetrics) (rm : ReceiverMetrics)
  : QueryExchangeLogElement :=
  {| el_initial_query_id := getInitialQueryId (context ch);
     el_exchange_id := to_string (exchange_id (data_key ch));
     el_partition_id := to_string (parallel_index (data_key ch));
     el_type := "local";
     el_event_time := event_time;
     el_send_time_ms := get_value (send_time_ms sm);
     el_send_rows := get_value (send_rows sm);
     el_send_uncompressed_bytes := get_value (send_uncompressed_bytes sm);
     el_finish_code := finish_code sm;
     el_is_modifier := is_modifier sm;
     el_message := sm_message sm;
     el_recv_time_ms := get_value (recv_time_ms rm);
     el_register_time_ms := get_value (register_time_ms rm);
     el_recv_bytes := get_value (recv_bytes rm) |}.

(** The destructor. *)
Definition destroy : Prog unit :=
  status <- call LoadStatus ;;
  when (negb (bool_decide (status = InitPtr))) (call (DeleteStatus status)) ;;;
  when (enable_sender_metrics ch || enable_receiver_metrics ch)
    (event_time <- call Now ;;
     sm <- call GetSenderMetrics ;;
     rm <- call GetReceiverMetrics ;;
     when (hasQueryExchangeLog (context ch))
          (call (ExchangeLogAdd (make_element event_time sm rm)))).
End Programs.

(* ===================================================================== *)
(** ** Observations on the operations of a call *)
(* ===================================================================== *)

(** What a call did about memory credit and the chunks of the queue, in the
    order it did it. *)
Inductive CreditEvent :=
| Inserted (c : Chunk)
| ToGlobal (n : N)
| Popped (c : Chunk)
| ToThread (n : N).

Definition credit_event (e : Event) : option CreditEvent :=
  match e with
  | Ev c b =>
      match c in Cmd B return B -> option CreditEvent with
      | TryEmplaceUntil _ (PktChunk x) => fun ok : bool => if ok then Some (Inserted x) else None
      | TryPopUntil _ => fun r =>
          match r with
          | Some (PktChunk x) => Some (Popped x)
          | _ => None
          end
      | TransferThreadMemoryToGlobal n => fun _ => Some (ToGlobal n)
      | TransferGlobalMemoryToThread n => fun _ => Some (ToThread n)
      | _ => fun _ => None
      end b
  end.

Definition credit_events (tr : list Event) : list CreditEvent :=
  omap credit_event tr.

(** The operations of the transport queue. *)
Definition is_queue_op (e : Event) : bool :=
  match e with
  | Ev c _ =>
      match c with
      | TryPopUntil _ | TryEmplaceUntil _ _ | CloseQueue | QueueClosed => true
      | _ => false
      end
  end.

(** The compare-and-swap is the only operation that writes
    [broadcast_status]. *)
Definition is_cas (e : Event) : bool :=
  match e with
  | Ev c _ => match c with CasStatus _ _ => true | _ => false end
  end.

(** The statuses a call read through a pointer, in the order it read
    them. *)
Definition loaded_status (e : Event) : option BroadcastStatus :=
  match e with
  | Ev c b =>
      match c in Cmd B return B -> option BroadcastStatus with
      | Deref _ => fun st => Some st
      | _ => fun _ => None
      end b
  end.

Definition loaded_statuses (tr : list Event) : list BroadcastStatus :=
  omap loaded_status tr.

(** The insertion of a chunk that failed, the queue reporting closed, the
    removal that yielded neither a chunk nor a mark, the removal that
    yielded nothing, a receive-time sample. *)
Definition is_failed_insertion (e : Event) : bool :=
  match e with
  | Ev c b =>
      match c in Cmd B return B -> bool with
      | TryEmplaceUntil _ (PktChunk _) => fun ok : bool => negb ok
      | _ => fun _ => false
      end b
  end.

Definition is_closed_report (e : Event) : bool :=
  match e with
  | Ev c b =>
      match c in Cmd B return B -> bool with
      | QueueClosed => fun r : bool => r
      | _ => fun _ => false
      end b
  end.

Definition is_other_item (e : Event) : bool :=
  match e with
  | Ev c b =>
      match c in Cmd B return B -> bool with
      | TryPopUntil _ => fun r =>
          match r with Some (PktOther _) => true | _ => false end
      | _ => fun _ => false
      end b
  end.

Definition is_pop_timeout (e : Event) : bool :=
  match e with
  | Ev c b =>
      match c in Cmd B return B -> bool with
      | TryPopUntil _ => fun r =>
          match r with None => true | _ => false end
      | _ => fun _ => false
      end b
  end.

Definition is_recv_time_sample (e : Event) : bool :=
  match e with
  | Ev c _ => match c with RecvTimeAdd _ => true | _ => false end
  end.

(* ===================================================================== *)
(** ** Calls in sequence *)
(* ===================================================================== *)

Inductive Op :=
| OpRecv (timeout_ts : timespec)
| OpSend (chunk : Chunk)
| OpFinish (status_code : BroadcastStatusCode) (message_ : string)
| OpMerge.

Inductive OpResult :=
| ResRecv (r : RecvDataPacket)
| ResStatus (s : BroadcastStatus)
| ResVoid
| ResThrow (e : Exception).

(** The status a call returned, if it returned one. *)
Definition result_status (r : OpResult) : option BroadcastStatus :=
  match r with
  | ResStatus s | ResRecv (RecvStatus s) => Some s
  | _ => None
  end.

Section Sequences.
Context `{Externals} {Q : Type} `{TransportQueue Q}.
Variable ch : Channel.

Definition op_prog (o : Op) : Prog OpResult :=
  match o with
  | OpRecv ts => r <- recv ch ts ;; Ret (ResRecv r)
  | OpSend c => s <- sendImpl ch c ;; Ret (ResStatus s)
  | OpFinish c m => s <- finish ch c m ;; Ret (ResStatus s)
  | OpMerge =>
      r <- merge tt ;;
      Ret (match r with inl e => ResThrow e | inr _ => ResVoid end)
  end.

(** The calls [ops] one after the other, each run to completion: the
    result and the operations of each, and the final state. *)
Fixpoint run_ops (ops : list Op) (w : World Q)
  : option (list (OpResult * list Event) * World Q) :=
  match ops with
  | [] => Some ([], w)
  | o :: rest =>
      match run ch (op_prog o) w with
      | None => None
      | Some (r, w', tr) =>
          match run_ops rest w' with
          | None => None
          | Some (rs, w'') => Some ((r, tr) :: rs, w'')
          end
      end
  end.

(** The published status is readable. *)
Definition published_live (w : World Q) : Prop :=
  is_Some (deref ch w (broadcast_status w)).
End Sequences.

(* ===================================================================== *)
(** ** Programs: general facts *)
(* ===================================================================== *)

Section ProgFacts.
Context {Q : Type} `{TransportQueue Q}.
Variable ch : Channel.

Lemma run_bind {A B : Type} (t : Prog A) (f : A -> Prog B) (w : World Q) :
  run ch (bind t f) w =
  match run ch t w with
  | None => None
  | Some (a, w', tr) =>
      match run ch (f a) w' with
      | None => None
      | Some (b, w'', tr') => Some (b, w'', tr ++ tr')
      end
  end.
Proof.
  revert w. induction t as [a | C c k IH]; intros w; simpl.
  - destruct (run ch (f a) w) as [[[b w''] tr'] |]; reflexivity.
  - destruct (interp ch c w) as [[b w'] |]; [| reflexivity].
    rewrite IH.
    destruct (run ch (k b) w') as [[[a w''] tr] |]; [| reflexivity].
    destruct (run ch (f a) w'') as [[[b' w3] tr'] |]; reflexivity.
Qed.

(** What a run yields is one of the paths of the program. *)
Lemma run_path {A : Type} (t : Prog A) (w w' : World Q) a tr :
  run ch t w = Some (a, w', tr) -> path t tr a.
Proof.
  revert w w' a tr. induction t as [a0 | C c k IH]; intros w w' a tr; simpl.
  - intros [= <- _ <-]. auto.
  - destruct (interp ch c w) as [[b w1] |]; [| discriminate].
    destruct (run ch (k b) w1) as [[[a1 w2] tr1] |] eqn:E; [| discriminate].
    intros [= <- <- <-]. exists b, tr1. split; [reflexivity |]. eapply IH, E.
Qed.

(** Only the compare-and-swap writes [broadcast_status]. *)
Lemma interp_broadcast_status {B : Type} (c : Cmd B) (w w' : World Q) b :
  interp ch c w = Some (b, w') ->
  is_cas (Ev c b) = false ->
  broadcast_status w' = broadcast_status w.
Proof.
  destruct c; simpl; intros Hi Hc; try discriminate;
    try (injection Hi as <- <-; reflexivity).
  - destruct (deref ch w p); simpl in Hi; [| discriminate].
    injection Hi as <- <-; reflexivity.
  - destruct p; [discriminate |].
    destruct (heap w !! a); simpl in Hi; [| discriminate].
    injection Hi as <- <-; reflexivity.
Qed.
End ProgFacts.

(* ===================================================================== *)
(** ** [finish] run to completion *)
(* ===================================================================== *)

Ltac exec_cbn :=
  cbn [run bind call interp deref when
       recv recv_finish sendImpl sendImpl_failed merge destroy getName
       mbind option_bind fst snd negb
       broadcast_status heap receive_queue sender_metrics receiver_metrics
       global_memory clock logger query_exchange_log
       set_broadcast_status set_heap set_receive_queue set_sender_metrics
       set_receiver_metrics set_global_memory set_logger set_query_exchange_log
       code is_modifer message set_is_modifer].

Ltac exec_simpl := repeat (progress (exec_cbn; unfold deref)).

Ltac run_simpl :=
  cbn [run bind call interp deref read_status when
       finish finish_won finish_lost recv recv_finish sendImpl sendImpl_failed
       merge destroy getName
       mbind option_bind fst snd negb
       broadcast_status heap receive_queue sender_metrics receiver_metrics
       global_memory clock logger query_exchange_log
       set_broadcast_status set_heap set_receive_queue set_sender_metrics
       set_receiver_metrics set_global_memory set_logger set_query_exchange_log
       code is_modifer message set_is_modifer].

Ltac run_heap :=
  repeat (progress (run_simpl; rewrite ?lookup_insert_eq)).

Section FinishFacts.
Context `{Externals} {Q : Type} `{TransportQueue Q}.
Variable ch : Channel.

(** What a winning [finish] does to the queue. *)
Definition finish_queue (c : BroadcastStatusCode) (q : Q) : Q :=
  if 0 <? c then close q
  else snd (tryEmplaceUntil q (max_timeout_ts (options ch)) (PktSendDoneMark (name ch))).

Definition finish_queue_event (c : BroadcastStatusCode) (q : Q) : Event :=
  if 0 <? c then Ev CloseQueue tt
  else Ev (TryEmplaceUntil (max_timeout_ts (options ch)) (PktSendDoneMark (name ch)))
          (fst (tryEmplaceUntil q (max_timeout_ts (options ch)) (PktSendDoneMark (name ch)))).

Definition finish_won_world (c : BroadcastStatusCode) (m : string) (w : World Q)
  : World Q :=
  let a := fresh (dom (heap w)) in
  mkWorld (HeapPtr a) (<[a := mkBroadcastStatus c false m]> (heap w))
          (finish_queue c (receive_queue w))
          (sm_set_message m (sm_set_is_modifier 1 (sm_set_finish_code c (sender_metrics w))))
          (receiver_metrics w) (global_memory w) (clock w)
          (logger w ++ [LogDebugTransition (name ch) (code (init_status ch)) c m])
          (query_exchange_log w).

Definition finish_won_trace (c : BroadcastStatusCode) (m : string) (w : World Q)
  : list Event :=
  let p := HeapPtr (fresh (dom (heap w))) in
  let st := mkBroadcastStatus c false m in
  [ Ev (NewStatus st) p;
    Ev (CasStatus InitPtr p) (true, InitPtr);
    Ev (Deref InitPtr) (init_status ch);
    Ev (Deref p) st;
    Ev (Log (LogDebugTransition (name ch) (code (init_status ch)) c m)) tt;
    Ev (Deref p) st;
    finish_queue_event c (receive_queue w);
    Ev (Deref p) st;
    Ev (Deref p) st;
    Ev (SetFinishCode c) tt;
    Ev (SetIsModifier 1) tt;
    Ev (Deref p) st;
    Ev (SetMessage m) tt ].

Lemma finish_won_run c m (w : World Q) :
  broadcast_status w = InitPtr ->
  run ch (finish ch c m) w
  = Some (mkBroadcastStatus c true m, finish_won_world c m w, finish_won_trace c m w).
Proof.
  intros Hp. unfold finish_won_world, finish_won_trace, finish_queue, finish_queue_event.
  run_simpl. rewrite Hp. rewrite decide_True by reflexivity.
  run_heap. destruct (0 <? c); run_heap; reflexivity.
Qed.

Definition finish_lost_world (c : BroadcastStatusCode) (m : string)
    (s : BroadcastStatus) (w : World Q) : World Q :=
  mkWorld (broadcast_status w) (heap w) (receive_queue w)
          (sm_set_is_modifier 0 (sm_set_finish_code (code s) (sender_metrics w)))
          (receiver_metrics w) (global_memory w) (clock w)
          (logger w ++ [LogTraceFail (name ch) c (code s) m])
          (query_exchange_log w).

Definition finish_lost_trace (c : BroadcastStatusCode) (m : string)
    (s : BroadcastStatus) (w : World Q) : list Event :=
  let p := HeapPtr (fresh (dom (heap w))) in
  let st := mkBroadcastStatus c false m in
  [ Ev (NewStatus st) p;
    Ev (CasStatus InitPtr p) (false, broadcast_status w);
    Ev (Deref p) st;
    Ev (Deref (broadcast_status w)) s;
    Ev (Log (LogTraceFail (name ch) c (code s) m)) tt;
    Ev (Deref (broadcast_status w)) s;
    Ev (SetFinishCode (code s)) tt;
    Ev (SetIsModifier 0) tt;
    Ev (DeleteStatus p) tt;
    Ev (Deref (broadcast_status w)) s ].

Lemma finish_lost_run c m (w : World Q) q s :
  broadcast_status w = HeapPtr q ->
  heap w !! q = Some s ->
  run ch (finish ch c m) w
  = Some (s, finish_lost_world c m s w, finish_lost_trace c m s w).
Proof.
  intros Hp Hq. unfold finish_lost_world, finish_lost_trace.
  destruct w as [p0 hp rq sm rm gm ck lg ql]; cbn [broadcast_status heap] in *.
  subst p0.
  assert (Hfresh : hp !! fresh (dom hp) = None)
    by (apply not_elem_of_dom, is_fresh).
  assert (Hne : fresh (dom hp) <> q) by congruence.
  run_simpl. rewrite decide_False by discriminate.
  repeat (progress (run_simpl;
                    rewrite ?lookup_insert_eq, ?(lookup_insert_ne _ _ _ _ Hne),
                      ?Hq, ?(delete_insert_id _ _ _ Hfresh))).
  reflexivity.
Qed.

(** Every [finish] returns, whatever the state, as long as the published
    status is readable. *)
Lemma finish_run c m (w : World Q) :
  published_live ch w ->
  exists s w' tr, run ch (finish ch c m) w = Some (s, w', tr).
Proof.
  intros [s Hs]. destruct (broadcast_status w) as [| q] eqn:Hp.
  - rewrite finish_won_run by assumption. eauto.
  - simpl in Hs. erewrite finish_lost_run by eassumption. eauto.
Qed.
End FinishFacts.

(* ===================================================================== *)
(** ** [recv] and [sendImpl] run to completion *)
(* ===================================================================== *)

Section CallFacts.
Context `{Externals} {Q : Type} `{TransportQueue Q}.
Variable ch : Channel.

Definition entry_trace (w : World Q) (s : BroadcastStatus) : list Event :=
  [ Ev Now (clock w); Ev LoadStatus (broadcast_status w);
    Ev (Deref (broadcast_status w)) s ].

(** The fast path of [recv]. *)
Lemma recv_closed_run ts (w : World Q) s :
  deref ch w (broadcast_status w) = Some s ->
  0 < code s ->
  run ch (recv ch ts) w = Some (RecvStatus s, w, entry_trace w s).
Proof.
  intros Hs Hc. unfold entry_trace.
  destruct w as [p0 hp rq sm rm gm ck lg ql]; unfold deref in Hs; cbn [heap broadcast_status] in Hs.
  exec_simpl. rewrite Hs. exec_simpl.
  apply Z.ltb_lt in Hc. rewrite Hc. reflexivity.
Qed.

Definition recv_chunk_world (c : Chunk) (q' : Q) (w : World Q) : World Q :=
  let w1 := set_receive_queue q' w in
  let w2 := if enable_receiver_metrics ch
            then set_receiver_metrics (rm_add_recv_bytes (bytes c) (receiver_metrics w1)) w1
            else w1 in
  set_global_memory (global_memory w2 - Z.of_N (allocatedBytes c)) w2.

Lemma recv_chunk_run ts (w : World Q) s c q' :
  deref ch w (broadcast_status w) = Some s ->
  code s <= 0 ->
  tryPopUntil (receive_queue w) ts = (Some (PktChunk c), q') ->
  run ch (recv ch ts) w
  = Some (RecvChunk c, recv_chunk_world c q' w,
          entry_trace w s ++
          [Ev (TryPopUntil ts) (Some (PktChunk c))] ++
          (if enable_receiver_metrics ch then [Ev (RecvBytesAdd (bytes c)) tt] else []) ++
          [Ev (TransferGlobalMemoryToThread (allocatedBytes c)) tt]).
Proof.
  intros Hs Hc Hq. unfold entry_trace, recv_chunk_world.
  destruct w as [p0 hp rq sm rm gm ck lg ql];
    unfold deref in Hs; cbn [heap broadcast_status receive_queue] in Hs, Hq.
  exec_simpl. rewrite Hs. exec_simpl.
  apply Z.ltb_ge in Hc. rewrite Hc. exec_simpl. rewrite Hq. exec_simpl.
  destruct (enable_receiver_metrics ch); reflexivity.
Qed.

Lemma recv_mark_run ts (w : World Q) s m q' :
  deref ch w (broadcast_status w) = Some s ->
  code s <= 0 ->
  tryPopUntil (receive_queue w) ts = (Some (PktSendDoneMark m), q') ->
  run ch (recv ch ts) w
  = Some (RecvStatus s, set_receive_queue q' w,
          entry_trace w s ++
          [Ev (TryPopUntil ts) (Some (PktSendDoneMark m));
           Ev LoadStatus (broadcast_status w);
           Ev (Deref (broadcast_status w)) s]).
Proof.
  intros Hs Hc Hq. unfold entry_trace.
  destruct w as [p0 hp rq sm rm gm ck lg ql];
    unfold deref in Hs; cbn [heap broadcast_status receive_queue] in Hs, Hq.
  exec_simpl. rewrite Hs. exec_simpl.
  apply Z.ltb_ge in Hc. rewrite Hc. exec_simpl. rewrite Hq. exec_simpl. rewrite Hs. reflexivity.
Qed.

(** What [recv] does once [finish] has returned [st] in state [w]. *)
Definition recv_record (start : N) (w : World Q) : World Q :=
  if enable_receiver_metrics ch
  then set_receiver_metrics (rm_add_recv_time (clock w - start)%N (receiver_metrics w)) w
  else w.

Definition recv_record_trace (start : N) (w : World Q) : list Event :=
  if enable_receiver_metrics ch
  then [Ev Now (clock w); Ev (RecvTimeAdd (clock w - start)%N) tt]
  else [].

(** The removal that yields nothing and the removal that yields an item
    that is neither a chunk nor a mark continue in the same way. *)
Definition falls_through (r : option MultiPathDataPacket) : Prop :=
  match r with
  | None | Some (PktOther _) => True
  | _ => False
  end.

Lemma recv_fall_through_run ts (w : World Q) s r q' :
  deref ch w (broadcast_status w) = Some s ->
  code s <= 0 ->
  tryPopUntil (receive_queue w) ts = (r, q') ->
  falls_through r ->
  run ch (recv ch ts) w
  = match run ch (finish ch RECV_TIMEOUT (recv_timeout_message ch ts))
              (set_receive_queue q' w) with
    | None => None
    | Some (st, w', tr) =>
        Some (RecvStatus st, recv_record (clock w) w',
              entry_trace w s ++ [Ev (TryPopUntil ts) r] ++ tr
                ++ recv_record_trace (clock w) w')
    end.
Proof.
  intros Hs Hc Hq Hr. unfold entry_trace, recv_record, recv_record_trace.
  destruct w as [p0 hp rq sm rm gm ck lg ql];
    unfold deref in Hs; cbn [heap broadcast_status receive_queue] in Hs, Hq.
  exec_simpl. rewrite Hs. exec_simpl.
  apply Z.ltb_ge in Hc. rewrite Hc. exec_simpl. rewrite Hq. exec_simpl.
  destruct r as [[c | m | o] |]; simpl in Hr; try contradiction;
    unfold recv_finish; rewrite run_bind;
    (destruct (run ch (finish ch RECV_TIMEOUT (recv_timeout_message ch ts)) _)
      as [[[st w'] tr] |]; [| reflexivity]);
    rewrite run_bind;
    destruct (enable_receiver_metrics ch); exec_simpl;
    rewrite ?app_nil_r; try reflexivity;
    repeat f_equal; rewrite <- ?app_assoc; reflexivity.
Qed.

(** [sendImpl] on a channel that is not running. *)
Lemma sendImpl_stopped_run c (w : World Q) s :
  deref ch w (broadcast_status w) = Some s ->
  code s <> RUNNING ->
  run ch (sendImpl ch c) w = Some (s, w, entry_trace w s).
Proof.
  intros Hs Hc. unfold entry_trace.
  destruct w as [p0 hp rq sm rm gm ck lg ql];
    unfold deref in Hs; cbn [heap broadcast_status] in Hs.
  exec_simpl. rewrite Hs. exec_simpl.
  apply Z.eqb_neq in Hc. rewrite Hc. reflexivity.
Qed.

Definition insert_event (c : Chunk) (ok : bool) : Event :=
  Ev (TryEmplaceUntil (max_timeout_ts (options ch)) (PktChunk c)) ok.

Lemma sendImpl_inserted_run c (w : World Q) s q' :
  deref ch w (broadcast_status w) = Some s ->
  code s = RUNNING ->
  tryEmplaceUntil (receive_queue w) (max_timeout_ts (options ch)) (PktChunk c) = (true, q') ->
  run ch (sendImpl ch c) w
  = Some (s,
          set_global_memory (global_memory w + Z.of_N (allocatedBytes c))
                            (set_receive_queue q' w),
          entry_trace w s ++
          [insert_event c true;
           Ev (TransferThreadMemoryToGlobal (allocatedBytes c)) tt;
           Ev LoadStatus (broadcast_status w);
           Ev (Deref (broadcast_status w)) s]).
Proof.
  intros Hs Hc Hq. unfold entry_trace, insert_event.
  destruct w as [p0 hp rq sm rm gm ck lg ql];
    unfold deref in Hs; cbn [heap broadcast_status receive_queue] in Hs, Hq.
  exec_simpl. rewrite Hs. exec_simpl.
  apply Z.eqb_eq in Hc. rewrite Hc. exec_simpl. rewrite Hq. exec_simpl.
  rewrite Hs. reflexivity.
Qed.

Lemma sendImpl_interrupted_run c (w : World Q) s q' :
  deref ch w (broadcast_status w) = Some s ->
  code s = RUNNING ->
  tryEmplaceUntil (receive_queue w) (max_timeout_ts (options ch)) (PktChunk c) = (false, q') ->
  closed q' = true ->
  run ch (sendImpl ch c) w
  = Some (send_interrupted, set_receive_queue q' w,
          entry_trace w s ++
          [insert_event c false;
           Ev QueueClosed true;
           Ev LoadStatus (broadcast_status w);
           Ev (Deref (broadcast_status w)) s]).
Proof.
  intros Hs Hc Hq Hcl. unfold entry_trace, insert_event.
  destruct w as [p0 hp rq sm rm gm ck lg ql];
    unfold deref in Hs; cbn [heap broadcast_status receive_queue] in Hs, Hq.
  exec_simpl. rewrite Hs. exec_simpl.
  apply Z.eqb_eq in Hc. rewrite Hc. exec_simpl. rewrite Hq. exec_simpl.
  rewrite Hcl. exec_simpl. rewrite Hs. exec_simpl. rewrite Hc. reflexivity.
Qed.

Lemma sendImpl_timeout_run c (w : World Q) s q' :
  deref ch w (broadcast_status w) = Some s ->
  code s = RUNNING ->
  tryEmplaceUntil (receive_queue w) (max_timeout_ts (options ch)) (PktChunk c) = (false, q') ->
  closed q' = false ->
  run ch (sendImpl ch c) w
  = match run ch (finish ch SEND_TIMEOUT (send_timeout_message ch))
              (set_receive_queue q' w) with
    | None => None
    | Some (st, w', tr) =>
        Some (st, w',
              entry_trace w s ++ [insert_event c false; Ev QueueClosed false] ++ tr)
    end.
Proof.
  intros Hs Hc Hq Hcl. unfold entry_trace, insert_event.
  destruct w as [p0 hp rq sm rm gm ck lg ql];
    unfold deref in Hs; cbn [heap broadcast_status receive_queue] in Hs, Hq.
  exec_simpl. rewrite Hs. exec_simpl.
  apply Z.eqb_eq in Hc. rewrite Hc. exec_simpl. rewrite Hq. exec_simpl.
  rewrite Hcl. exec_simpl.
  destruct (run ch (finish ch SEND_TIMEOUT (send_timeout_message ch)) _)
    as [[[st w'] tr] |]; reflexivity.
Qed.
End CallFacts.

(* ===================================================================== *)
(** ** One call on a channel, by the state of [broadcast_status] *)
(* ===================================================================== *)

Fixpoint count_events (f : Event -> bool) (tr : list Event) : nat :=
  match tr with
  | [] => 0
  | e :: rest => (if f e then 1 else 0) + count_events f rest
  end.

Ltac close_op :=
  simpl; repeat split; auto; try discriminate; try contradiction.

Section OneCall.
Context `{Externals} {Q : Type} `{TransportQueue Q}.
Variable ch : Channel.

(** A status other than [init_status] is installed: [broadcast_status]
    holds the address [q] of the live object [s]. *)
Definition published (q : nat) (s : BroadcastStatus) (w : World Q) : Prop :=
  broadcast_status w = HeapPtr q /\ heap w !! q = Some s.

Lemma published_deref q s w :
  published q s w -> deref ch w (broadcast_status w) = Some s.
Proof. intros [Hp Hq]. unfold deref. rewrite Hp. exact Hq. Qed.

Lemma run_bind_ret {A B : Type} (t : Prog A) (f : A -> B) (w : World Q) :
  run ch (bind t (fun a => Ret (f a))) w =
  match run ch t w with
  | None => None
  | Some (a, w', tr) => Some (f a, w', tr)
  end.
Proof.
  rewrite run_bind. destruct (run ch t w) as [[[a w'] tr] |]; [| reflexivity].
  simpl. rewrite app_nil_r. reflexivity.
Qed.

(** What [recv] returns on a channel whose installed status is [s], given
    the outcome of the removal. *)
Definition recv_result (s : BroadcastStatus) (r : option MultiPathDataPacket)
  : RecvDataPacket :=
  match r with
  | Some (PktChunk c) => RecvChunk c
  | _ => RecvStatus s
  end.

(** A call on a channel with an installed status. *)
Lemma op_published (o : Op) q s (w : World Q) :
  published q s w ->
  exists r w' tr,
    run ch (op_prog ch o) w = Some (r, w', tr)
    /\ published q s w'
    /\ match o with
       | OpRecv ts =>
           if 0 <? code s
           then r = ResRecv (RecvStatus s) /\ w' = w /\ tr = entry_trace w s
           else r = ResRecv (recv_result s (fst (tryPopUntil (receive_queue w) ts)))
                /\ receive_queue w' = snd (tryPopUntil (receive_queue w) ts)
       | OpSend c =>
           code s <> RUNNING -> r = ResStatus s /\ w' = w
       | OpFinish c m =>
           r = ResStatus s /\ w' = finish_lost_world ch c m s w
       | OpMerge => w' = w
       end.
Proof.
  intros Hpub. pose proof (published_deref _ _ _ Hpub) as Hs.
  destruct Hpub as [Hp Hh].
  destruct o as [ts | c | c m |]; cbn [op_prog].
  - (* recv *)
    rewrite run_bind_ret.
    destruct (0 <? code s) eqn:Hc.
    + apply Z.ltb_lt in Hc. rewrite (recv_closed_run ch ts w s Hs Hc).
      do 3 eexists. split; [reflexivity |]. close_op.
    + apply Z.ltb_ge in Hc.
      destruct (tryPopUntil (receive_queue w) ts) as [r q'] eqn:Hq.
      destruct r as [[c | m | o] |].
      * rewrite (recv_chunk_run ch ts w s c q' Hs Hc Hq).
        do 3 eexists. split; [reflexivity |].
        unfold recv_chunk_world, published.
        destruct (enable_receiver_metrics ch); close_op.
      * rewrite (recv_mark_run ch ts w s m q' Hs Hc Hq).
        do 3 eexists. split; [reflexivity |].
        unfold published. close_op.
      * rewrite (recv_fall_through_run ch ts w s _ q' Hs Hc Hq I).
        erewrite finish_lost_run by (simpl; eassumption).
        do 3 eexists. split; [reflexivity |].
        unfold recv_record, recv_record_trace, published.
        destruct (enable_receiver_metrics ch); close_op.
      * rewrite (recv_fall_through_run ch ts w s _ q' Hs Hc Hq I).
        erewrite finish_lost_run by (simpl; eassumption).
        do 3 eexists. split; [reflexivity |].
        unfold recv_record, recv_record_trace, published.
        destruct (enable_receiver_metrics ch); close_op.
  - (* sendImpl *)
    rewrite run_bind_ret.
    destruct (Z.eq_dec (code s) RUNNING) as [Hc | Hc].
    + destruct (tryEmplaceUntil (receive_queue w) (max_timeout_ts (options ch)) (PktChunk c))
        as [[|] q'] eqn:Hq.
      * rewrite (sendImpl_inserted_run ch c w s q' Hs Hc Hq).
        do 3 eexists. split; [reflexivity |].
        unfold published. close_op.
      * destruct (closed q') eqn:Hcl.
        -- rewrite (sendImpl_interrupted_run ch c w s q' Hs Hc Hq Hcl).
           do 3 eexists. split; [reflexivity |].
           unfold published. close_op.
        -- rewrite (sendImpl_timeout_run ch c w s q' Hs Hc Hq Hcl).
           erewrite finish_lost_run by (simpl; eassumption).
           do 3 eexists. split; [reflexivity |].
           unfold published. close_op.
    + rewrite (sendImpl_stopped_run ch c w s Hs Hc).
      do 3 eexists. split; [reflexivity |].
      unfold published. close_op.
  - (* finish *)
    rewrite run_bind_ret.
    rewrite (finish_lost_run ch c m w q s Hp Hh).
    do 3 eexists. split; [reflexivity |]. unfold published. close_op.
  - (* merge *)
    simpl. do 3 eexists. split; [reflexivity |]. unfold published. close_op.
Qed.

Lemma finish_won_published c m (w : World Q) :
  published (fresh (dom (heap w))) (mkBroadcastStatus c false m)
            (finish_won_world ch c m w).
Proof. split; [reflexivity |]. simpl. apply lookup_insert_eq. Qed.

End OneCall.

(* ===================================================================== *)
(** ** Paths of the member functions *)
(* ===================================================================== *)

(** Splits a hypothesis [path t tr a] along the program [t], one case per
    return value that selects a branch. *)
Ltac path_cases H :=
  repeat (unfold when in H;
          cbn [path bind call finish finish_won finish_lost recv_finish
               sendImpl_failed fst snd] in H;
          match type of H with
          | _ = _ /\ _ = _ => destruct H as [-> ->]
          | exists _, _ =>
              let b := fresh "b" in
              let tr := fresh "tr" in
              destruct H as (b & tr & -> & H)
          | path (if ?x then _ else _) _ _ => destruct x eqn:?
          | path (match ?x with _ => _ end) _ _ => destruct x
          | path ?t _ _ =>
              match t with
              | context [if ?x then _ else _] => destruct x eqn:?
              end
          end).

Section Paths.
Context `{Externals}.
Variable ch : Channel.

(** A call of [finish] transfers no memory credit and takes no chunk. *)
Lemma finish_path_credit c m tr st :
  path (finish ch c m) tr st -> credit_events tr = [].
Proof. intros Hp. path_cases Hp; reflexivity. Qed.

(** [recv] records a receive-time sample on the paths that reach the
    [finish] at its end, when receiver metrics are enabled, and on no
    other path. *)
Lemma recv_time_samples ts tr r :
  path (recv ch ts) tr r ->
  count_events is_recv_time_sample tr
  = if enable_receiver_metrics ch
       && (0 <? count_events is_pop_timeout tr + count_events is_other_item tr)%nat
    then 1%nat else 0%nat.
Proof.
  intros Hp. unfold recv in Hp.
  destruct (enable_receiver_metrics ch) eqn:Hen;
    path_cases Hp; try discriminate; reflexivity.
Qed.
End Paths.

Section RunFacts.
Context {Q : Type} `{TransportQueue Q}.
Variable ch : Channel.

(** A call that issued no compare-and-swap left [broadcast_status] as it
    found it. *)
Lemma run_without_cas {A : Type} (t : Prog A) (w w' : World Q) a tr :
  run ch t w = Some (a, w', tr) ->
  count_events is_cas tr = 0%nat ->
  broadcast_status w' = broadcast_status w.
Proof.
  revert w w' a tr. induction t as [a0 | C c k IH]; intros w w' a tr; simpl.
  - intros [= _ <- _] _. reflexivity.
  - destruct (interp ch c w) as [[b w1] |] eqn:Hi; [| discriminate].
    destruct (run ch (k b) w1) as [[[a1 w2] tr1] |] eqn:Hr; [| discriminate].
    intros [= <- <- <-] Hc. cbn [count_events] in Hc.
    destruct (is_cas (Ev c b)) eqn:Hcas; [discriminate Hc |].
    rewrite (IH _ _ _ _ _ Hr Hc).
    eapply interp_broadcast_status; eassumption.
Qed.
End RunFacts.

(* ===================================================================== *)
(** ** Calls interleaved *)
(* ===================================================================== *)

(** What a thread inside a call holds: nothing yet; the candidate status it
    allocated; the installed status, once its compare-and-swap succeeded;
    its candidate, still to be deleted, once its compare-and-swap failed;
    nothing any more.  The flag records that the thread has seen a status
    installed. *)
Inductive Phase :=
| Idle (seen : bool)
| Cand (seen : bool) (a : nat) (st : BroadcastStatus)
| Won
| Lost (a : nat) (st : BroadcastStatus)
| Released.

Definition knows (g : Phase) : bool :=
  match g with
  | Idle k | Cand k _ _ => k
  | _ => true
  end.

Definition owned (g : Phase) : option (nat * BroadcastStatus) :=
  match g with
  | Cand _ a st | Lost a st => Some (a, st)
  | _ => None
  end.

Definition learn (g : Phase) : Phase :=
  match g with
  | Idle _ => Idle true
  | Cand _ a st => Cand true a st
  | _ => g
  end.

Section Discipline.
Variable ch : Channel.
(** The address and the value of the status that is installed, if one is. *)
Variables (q : nat) (s : BroadcastStatus).

(** The operations a thread may issue in a phase. *)
Definition cmd_ok {B : Type} (g : Phase) (c : Cmd B) : Prop :=
  match c with
  | Deref p =>
      match p with
      | InitPtr => True
      | HeapPtr a => (a = q /\ knows g = true) \/ (exists st, owned g = Some (a, st))
      end
  | NewStatus st => (exists k, g = Idle k) /\ is_modifer st = false
  | DeleteStatus p => exists a st, p = HeapPtr a /\ g = Lost a st
  | CasStatus e d => e = InitPtr /\ exists k a st, d = HeapPtr a /\ g = Cand k a st
  | _ => True
  end.

(** What an operation can return to a thread in phase [g], and the phase
    the thread is in afterwards. *)
Definition resp {B : Type} (g : Phase) (c : Cmd B) : B -> Phase -> Prop :=
  match c in Cmd B return B -> Phase -> Prop with
  | LoadStatus => fun b g' =>
      (b = InitPtr /\ g' = g) \/ (b = HeapPtr q /\ g' = learn g)
  | Deref p => fun b g' =>
      g' = g /\
      match p with
      | InitPtr => b = init_status ch
      | HeapPtr a => (a = q /\ knows g = true /\ b = s) \/ owned g = Some (a, b)
      end
  | NewStatus st => fun b g' =>
      exists a, b = HeapPtr a /\ g' = Cand (knows g) a st
  | DeleteStatus _ => fun _ g' => g' = Released
  | CasStatus _ _ => fun b g' =>
      (b = (true, InitPtr) /\ g' = Won /\ exists k, g = Cand k q s)
      \/ (b = (false, HeapPtr q) /\ exists k a st, g = Cand k a st /\ a <> q /\ g' = Lost a st)
  | _ => fun _ g' => g' = g
  end.

(** [ok post t g]: in phase [g] the rest [t] of a call issues only
    operations it may, whatever they return, and ends in a phase and with a
    result that satisfy [post]. *)
Fixpoint ok {A : Type} (post : Phase -> A -> Prop) (t : Prog A) (g : Phase) : Prop :=
  match t with
  | Ret a => post g a
  | Vis c k => cmd_ok g c /\ forall b g', resp g c b g' -> ok post (k b) g'
  end.

Lemma ok_bind {A B : Type} (post : Phase -> B -> Prop) (mid : Phase -> A -> Prop)
    (t : Prog A) (f : A -> Prog B) g :
  ok mid t g ->
  (forall a g', mid g' a -> ok post (f a) g') ->
  ok post (bind t f) g.
Proof.
  revert g. induction t as [a | C c k IH]; intros g Ht Hf; simpl in *.
  - apply Hf, Ht.
  - destruct Ht as [Hc Hk]. split; [exact Hc |].
    intros b g' Hr. apply IH; [apply Hk, Hr | exact Hf].
Qed.

End Discipline.

(** Works through a goal [ok post t g] along the program [t]. *)
Ltac ok_hyp :=
  match goal with
  | H : _ /\ _ |- _ => destruct H
  | H : _ \/ _ |- _ => destruct H
  | H : exists _, _ |- _ => destruct H
  | _ => progress simplify_eq
  end.

Ltac ok_goal :=
  match goal with
  | |- _ /\ _ => split
  | |- forall _, _ => intro
  | |- ok _ _ _ _ (if ?x then _ else _) _ => destruct x eqn:?
  | |- ok _ _ _ _ (match ?x with _ => _ end) _ => destruct x
  | |- ok _ _ _ _ ?t _ =>
      match t with
      | context [if ?x then _ else _] => destruct x eqn:?
      end
  end.

Ltac ok_finish :=
  repeat (cbn [ok bind call finish finish_won finish_lost fst snd
               cmd_ok resp knows owned learn] in *;
          first [ok_hyp | ok_goal]).

Section Typing.
Context `{Externals}.
Variable ch : Channel.
Variables (q : nat) (s : BroadcastStatus).

(** How a call of [finish] ends: having installed its status, which it
    returns with [is_modifer] set, or having found [s] installed, which it
    returns. *)
Definition finish_post (g : Phase) (st : BroadcastStatus) : Prop :=
  (g = Won /\ st = set_is_modifer true s) \/ (g = Released /\ st = s).

Lemma finish_ok c m k : ok ch q s finish_post (finish ch c m) (Idle k).
Proof. ok_finish; solve [unfold finish_post; eauto 10]. Qed.

(** How a call ends: a thread that installed [s] returns it with
    [is_modifer] set; any other returns no status, or [init_status], or the
    unattributed status of an interrupted send, or, if a status is
    installed, [s]; a call of [finish] returns [s] in either way. *)
Definition op_post (o : Op) (g : Phase) (r : OpResult) : Prop :=
  match g with
  | Won => result_status r = Some (set_is_modifer true s)
  | Released | Idle true =>
      forall st, result_status r = Some st ->
                 st = init_status ch \/ st = s \/ st = send_interrupted
  | Idle false =>
      forall st, result_status r = Some st ->
                 st = init_status ch \/ st = send_interrupted
  | _ => False
  end
  /\ match o with
     | OpFinish _ _ =>
         (g = Won /\ r = ResStatus (set_is_modifer true s))
         \/ (g = Released /\ r = ResStatus s)
     | _ => True
     end.

Lemma recv_finish_ok start ts k :
  ok ch q s (fun g r => exists st, r = RecvStatus st /\ finish_post g st)
     (recv_finish ch start ts) (Idle k).
Proof.
  unfold recv_finish. eapply ok_bind; [apply finish_ok |].
  intros st g' Hp. unfold when.
  destruct (enable_receiver_metrics ch); cbn [ok bind call cmd_ok resp].
  - split; [exact I |]. intros b g1 ->. split; [exact I |]. intros b1 g2 ->. eauto.
  - eauto.
Qed.

Ltac ok_call :=
  repeat (unfold when;
          cbn beta;
          cbn [ok bind call recv sendImpl sendImpl_failed merge op_prog
               fst snd cmd_ok resp knows owned learn] in *;
          first [ ok_hyp
                | match goal with
                  | |- ok _ _ _ _ (bind (recv_finish _ _ _) _) _ =>
                      eapply ok_bind; [apply recv_finish_ok | unfold finish_post]
                  | |- ok _ _ _ _ (bind (finish _ _ _) _) _ =>
                      eapply ok_bind; [apply finish_ok | unfold finish_post]
                  end
                | match goal with
                  | x : option MultiPathDataPacket |- _ => destruct x
                  | x : MultiPathDataPacket |- _ => destruct x
                  end
                | ok_goal ]).

Ltac ok_leaf :=
  cbn [ok bind]; unfold op_post, send_interrupted;
  cbn [result_status]; repeat split; try tauto;
  try (intros ? [= <-]); try discriminate; eauto 10.

Lemma op_ok o : ok ch q s (op_post o) (op_prog ch o) (Idle false).
Proof.
  destruct o as [ts | c | c m |]; ok_call; solve [ok_leaf].
Qed.
End Typing.

Section Invariant.
Context {Q : Type} `{TransportQueue Q}.
Variable ch : Channel.

(** The candidates the threads hold are live objects with the value they
    were allocated with, and no two threads hold the same one. *)
Definition cells_ok (h : gmap nat BroadcastStatus) (gs : nat -> Phase) : Prop :=
  (forall i a st, owned (gs i) = Some (a, st) ->
                  h !! a = Some st /\ is_modifer st = false)
  /\ (forall i j a sti stj,
         owned (gs i) = Some (a, sti) -> owned (gs j) = Some (a, stj) -> i = j).

(** No status is installed: no thread has seen one or tried to install
    one. *)
Definition inv_init (gs : nat -> Phase) (w : World Q) : Prop :=
  broadcast_status w = InitPtr
  /\ cells_ok (heap w) gs
  /\ forall i, gs i = Idle false \/ exists a st, gs i = Cand false a st.

(** The status [s] is installed at [q], by exactly one of the first [n]
    threads; no thread holds [q] as a candidate. *)
Definition inv_pub (n : nat) (q : nat) (s : BroadcastStatus)
    (gs : nat -> Phase) (w : World Q) : Prop :=
  broadcast_status w = HeapPtr q
  /\ heap w !! q = Some s
  /\ is_modifer s = false
  /\ cells_ok (heap w) gs
  /\ (forall i a st, owned (gs i) = Some (a, st) -> a <> q)
  /\ exists iw, (iw < n)%nat /\ gs iw = Won /\ forall j, gs j = Won -> j = iw.

Lemma cells_ok_same_owned h gs i g :
  owned g = owned (gs i) ->
  cells_ok h gs ->
  cells_ok h (<[i := g]> gs).
Proof.
  intros Ho [Hlive Hdist]. split.
  - intros j a st. destruct (decide (i = j)) as [<- | Hne].
    + rewrite fn_lookup_insert, Ho. apply Hlive.
    + rewrite fn_lookup_insert_ne by exact Hne. apply Hlive.
  - intros j1 j2 a st1 st2.
    destruct (decide (i = j1)) as [<- | Hne1], (decide (i = j2)) as [<- | Hne2];
      rewrite ?fn_lookup_insert, ?fn_lookup_insert_ne by assumption;
      rewrite ?Ho; try reflexivity; apply Hdist.
Qed.

Lemma cells_ok_release h gs i a st :
  owned (gs i) = Some (a, st) ->
  cells_ok h gs ->
  forall g, owned g = None -> cells_ok (delete a h) (<[i := g]> gs).
Proof.
  intros Ho [Hlive Hdist] g Hg. split.
  - intros j a' st'. destruct (decide (i = j)) as [<- | Hne].
    + rewrite fn_lookup_insert, Hg. discriminate.
    + rewrite fn_lookup_insert_ne by exact Hne. intros Hj.
      assert (a <> a').
      { intros <-. apply Hne. eapply Hdist; eassumption. }
      rewrite lookup_delete_ne by assumption. eapply Hlive, Hj.
  - intros j1 j2 a' st1 st2.
    destruct (decide (i = j1)) as [<- | Hne1], (decide (i = j2)) as [<- | Hne2];
      rewrite ?fn_lookup_insert, ?fn_lookup_insert_ne by assumption;
      rewrite ?Hg; try discriminate; try reflexivity; apply Hdist.
Qed.

Lemma cells_ok_alloc h gs i g st :
  owned (gs i) = None ->
  is_modifer st = false ->
  owned g = Some (fresh (dom h), st) ->
  cells_ok h gs ->
  cells_ok (<[fresh (dom h) := st]> h) (<[i := g]> gs).
Proof.
  intros Ho Hst Hg [Hlive Hdist].
  assert (Hfresh : h !! fresh (dom h) = None) by (apply not_elem_of_dom, is_fresh).
  assert (Hother : forall j a st', owned (gs j) = Some (a, st') -> a <> fresh (dom h)).
  { intros j a st' Hj ->. apply Hlive in Hj as [Hj _]. congruence. }
  split.
  - intros j a st'. destruct (decide (i = j)) as [<- | Hne].
    + rewrite fn_lookup_insert, Hg. intros [= <- <-].
      rewrite lookup_insert_eq. auto.
    + rewrite fn_lookup_insert_ne by exact Hne. intros Hj.
      rewrite lookup_insert_ne by (apply not_eq_sym; eapply Hother, Hj).
      eapply Hlive, Hj.
  - intros j1 j2 a st1 st2.
    destruct (decide (i = j1)) as [<- | Hne1], (decide (i = j2)) as [<- | Hne2];
      rewrite ?fn_lookup_insert, ?fn_lookup_insert_ne by assumption;
      rewrite ?Hg; try reflexivity.
    + intros [= <- <-] Hj. exfalso. eapply Hother; [exact Hj | reflexivity].
    + intros Hj [= <- <-]. exfalso. eapply Hother; [exact Hj | reflexivity].
    + apply Hdist.
Qed.

Lemma winner_update (n : nat) (gs : nat -> Phase) i g :
  (g = Won <-> gs i = Won) ->
  (exists iw, (iw < n)%nat /\ gs iw = Won /\ forall j, gs j = Won -> j = iw) ->
  exists iw, (iw < n)%nat /\ <[i := g]> gs iw = Won
             /\ forall j, <[i := g]> gs j = Won -> j = iw.
Proof.
  intros Hg (iw & Hn & Hw & Huniq). exists iw. split; [exact Hn |]. split.
  - destruct (decide (i = iw)) as [-> | Hne].
    + rewrite fn_lookup_insert. apply Hg, Hw.
    + rewrite fn_lookup_insert_ne by exact Hne. exact Hw.
  - intros j. destruct (decide (i = j)) as [<- | Hne].
    + rewrite fn_lookup_insert. intros Hj. apply Huniq, Hg, Hj.
    + rewrite fn_lookup_insert_ne by exact Hne. apply Huniq.
Qed.

Lemma not_held_update (q : nat) (gs : nat -> Phase) i g :
  (forall a st, owned g = Some (a, st) -> a <> q) ->
  (forall j a st, owned (gs j) = Some (a, st) -> a <> q) ->
  forall j a st, owned (<[i := g]> gs j) = Some (a, st) -> a <> q.
Proof.
  intros Hg Hgs j a st. destruct (decide (i = j)) as [<- | Hne].
  - rewrite fn_lookup_insert. apply Hg.
  - rewrite fn_lookup_insert_ne by exact Hne. apply Hgs.
Qed.

(** A step that leaves [broadcast_status] and the heap alone, by a thread
    that keeps its candidate. *)
Lemma inv_pub_update n q s gs (w w' : World Q) i g :
  inv_pub n q s gs w ->
  broadcast_status w' = broadcast_status w ->
  heap w' = heap w ->
  owned g = owned (gs i) ->
  (g = Won <-> gs i = Won) ->
  inv_pub n q s (<[i := g]> gs) w'.
Proof.
  intros (Hp & Hq & Hs & Hcells & Hnq & Hwin) Hbs Hheap Ho Hw.
  unfold inv_pub. rewrite Hbs, Hheap.
  split; [exact Hp |]. split; [exact Hq |]. split; [exact Hs |].
  split; [apply cells_ok_same_owned; assumption |].
  split; [| apply winner_update; assumption].
  apply not_held_update; [| exact Hnq]. rewrite Ho. apply Hnq.
Qed.

Lemma inv_init_update gs (w w' : World Q) i :
  inv_init gs w ->
  broadcast_status w' = broadcast_status w ->
  heap w' = heap w ->
  inv_init (<[i := gs i]> gs) w'.
Proof.
  intros (Hp & Hcells & Hph) Hbs Hheap.
  unfold inv_init. rewrite Hbs, Hheap.
  split; [exact Hp |]. split; [apply cells_ok_same_owned; auto |].
  intros j. destruct (decide (i = j)) as [<- | Hne].
  - rewrite fn_lookup_insert. apply Hph.
  - rewrite fn_lookup_insert_ne by exact Hne. apply Hph.
Qed.

(** One operation of thread [i] while the status [s] is installed at [q]:
    it returns what the discipline allows and keeps the invariant. *)
Lemma step_pub n q s gs (w w' : World Q) i {B : Type} (c : Cmd B) b :
  inv_pub n q s gs w ->
  cmd_ok q (gs i) c ->
  interp ch c w = Some (b, w') ->
  exists g, resp ch q s (gs i) c b g /\ inv_pub n q s (<[i := g]> gs) w'.
Proof.
  intros Hinv Hok Hi.
  pose proof Hinv as (Hp & Hq & Hs & Hcells & Hnq & Hwin).
  destruct c; cbn [interp cmd_ok resp] in *;
    try (injection Hi as <- <-; exists (gs i); split; [reflexivity |];
         apply (inv_pub_update _ _ _ _ w); auto; tauto).
  - (* LoadStatus *)
    injection Hi as <- <-. exists (learn (gs i)). split; [right; auto |].
    apply (inv_pub_update _ _ _ _ w); auto.
    + destruct (gs i); reflexivity.
    + destruct (gs i); simpl; split; congruence.
  - (* Deref *)
    unfold deref in Hi. destruct p as [| a]; cbn [read_status mbind option_bind] in Hi.
    + injection Hi as <- <-. exists (gs i). split; [auto |].
      apply (inv_pub_update _ _ _ _ w); auto; tauto.
    + destruct (heap w !! a) as [st |] eqn:Ha; simpl in Hi; [| discriminate].
      injection Hi as <- <-. exists (gs i). split.
      * split; [reflexivity |].
        destruct Hok as [[-> Hk] | [st' Ho]].
        -- left. rewrite Hq in Ha. injection Ha as <-. auto.
        -- right. rewrite Ho. destruct Hcells as [Hlive _].
           apply Hlive in Ho as [Ho _]. congruence.
      * apply (inv_pub_update _ _ _ _ w); auto; tauto.
  - (* NewStatus *)
    injection Hi as <- <-. destruct Hok as [[k Hg] Hst].
    exists (Cand (knows (gs i)) (fresh (dom (heap w))) s0). split; [eauto |].
    assert (Hfresh : heap w !! fresh (dom (heap w)) = None)
      by (apply not_elem_of_dom, is_fresh).
    assert (Hne : fresh (dom (heap w)) <> q) by congruence.
    unfold inv_pub. cbn [broadcast_status heap set_heap].
    split; [exact Hp |].
    split; [rewrite lookup_insert_ne by exact Hne; exact Hq |].
    split; [exact Hs |].
    split; [apply cells_ok_alloc; auto; rewrite Hg; reflexivity |].
    split.
    + apply not_held_update; [| exact Hnq]. intros a st [= <- <-]. exact Hne.
    + apply winner_update; [| exact Hwin]. rewrite Hg. split; discriminate.
  - (* DeleteStatus *)
    destruct Hok as (a & st & -> & Hg).
    assert (Ho : owned (gs i) = Some (a, st)) by (rewrite Hg; reflexivity).
    destruct Hcells as [Hlive Hdist].
    destruct (Hlive _ _ _ Ho) as [Ha _]. rewrite Ha in Hi. simpl in Hi.
    injection Hi as <- <-. exists Released. split; [reflexivity |].
    pose proof (Hnq _ _ _ Ho) as Hne.
    unfold inv_pub. cbn [broadcast_status heap set_heap].
    split; [exact Hp |].
    split; [rewrite lookup_delete_ne by exact Hne; exact Hq |].
    split; [exact Hs |].
    split; [eapply cells_ok_release; [exact Ho | split; assumption | reflexivity] |].
    split.
    + apply not_held_update; [| exact Hnq]. discriminate.
    + apply winner_update; [| exact Hwin]. rewrite Hg. split; discriminate.
  - (* CasStatus *)
    destruct Hok as (-> & k & a & st & -> & Hg).
    rewrite Hp in Hi. rewrite decide_False in Hi by discriminate.
    injection Hi as <- <-.
    assert (Ho : owned (gs i) = Some (a, st)) by (rewrite Hg; reflexivity).
    exists (Lost a st). split.
    + right. split; [reflexivity |]. exists k, a, st.
      split; [exact Hg |]. split; [eapply Hnq, Ho | reflexivity].
    + apply (inv_pub_update _ _ _ _ w); auto.
      rewrite Hg. split; discriminate.
Qed.

(** One operation of thread [i] while no status is installed: either none
    is installed afterwards, or the operation is the compare-and-swap of
    thread [i], which installs its candidate. *)
Lemma step_init n gs (w w' : World Q) i q0 {B : Type} (c : Cmd B) b :
  inv_init gs w ->
  (i < n)%nat ->
  cmd_ok q0 (gs i) c ->
  interp ch c w = Some (b, w') ->
  (exists g, (forall q s, resp ch q s (gs i) c b g) /\ inv_init (<[i := g]> gs) w')
  \/ (exists k a st,
         gs i = Cand k a st
         /\ resp ch a st (gs i) c b Won
         /\ inv_pub n a st (<[i := Won]> gs) w').
Proof.
  intros Hinv Hn Hok Hi.
  pose proof Hinv as (Hp & Hcells & Hph).
  assert (Hk : knows (gs i) = false).
  { destruct (Hph i) as [-> | (a & st & ->)]; reflexivity. }
  destruct c; cbn [interp cmd_ok resp] in *;
    try (left; injection Hi as <- <-; exists (gs i); split; [reflexivity |];
         apply (inv_init_update _ w); auto).
  - (* LoadStatus *)
    left. injection Hi as <- <-. exists (gs i). split; [auto |].
    apply (inv_init_update _ w); auto.
  - (* Deref *)
    left. unfold deref in Hi.
    destruct p as [| a]; cbn [read_status mbind option_bind] in Hi.
    + injection Hi as <- <-. exists (gs i). split; [auto |].
      apply (inv_init_update _ w); auto.
    + destruct (heap w !! a) as [st |] eqn:Ha; simpl in Hi; [| discriminate].
      injection Hi as <- <-. exists (gs i). split.
      * intros q s. split; [reflexivity |].
        destruct Hok as [[_ Hk'] | [st' Ho]]; [congruence |].
        right. rewrite Ho. destruct Hcells as [Hlive _].
        apply Hlive in Ho as [Ho _]. congruence.
      * apply (inv_init_update _ w); auto.
  - (* NewStatus *)
    left. injection Hi as <- <-. destruct Hok as [[k Hg] Hst].
    exists (Cand (knows (gs i)) (fresh (dom (heap w))) s). split; [eauto |].
    unfold inv_init. cbn [broadcast_status heap set_heap].
    split; [exact Hp |].
    split; [apply cells_ok_alloc; auto; rewrite Hg; reflexivity |].
    intros j. destruct (decide (i = j)) as [<- | Hne].
    + rewrite fn_lookup_insert, Hk. eauto.
    + rewrite fn_lookup_insert_ne by exact Hne. apply Hph.
  - (* DeleteStatus *)
    exfalso. destruct Hok as (a & st & _ & Hg).
    destruct (Hph i) as [Hi' | (a' & st' & Hi')]; congruence.
  - (* CasStatus *)
    right. destruct Hok as (-> & k & a & st & -> & Hg).
    rewrite Hp in Hi. rewrite decide_True in Hi by reflexivity.
    injection Hi as <- <-.
    assert (Ho : owned (gs i) = Some (a, st)) by (rewrite Hg; reflexivity).
    exists k, a, st. split; [exact Hg |].
    split; [left; rewrite Hg; eauto |].
    destruct Hcells as [Hlive Hdist]. destruct (Hlive _ _ _ Ho) as [Ha Hst].
    unfold inv_pub. cbn [broadcast_status heap set_broadcast_status].
    split; [reflexivity |]. split; [exact Ha |]. split; [exact Hst |].
    split; [| split].
    + split.
      * intros j a' st'. destruct (decide (i = j)) as [<- | Hne].
        -- rewrite fn_lookup_insert. discriminate.
        -- rewrite fn_lookup_insert_ne by exact Hne. apply Hlive.
      * intros j1 j2 a' st1 st2.
        destruct (decide (i = j1)) as [<- | Hne1], (decide (i = j2)) as [<- | Hne2];
          rewrite ?fn_lookup_insert, ?fn_lookup_insert_ne by assumption;
          try discriminate; apply Hdist.
    + intros j a' st'. destruct (decide (i = j)) as [<- | Hne].
      * rewrite fn_lookup_insert. discriminate.
      * rewrite fn_lookup_insert_ne by exact Hne. intros Hj ->.
        apply Hne. eapply Hdist; eassumption.
    + exists i. split; [exact Hn |]. split; [apply fn_lookup_insert |].
      intros j. destruct (decide (i = j)) as [<- | Hne]; [reflexivity |].
      rewrite fn_lookup_insert_ne by exact Hne.
      destruct (Hph j) as [-> | (a' & st' & ->)]; discriminate.
Qed.

(** An operation the discipline allows is defined on every state that
    satisfies the invariant. *)
Lemma interp_defined_init gs (w : World Q) i q0 {B : Type} (c : Cmd B) :
  inv_init gs w ->
  cmd_ok q0 (gs i) c ->
  exists b w', interp ch c w = Some (b, w').
Proof.
  intros (Hp & [Hlive _] & Hph) Hok.
  assert (Hk : knows (gs i) = false).
  { destruct (Hph i) as [-> | (a & st & ->)]; reflexivity. }
  destruct c; cbn [interp cmd_ok] in *; eauto.
  - unfold deref. destruct p as [| a]; simpl; [eauto |].
    destruct Hok as [[_ Hk'] | [st Ho]]; [congruence |].
    apply Hlive in Ho as [-> _]. simpl. eauto.
  - destruct Hok as (a & st & _ & Hg).
    destruct (Hph i) as [Hi' | (a' & st' & Hi')]; congruence.
  - destruct (decide (broadcast_status w = expected)); eauto.
Qed.

Lemma interp_defined_pub n q s gs (w : World Q) i {B : Type} (c : Cmd B) :
  inv_pub n q s gs w ->
  cmd_ok q (gs i) c ->
  exists b w', interp ch c w = Some (b, w').
Proof.
  intros (Hp & Hq & Hs & [Hlive _] & Hnq & Hwin) Hok.
  destruct c; cbn [interp cmd_ok] in *; eauto.
  - unfold deref. destruct p as [| a]; simpl; [eauto |].
    destruct Hok as [[-> _] | [st Ho]].
    + rewrite Hq. simpl. eauto.
    + apply Hlive in Ho as [-> _]. simpl. eauto.
  - destruct Hok as (a & st & -> & Hg).
    assert (Ho : owned (gs i) = Some (a, st)) by (rewrite Hg; reflexivity).
    apply Hlive in Ho as [-> _]. simpl. eauto.
  - destruct (decide (broadcast_status w = expected)); eauto.
Qed.
End Invariant.

Section Pool.
Context `{Externals} {Q : Type} `{TransportQueue Q}.
Variable ch : Channel.

(** The calls in progress, one per thread, and the shared state. *)
Definition Config : Type := list (Prog OpResult) * World Q.

(** Some thread performs its next atomic operation. *)
Inductive pool_step : Config -> Config -> Prop :=
| pool_step_at pool w i t t' w' :
    pool !! i = Some t ->
    step_thread ch t w = Some (t', w') ->
    pool_step (pool, w) (<[i := t']> pool, w').

(** The threads run the calls [ops], and each is where the discipline
    allows: with no status installed, for any status that may come to be
    installed; with [s] installed at [q], for that one. *)
Definition pool_init (ops : list Op) (cfg : Config) : Prop :=
  length cfg.1 = length ops
  /\ exists gs,
      inv_init gs cfg.2
      /\ forall i o t q s,
           ops !! i = Some o -> cfg.1 !! i = Some t ->
           ok ch q s (op_post ch s o) t (gs i).

Definition pool_pub (ops : list Op) (q : nat) (s : BroadcastStatus) (cfg : Config)
  : Prop :=
  length cfg.1 = length ops
  /\ exists gs,
      inv_pub (length ops) q s gs cfg.2
      /\ forall i o t,
           ops !! i = Some o -> cfg.1 !! i = Some t ->
           ok ch q s (op_post ch s o) t (gs i).

Definition pool_inv (ops : list Op) (cfg : Config) : Prop :=
  pool_init ops cfg \/ exists q s, pool_pub ops q s cfg.

Lemma pool_inv_start ops (w : World Q) :
  broadcast_status w = InitPtr ->
  pool_init ops (op_prog ch <$> ops, w).
Proof.
  intros Hp. split; [apply length_fmap |].
  exists (fun _ => Idle false). split.
  - split; [exact Hp |]. split; [| auto].
    split; intros; discriminate.
  - intros i o t q s Ho Ht. cbn [fst] in Ht.
    rewrite list_lookup_fmap, Ho in Ht. injection Ht as <-. apply op_ok.
Qed.

Lemma pool_pub_step ops q s cfg cfg' :
  pool_pub ops q s cfg -> pool_step cfg cfg' -> pool_pub ops q s cfg'.
Proof.
  intros (Hlen & gs & Hpub & Hok) Hstep.
  destruct Hstep as [pool w i t t' w' Hi Hst]. cbn [fst snd] in *.
  destruct (ops !! i) as [o |] eqn:Ho;
    [| apply lookup_ge_None in Ho; apply lookup_lt_Some in Hi; lia].
  destruct t as [r | B c k]; [discriminate |]. cbn [step_thread] in Hst.
  destruct (interp ch c w) as [[b w1] |] eqn:Hint; [| discriminate].
  injection Hst as <- <-.
  split; [cbn [fst]; rewrite length_insert; exact Hlen |]. cbn [fst snd].
  pose proof (Hok i o _ Ho Hi) as [Hc Hk].
  destruct (step_pub ch _ q s gs w w1 i c b Hpub Hc Hint) as (g & Hresp & Hpub').
  exists (<[i := g]> gs). split; [exact Hpub' |].
  intros j o' t Ho' Ht.
  destruct (decide (i = j)) as [<- | Hne].
  - rewrite list_lookup_insert_eq in Ht by (eapply lookup_lt_Some, Hi).
    injection Ht as <-. rewrite fn_lookup_insert.
    assert (o' = o) as -> by congruence.
    apply Hk, Hresp.
  - rewrite list_lookup_insert_ne in Ht by exact Hne.
    rewrite fn_lookup_insert_ne by exact Hne. eapply Hok; eassumption.
Qed.

Lemma pool_init_step ops cfg cfg' :
  pool_init ops cfg -> pool_step cfg cfg' -> pool_inv ops cfg'.
Proof.
  intros (Hlen & gs & Hinit & Hok) Hstep.
  destruct Hstep as [pool w i t t' w' Hi Hst]. cbn [fst snd] in *.
  assert (Hn : (i < length ops)%nat).
  { rewrite <- Hlen. eapply lookup_lt_Some, Hi. }
  destruct (ops !! i) as [o |] eqn:Ho;
    [| apply lookup_ge_None in Ho; lia].
  destruct t as [r | B c k]; [discriminate |]. cbn [step_thread] in Hst.
  destruct (interp ch c w) as [[b w1] |] eqn:Hint; [| discriminate].
  injection Hst as <- <-.
  assert (Hlen' : length (<[i := k b]> pool) = length ops)
    by (rewrite length_insert; exact Hlen).
  pose proof (Hok i o _ 0%nat (init_status ch) Ho Hi) as [Hc _].
  destruct (step_init ch _ gs w w1 i 0%nat c b Hinit Hn Hc Hint)
    as [(g & Hresp & Hinit') | (k0 & a & st & Hg & Hresp & Hpub')].
  - left. split; [exact Hlen' |]. exists (<[i := g]> gs). split; [exact Hinit' |].
    intros j o' t q s Ho' Ht. cbn [fst] in Ht.
    destruct (decide (i = j)) as [<- | Hne].
    + rewrite list_lookup_insert_eq in Ht by (eapply lookup_lt_Some, Hi).
      injection Ht as <-. rewrite fn_lookup_insert.
      assert (o' = o) as -> by congruence.
      apply (Hok i o _ q s Ho Hi), Hresp.
    + rewrite list_lookup_insert_ne in Ht by exact Hne.
      rewrite fn_lookup_insert_ne by exact Hne. eapply Hok; eassumption.
  - right. exists a, st. split; [exact Hlen' |].
    exists (<[i := Won]> gs). split; [exact Hpub' |].
    intros j o' t Ho' Ht. cbn [fst] in Ht.
    destruct (decide (i = j)) as [<- | Hne].
    + rewrite list_lookup_insert_eq in Ht by (eapply lookup_lt_Some, Hi).
      injection Ht as <-. rewrite fn_lookup_insert.
      assert (o' = o) as -> by congruence.
      apply (Hok i o _ a st Ho Hi), Hresp.
    + rewrite list_lookup_insert_ne in Ht by exact Hne.
      rewrite fn_lookup_insert_ne by exact Hne. eapply Hok; eassumption.
Qed.

Lemma pool_inv_step ops cfg cfg' :
  pool_inv ops cfg -> pool_step cfg cfg' -> pool_inv ops cfg'.
Proof.
  intros [Hinit | (q & s & Hpub)] Hstep.
  - eapply pool_init_step; eassumption.
  - right. exists q, s. eapply pool_pub_step; eassumption.
Qed.

Lemma pool_inv_steps ops cfg cfg' :
  pool_inv ops cfg -> rtc pool_step cfg cfg' -> pool_inv ops cfg'.
Proof.
  intros Hinv Hsteps. induction Hsteps as [| cfg1 cfg2 cfg3 Hstep _ IH]; [exact Hinv |].
  apply IH. eapply pool_inv_step; eassumption.
Qed.

Lemma pool_pub_steps ops q s cfg cfg' :
  pool_pub ops q s cfg -> rtc pool_step cfg cfg' -> pool_pub ops q s cfg'.
Proof.
  intros Hinv Hsteps. induction Hsteps as [| cfg1 cfg2 cfg3 Hstep _ IH]; [exact Hinv |].
  apply IH. eapply pool_pub_step; eassumption.
Qed.

(** Every path of the program has at most [n] operations. *)
Fixpoint height_le {A : Type} (t : Prog A) (n : nat) : Prop :=
  match t with
  | Ret _ => True
  | Vis c k =>
      match n with
      | O => False
      | S m => forall b, height_le (k b) m
      end
  end.

Lemma height_le_mono {A : Type} (t : Prog A) n m :
  height_le t n -> (n <= m)%nat -> height_le t m.
Proof.
  revert n m. induction t as [a | C c k IH]; intros n m Hn Hle; simpl in *; [exact I |].
  destruct n as [| n]; [contradiction |].
  destruct m as [| m]; [lia |].
  intros b. eapply IH; [apply Hn | lia].
Qed.

Lemma height_le_bind {A B : Type} (t : Prog A) (f : A -> Prog B) n m :
  height_le t n -> (forall a, height_le (f a) m) -> height_le (bind t f) (n + m).
Proof.
  revert n. induction t as [a | C c k IH]; intros n Hn Hf; simpl in *.
  - eapply height_le_mono; [apply Hf | lia].
  - destruct n as [| n]; [contradiction |]. simpl.
    intros b. apply IH; [apply Hn | exact Hf].
Qed.

Ltac height_go :=
  repeat (unfold when;
          cbn [height_le bind call finish finish_won finish_lost
               recv sendImpl sendImpl_failed merge op_prog fst snd];
          match goal with
          | x : option MultiPathDataPacket |- _ => destruct x
          | x : MultiPathDataPacket |- _ => destruct x
          | |- forall _, _ => intro
          | |- True => exact I
          | |- height_le (if ?x then _ else _) _ => destruct x
          | |- height_le (match ?x with _ => _ end) _ => destruct x
          | |- height_le ?t _ =>
              match t with
              | context [if ?x then _ else _] => destruct x
              end
          end).

Lemma finish_height c m : height_le (finish ch c m) 13.
Proof. height_go. Qed.

Lemma recv_finish_height start ts : height_le (recv_finish ch start ts) 15.
Proof.
  unfold recv_finish.
  apply (height_le_bind _ _ 13 2); [apply finish_height | intro; height_go].
Qed.

Lemma op_height o : height_le (op_prog ch o) 20.
Proof.
  destruct o as [ts | c | c m |].
  - height_go;
      (apply (height_le_mono _ 15); [| lia]);
      (apply (height_le_bind _ _ 15 0); [apply recv_finish_height | intro; exact I]).
  - height_go;
      (apply (height_le_mono _ 13); [| lia]);
      (apply (height_le_bind _ _ 13 0); [apply finish_height | intro; exact I]).
  - apply (height_le_mono _ 13); [| lia].
    apply (height_le_bind _ _ 13 0); [apply finish_height | intro; exact I].
  - height_go.
Qed.

(** In a reachable configuration the next operation of every thread is
    defined. *)
Lemma thread_defined ops pool (w : World Q) i {B : Type} (c : Cmd B) k :
  pool_inv ops (pool, w) ->
  pool !! i = Some (Vis c k) ->
  exists b w', interp ch c w = Some (b, w').
Proof.
  intros Hinv Hi.
  assert (Ho : exists o, ops !! i = Some o).
  { apply lookup_lt_is_Some.
    destruct Hinv as [[Hlen _] | (q & s & Hlen & _)]; cbn [fst] in Hlen;
      rewrite <- Hlen; eapply lookup_lt_Some, Hi. }
  destruct Ho as [o Ho].
  destruct Hinv as [(_ & gs & Hinit & Hok) | (q & s & _ & gs & Hpub & Hok)];
    cbn [fst snd] in *.
  - destruct (Hok i o _ 0%nat (init_status ch) Ho Hi) as [Hc _].
    eapply interp_defined_init; eassumption.
  - destruct (Hok i o _ Ho Hi) as [Hc _].
    eapply interp_defined_pub; eassumption.
Qed.

(** Any thread of a reachable configuration can be run until it returns. *)
Lemma run_thread ops n :
  forall pool (w : World Q) i t,
    pool_inv ops (pool, w) ->
    pool !! i = Some t ->
    height_le t n ->
    exists r w', rtc pool_step (pool, w) (<[i := Ret r]> pool, w').
Proof.
  induction n as [| n IH]; intros pool w i t Hinv Hi Hh.
  - destruct t as [r | B c k]; [| contradiction].
    exists r, w. rewrite list_insert_id by exact Hi. apply rtc_refl.
  - destruct t as [r | B c k].
    + exists r, w. rewrite list_insert_id by exact Hi. apply rtc_refl.
    + destruct (thread_defined ops pool w i c k Hinv Hi) as (b & w1 & Hint).
      assert (Hstep : pool_step (pool, w) (<[i := k b]> pool, w1)).
      { econstructor; [exact Hi |]. cbn [step_thread]. rewrite Hint. reflexivity. }
      destruct (IH (<[i := k b]> pool) w1 i (k b)) as (r & w' & Hrest).
      * eapply pool_inv_step; eassumption.
      * apply list_lookup_insert_eq. eapply lookup_lt_Some, Hi.
      * apply Hh.
      * exists r, w'. rewrite list_insert_insert_eq in Hrest.
        eapply rtc_l; eassumption.
Qed.

Lemma heights_step n cfg cfg' :
  Forall (fun t => height_le t n) cfg.1 ->
  pool_step cfg cfg' ->
  Forall (fun t => height_le t n) cfg'.1.
Proof.
  intros Hall Hstep. destruct Hstep as [pool w i t t' w' Hi Hst]. cbn [fst] in *.
  apply Forall_insert; [exact Hall |].
  destruct t as [r | B c k]; [discriminate |]. cbn [step_thread] in Hst.
  destruct (interp ch c w) as [[b w1] |]; [| discriminate].
  injection Hst as <- <-.
  pose proof (proj1 (Forall_lookup _ _) Hall i _ Hi) as Hh.
  destruct n as [| n]; [contradiction |].
  eapply height_le_mono; [apply Hh | lia].
Qed.

Lemma heights_steps n cfg cfg' :
  Forall (fun t => height_le t n) cfg.1 ->
  rtc pool_step cfg cfg' ->
  Forall (fun t => height_le t n) cfg'.1.
Proof.
  intros Hall Hsteps. induction Hsteps as [| c1 c2 c3 Hstep _ IH]; [exact Hall |].
  apply IH. eapply heights_step; eassumption.
Qed.

Lemma all_returned (pool : list (Prog OpResult)) :
  (forall j, (j < length pool)%nat -> exists r, pool !! j = Some (Ret r)) ->
  exists rs, pool = Ret <$> rs.
Proof.
  induction pool as [| t pool IH]; intros Hall.
  - exists []. reflexivity.
  - destruct (Hall 0%nat) as [r Hr]; [simpl; lia |]. injection Hr as ->.
    destruct IH as [rs ->].
    + intros j Hj. apply (Hall (S j)). simpl. lia.
    + exists (r :: rs). reflexivity.
Qed.

(** Every reachable configuration can be run until all calls have
    returned. *)
Lemma can_complete ops n cfg :
  pool_inv ops cfg ->
  Forall (fun t => height_le t n) cfg.1 ->
  exists rs w', rtc pool_step cfg (Ret <$> rs, w').
Proof.
  intros Hinv Hh. destruct cfg as [pool w]. cbn [fst] in Hh.
  assert (Hpre : forall k, (k <= length pool)%nat ->
            exists pool' w',
              rtc pool_step (pool, w) (pool', w')
              /\ length pool' = length pool
              /\ forall j, (j < k)%nat -> exists r, pool' !! j = Some (Ret r)).
  { induction k as [| k IHk]; intros Hk.
    - exists pool, w. split; [apply rtc_refl |]. split; [reflexivity |]. intros j Hj. lia.
    - destruct IHk as (pool1 & w1 & Hsteps & Hlen & Hdone); [lia |].
      destruct (lookup_lt_is_Some_2 pool1 k) as [t Ht]; [lia |].
      destruct (run_thread ops n pool1 w1 k t) as (r & w2 & Hrun).
      + eapply pool_inv_steps; eassumption.
      + exact Ht.
      + pose proof (heights_steps n (pool, w) _ Hh Hsteps) as Hh1. cbn [fst] in Hh1.
        apply (proj1 (Forall_lookup _ _) Hh1 k _ Ht).
      + exists (<[k := Ret r]> pool1), w2.
        split; [eapply rtc_trans; eassumption |].
        split; [rewrite length_insert; exact Hlen |].
        intros j Hj. destruct (decide (k = j)) as [<- | Hne].
        * exists r. apply list_lookup_insert_eq. lia.
        * rewrite list_lookup_insert_ne by exact Hne. apply Hdone. lia. }
  destruct (Hpre (length pool)) as (pool' & w' & Hsteps & Hlen & Hdone); [lia |].
  destruct (all_returned pool') as [rs ->].
  - intros j Hj. apply Hdone. lia.
  - exists rs, w'. exact Hsteps.
Qed.
End Pool.

Section Schedules.
Context {Q : Type} `{TransportQueue Q}.
Variable ch : Channel.

(** The threads named by [sched] perform one operation each, in that order;
    a thread that has returned, or that does not exist, is passed over. *)
Fixpoint run_schedule (sched : list nat) (cfg : list (Prog OpResult) * World Q)
  : list (Prog OpResult) * World Q :=
  match sched with
  | [] => cfg
  | i :: rest =>
      match cfg.1 !! i with
      | Some t =>
          match step_thread ch t cfg.2 with
          | Some (t', w') => run_schedule rest (<[i := t']> cfg.1, w')
          | None => run_schedule rest cfg
          end
      | None => run_schedule rest cfg
      end
  end.

Lemma run_schedule_steps sched cfg :
  rtc (pool_step ch) cfg (run_schedule sched cfg).
Proof.
  revert cfg. induction sched as [| i rest IH]; intros [pool w]; cbn [run_schedule fst snd].
  - apply rtc_refl.
  - destruct (pool !! i) as [t |] eqn:Hi; [| apply IH].
    destruct (step_thread ch t w) as [[t' w'] |] eqn:Hst; [| apply IH].
    eapply rtc_l; [| apply IH]. econstructor; eassumption.
Qed.
End Schedules.

(** How many of the results are a status with [is_modifer] set. *)
Definition returned_modifiers (rs : list OpResult) : nat :=
  length (List.filter is_modifer (omap result_status rs)).

Lemma returned_modifiers_cons r rs :
  returned_modifiers (r :: rs)
  = match result_status r with
    | Some st => ((if is_modifer st then 1 else 0) + returned_modifiers rs)%nat
    | None => returned_modifiers rs
    end.
Proof.
  unfold returned_modifiers. simpl.
  destruct (result_status r) as [st |]; [| reflexivity].
  simpl. destruct (is_modifer st); reflexivity.
Qed.

Lemma no_returned_modifier (rs : list OpResult) :
  (forall j r st, rs !! j = Some r -> result_status r = Some st -> is_modifer st = false) ->
  returned_modifiers rs = 0%nat.
Proof.
  induction rs as [| r rs IH]; intros Hall; [reflexivity |].
  rewrite returned_modifiers_cons.
  rewrite IH by (intros j; apply (Hall (S j))).
  destruct (result_status r) as [st |] eqn:Hr; [| reflexivity].
  rewrite (Hall 0%nat r st eq_refl Hr). reflexivity.
Qed.

Lemma unique_returned_modifier (rs : list OpResult) iw r st :
  rs !! iw = Some r ->
  result_status r = Some st ->
  is_modifer st = true ->
  (forall j r' st', j <> iw -> rs !! j = Some r' -> result_status r' = Some st' ->
                    is_modifer st' = false) ->
  returned_modifiers rs = 1%nat.
Proof.
  revert iw. induction rs as [| r0 rs IH]; intros iw Hiw Hr Hst Hother; [discriminate |].
  rewrite returned_modifiers_cons. destruct iw as [| iw]; simpl in Hiw.
  - injection Hiw as ->. rewrite Hr, Hst.
    rewrite no_returned_modifier; [reflexivity |].
    intros j r' st'. apply (Hother (S j)). discriminate.
  - rewrite (IH iw Hiw Hr Hst) by (intros j r' st' Hj; apply (Hother (S j)); lia).
    destruct (result_status r0) as [st0 |] eqn:Hr0; [| reflexivity].
    rewrite (Hother 0%nat r0 st0) by (auto; discriminate). reflexivity.
Qed.

Section Concurrent.
Context `{Externals} {Q : Type} `{TransportQueue Q}.
Variable ch : Channel.

(** C1.  Let threads run calls of [recv], [sendImpl], [finish] and
    [merge] on a channel on which no status is installed, their atomic
    operations interleaved in any way.  From every configuration they reach,
    all calls can be run until they return.  When all have returned, either
    no status is installed, none of the calls was a call of [finish] and
    none returned a status with [is_modifer] set; or a status is installed,
    exactly one call has returned a status with [is_modifer] set, every call
    of [finish] has returned the code and the message of the installed
    status, and so has every call that returned a status at all, unless it
    returned [init_status] or the unattributed status of an interrupted
    send. *)
Theorem concurrent_finish_one_modifier ops (w : World Q) cfg :
  is_modifer (init_status ch) = false ->
  broadcast_status w = InitPtr ->
  rtc (pool_step ch) (op_prog ch <$> ops, w) cfg ->
  (exists rs w', rtc (pool_step ch) cfg (Ret <$> rs, w'))
  /\ forall rs,
      cfg.1 = Ret <$> rs ->
      (broadcast_status cfg.2 = InitPtr
       /\ returned_modifiers rs = 0%nat
       /\ forall j c m, ops !! j <> Some (OpFinish c m))
      \/ exists s,
          broadcast_status cfg.2 <> InitPtr
          /\ deref ch cfg.2 (broadcast_status cfg.2) = Some s
          /\ returned_modifiers rs = 1%nat
          /\ (forall j c m,
                 ops !! j = Some (OpFinish c m) ->
                 exists st, rs !! j = Some (ResStatus st)
                            /\ code st = code s /\ message st = message s)
          /\ forall j r st,
               rs !! j = Some r ->
               result_status r = Some st ->
               (code st = code s /\ message st = message s)
               \/ st = init_status ch \/ st = send_interrupted.
Proof.
  intros Hinit Hp Hsteps.
  assert (Hinv : pool_inv ch ops cfg).
  { eapply pool_inv_steps; [| exact Hsteps]. left. apply pool_inv_start, Hp. }
  split.
  { apply (can_complete ch ops 20); [exact Hinv |].
    apply (heights_steps ch 20 _ _) in Hsteps; [exact Hsteps |].
    cbn [fst]. apply Forall_fmap, Forall_forall. intros o _. apply op_height. }
  destruct cfg as [pool w']. cbn [fst snd]. intros rs ->.
  assert (Hres : forall j o, ops !! j = Some o -> exists r, rs !! j = Some r).
  { intros j o Ho. apply lookup_lt_is_Some.
    destruct Hinv as [[Hlen _] | (q & s & Hlen & _)]; cbn [fst] in Hlen;
      rewrite length_fmap in Hlen; rewrite Hlen; eapply lookup_lt_Some, Ho. }
  destruct Hinv as [(Hlen & gs & Hi & Hok) | (q & s & Hlen & gs & Hpub & Hok)];
    cbn [fst snd] in *.
  - left. destruct Hi as (Hbs & _ & Hph).
    assert (Hpost : forall j o r, ops !! j = Some o -> rs !! j = Some r ->
                                  op_post ch (init_status ch) o (gs j) r).
    { intros j o r Ho Hr. apply (Hok j o (Ret r) 0%nat (init_status ch) Ho).
      rewrite list_lookup_fmap, Hr. reflexivity. }
    split; [exact Hbs |]. split.
    + apply no_returned_modifier. intros j r st Hr Hst.
      assert (Ho : exists o, ops !! j = Some o).
      { apply lookup_lt_is_Some. rewrite <- Hlen, length_fmap.
        eapply lookup_lt_Some, Hr. }
      destruct Ho as [o Ho].
      pose proof (Hpost _ _ _ Ho Hr) as [Hj _].
      destruct (Hph j) as [Hg | (a & st0 & Hg)]; rewrite Hg in Hj; [| contradiction].
      destruct (Hj _ Hst) as [-> | ->]; auto.
    + intros j c m Ho. destruct (Hres _ _ Ho) as [r Hr].
      pose proof (Hpost _ _ _ Ho Hr) as [_ Hfin].
      destruct (Hph j) as [Hg | (a & st & Hg)], Hfin as [[Hg' _] | [Hg' _]]; congruence.
  - right. destruct Hpub as (Hbs & Hq & Hs & _ & _ & iw & Hiw & Hwon & Huniq).
    assert (Hpost : forall j o r, ops !! j = Some o -> rs !! j = Some r ->
                                  op_post ch s o (gs j) r).
    { intros j o r Ho Hr. apply (Hok j o (Ret r) Ho).
      rewrite list_lookup_fmap, Hr. reflexivity. }
    exists s. split; [rewrite Hbs; discriminate |].
    split; [unfold deref; rewrite Hbs; exact Hq |].
    split.
    + destruct (lookup_lt_is_Some_2 ops iw Hiw) as [ow How].
      destruct (Hres _ _ How) as [rw Hrw].
      pose proof (Hpost _ _ _ How Hrw) as [Hw _]. rewrite Hwon in Hw.
      apply (unique_returned_modifier rs iw rw _ Hrw Hw eq_refl).
      intros j r' st' Hne Hr' Hst'.
      assert (Ho' : exists o', ops !! j = Some o').
      { apply lookup_lt_is_Some. rewrite <- Hlen, length_fmap.
        eapply lookup_lt_Some, Hr'. }
      destruct Ho' as [o' Ho'].
      pose proof (Hpost _ _ _ Ho' Hr') as [Hj _].
      destruct (gs j) as [[|] | k a st | | a st |] eqn:Hg;
        try contradiction.
      * destruct (Hj _ Hst') as [-> | [-> | ->]]; auto.
      * destruct (Hj _ Hst') as [-> | ->]; auto.
      * exfalso. apply Hne, Huniq, Hg.
      * destruct (Hj _ Hst') as [-> | [-> | ->]]; auto.
    + split.
      * intros j c m Ho. destruct (Hres _ _ Ho) as [r Hr].
        pose proof (Hpost _ _ _ Ho Hr) as [_ [[_ ->] | [_ ->]]];
          eexists; split; try exact Hr; split; reflexivity.
      * intros j r st Hr Hst.
        assert (Ho : exists o, ops !! j = Some o).
        { apply lookup_lt_is_Some. rewrite <- Hlen, length_fmap.
          eapply lookup_lt_Some, Hr. }
        destruct Ho as [o Ho].
        pose proof (Hpost _ _ _ Ho Hr) as [Hj _].
        destruct (gs j) as [[|] | k a st0 | | a st0 |]; try contradiction.
        -- destruct (Hj _ Hst) as [-> | [-> | ->]]; auto.
        -- destruct (Hj _ Hst) as [-> | ->]; auto.
        -- rewrite Hj in Hst. injection Hst as <-. auto.
        -- destruct (Hj _ Hst) as [-> | [-> | ->]]; auto.
Qed.

(** C7.  Threads run calls of [recv], [sendImpl], [finish] and [merge]
    on a channel just constructed, their atomic operations interleaved in
    any way.  Once [broadcast_status] holds another address than that of
    [init_status], it holds this address, and the status at it is the same,
    in every later configuration: no second status is ever installed.  In
    particular this is so once the published status has a code other than
    [RUNNING]. *)
Theorem concurrent_install_once ops (w : World Q) cfg1 cfg2 :
  code (init_status ch) = RUNNING ->
  broadcast_status w = InitPtr ->
  rtc (pool_step ch) (op_prog ch <$> ops, w) cfg1 ->
  rtc (pool_step ch) cfg1 cfg2 ->
  (broadcast_status cfg1.2 <> InitPtr ->
   broadcast_status cfg2.2 = broadcast_status cfg1.2
   /\ deref ch cfg2.2 (broadcast_status cfg2.2)
      = deref ch cfg1.2 (broadcast_status cfg1.2))
  /\ forall s,
      deref ch cfg1.2 (broadcast_status cfg1.2) = Some s ->
      code s <> RUNNING ->
      broadcast_status cfg2.2 = broadcast_status cfg1.2
      /\ deref ch cfg2.2 (broadcast_status cfg2.2) = Some s.
Proof.
  intros Hinit Hp Hsteps1 Hsteps2.
  assert (Hinv : pool_inv ch ops cfg1).
  { eapply pool_inv_steps; [| exact Hsteps1]. left. apply pool_inv_start, Hp. }
  assert (Hstable : broadcast_status cfg1.2 <> InitPtr ->
            broadcast_status cfg2.2 = broadcast_status cfg1.2
            /\ deref ch cfg2.2 (broadcast_status cfg2.2)
               = deref ch cfg1.2 (broadcast_status cfg1.2)).
  { intros Hne. destruct Hinv as [(_ & gs & (Hbs & _) & _) | (q & s & Hpub)];
      [contradiction |].
    pose proof (pool_pub_steps ch ops q s _ _ Hpub Hsteps2)
      as (_ & gs2 & (Hbs2 & Hq2 & _) & _).
    destruct Hpub as (_ & gs1 & (Hbs1 & Hq1 & _) & _).
    unfold deref. rewrite Hbs1, Hbs2. simpl. split; congruence. }
  split; [exact Hstable |].
  intros s Hs Hc.
  assert (Hne : broadcast_status cfg1.2 <> InitPtr).
  { intros Hbs. unfold deref in Hs. rewrite Hbs in Hs. simpl in Hs.
    injection Hs as <-. contradiction. }
  destruct (Hstable Hne) as [Hbs Hd]. split; [exact Hbs | congruence].
Qed.
End Concurrent.

(* ===================================================================== *)
(** ** An instance, for the examples *)
(* ===================================================================== *)

(** Values for the enumerators and helpers that the sources leave open; the
    time is printed as a number. *)
Definition example_externals : Externals :=
  {| RECV_TIMEOUT := 2;
     SEND_TIMEOUT := 3;
     SEND_UNKNOWN_ERROR := 100;
     NOT_IMPLEMENTED := 48;
     timeToString := pretty;
     to_string := pretty;
     init_message := "init" |}.

Definition example_channel : Channel :=
  @LocalBroadcastChannel example_externals
    (mkKey 7 0) (mkOptions (mkTimespec 10 0) true) "ch" (mkContext "query" true).

Definition example_chunk (n : nat) (size : N) : Chunk := mkChunk n size (size + 8)%N.

Definition example_deadline : timespec := mkTimespec 5 0.

(** A channel just constructed, on a queue that holds [xs]. *)
Definition example_world (xs : list MultiPathDataPacket) (cap : nat) (cl : bool)
  : World BoundedQueue :=
  mkWorld InitPtr ∅ (mkQueue xs cap cl)
          (mkSenderMetrics [] [] [] 0 (-1) "") (mkReceiverMetrics [] [] [])
          0 0%N [] [].

(** The state a call leaves. *)
Definition after {A : Type} (t : Prog A) (w : World BoundedQueue) : World BoundedQueue :=
  match run example_channel t w with
  | Some (_, w', _) => w'
  | None => w
  end.

(* ===================================================================== *)
(** ** The properties of the specification *)
(* ===================================================================== *)

Section Claims.
Context `{Externals} {Q : Type} `{TransportQueue Q}.
Variable ch : Channel.

(** C8.  [merge] on a local channel always fails with the error
    [NOT_IMPLEMENTED] and the text "merge is not implemented for
    LocalBroadcastChannel"; it performs no operation on the channel, so
    the published status, the queue and the metrics are what they were. *)
Theorem merge_not_implemented {Sender : Type} (sender : Sender) (w : World Q) :
  run ch (merge sender) w
  = Some (inl (mkException "merge is not implemented for LocalBroadcastChannel"
                           NOT_IMPLEMENTED), w, [])
  /\ forall tr r, path (merge sender) tr r ->
                  tr = [] /\ exists e, r = inl e /\ error_code e = NOT_IMPLEMENTED.
Proof.
  split; [reflexivity |].
  intros tr r [-> ->]. split; [reflexivity |]. eexists. split; reflexivity.
Qed.

(** C4.  On every path of [sendImpl]: the chunk is inserted and then
    exactly one [transferThreadMemoryToGlobal] of its allocated size
    follows, or neither happens.  On every path of [recv]: a chunk is
    removed, exactly one [transferGlobalMemoryToThread] of its allocated
    size follows and the chunk is returned, or neither happens.  No path
    transfers without a chunk or twice. *)
Theorem memory_credit_paired chunk ts tr1 r1 tr2 r2 :
  path (sendImpl ch chunk) tr1 r1 ->
  path (recv ch ts) tr2 r2 ->
  (credit_events tr1 = []
   \/ credit_events tr1 = [Inserted chunk; ToGlobal (allocatedBytes chunk)])
  /\ (credit_events tr2 = []
      \/ exists c, credit_events tr2 = [Popped c; ToThread (allocatedBytes c)]
                   /\ r2 = RecvChunk c).
Proof.
  intros Hs Hr. split.
  - unfold sendImpl in Hs. path_cases Hs; auto.
  - unfold recv in Hr. path_cases Hr; auto; right; eexists; split; reflexivity.
Qed.

(** C5.  On every path of [sendImpl] on which the insertion of the chunk
    failed and the queue reported closed: no compare-and-swap is issued;
    the call ends by re-reading the published status, and returns it if
    its code is not [RUNNING], and otherwise the status
    [SEND_UNKNOWN_ERROR] "Send operation was interrupted".  Run on any
    state, such a call leaves [broadcast_status] as it found it. *)
Theorem send_interrupted_keeps_status chunk tr r :
  path (sendImpl ch chunk) tr r ->
  count_events is_failed_insertion tr = 1%nat ->
  count_events is_closed_report tr = 1%nat ->
  count_events is_cas tr = 0%nat
  /\ (exists pre p s,
         tr = pre ++ [Ev LoadStatus p; Ev (Deref p) s]
         /\ r = if code s =? RUNNING
                then mkBroadcastStatus SEND_UNKNOWN_ERROR false
                                       "Send operation was interrupted"
                else s)
  /\ (forall w w' : World Q,
         run ch (sendImpl ch chunk) w = Some (r, w', tr) ->
         broadcast_status w' = broadcast_status w).
Proof.
  intros Hp Hfail Hclosed.
  assert (Hcas : count_events is_cas tr = 0%nat
                 /\ exists pre p s,
                     tr = pre ++ [Ev LoadStatus p; Ev (Deref p) s]
                     /\ r = if code s =? RUNNING then send_interrupted else s).
  { unfold sendImpl in Hp. path_cases Hp; try discriminate;
      (split; [reflexivity |]).
    - match goal with
      | |- exists pre p s, ?a :: ?b :: ?c :: ?d :: ?e :: _ = _ /\ _ =>
          exists [a; b; c; d; e]
      end.
      do 2 eexists. split; [reflexivity |].
      match goal with E : negb _ = true |- _ =>
        apply negb_true_iff in E; rewrite E end. reflexivity.
    - match goal with
      | |- exists pre p s, ?a :: ?b :: ?c :: ?d :: ?e :: _ = _ /\ _ =>
          exists [a; b; c; d; e]
      end.
      do 2 eexists. split; [reflexivity |].
      match goal with E : negb _ = false |- _ =>
        apply negb_false_iff in E; rewrite E end. reflexivity. }
  destruct Hcas as [Hcas Hend]. split; [exact Hcas |]. split; [exact Hend |].
  intros w w' Hrun. eapply run_without_cas; eassumption.
Qed.

(** C9.  When the removal yields an item that is neither a chunk nor a
    mark, [recv] calls [finish] with [RECV_TIMEOUT] and the timeout
    message and returns what [finish] returns, without any transfer of
    memory credit; from a queue that yields nothing and is left in the same
    state, the call does the same and leaves the same state. *)
Theorem recv_other_item_as_timeout ts (w : World Q) s tag q' :
  deref ch w (broadcast_status w) = Some s ->
  code s <= 0 ->
  tryPopUntil (receive_queue w) ts = (Some (PktOther tag), q') ->
  exists st w1 ftr,
    run ch (finish ch RECV_TIMEOUT (recv_timeout_message ch ts))
        (set_receive_queue q' w) = Some (st, w1, ftr)
    /\ run ch (recv ch ts) w
       = Some (RecvStatus st, recv_record ch (clock w) w1,
               entry_trace w s ++ [Ev (TryPopUntil ts) (Some (PktOther tag))]
                 ++ ftr ++ recv_record_trace ch (clock w) w1)
    /\ credit_events (entry_trace w s ++ [Ev (TryPopUntil ts) (Some (PktOther tag))]
                        ++ ftr ++ recv_record_trace ch (clock w) w1) = []
    /\ global_memory (recv_record ch (clock w) w1) = global_memory w
    /\ forall q0,
         tryPopUntil q0 ts = (None, q') ->
         run ch (recv ch ts) (set_receive_queue q0 w)
         = Some (RecvStatus st, recv_record ch (clock w) w1,
                 entry_trace w s ++ [Ev (TryPopUntil ts) None]
                   ++ ftr ++ recv_record_trace ch (clock w) w1).
Proof.
  intros Hs Hc Hq.
  assert (Hlive : published_live ch (set_receive_queue q' w)).
  { exists s. exact Hs. }
  destruct (finish_run ch RECV_TIMEOUT (recv_timeout_message ch ts) _ Hlive)
    as (st & w1 & ftr & Hfin).
  exists st, w1, ftr. split; [exact Hfin |].
  split.
  { rewrite (recv_fall_through_run ch ts w s _ q' Hs Hc Hq I), Hfin. reflexivity. }
  split.
  { unfold credit_events. rewrite !omap_app.
    change (omap credit_event ftr) with (credit_events ftr).
    rewrite (finish_path_credit ch _ _ _ _ (run_path ch _ _ _ _ _ Hfin)).
    unfold recv_record_trace. destruct (enable_receiver_metrics ch); reflexivity. }
  split.
  { assert (Hg : global_memory w1 = global_memory w).
    { destruct (broadcast_status w) as [| a] eqn:Hp.
      - rewrite finish_won_run in Hfin by exact Hp.
        injection Hfin as _ <- _. reflexivity.
      - unfold deref in Hs. simpl in Hs.
        erewrite finish_lost_run in Hfin by (simpl; eassumption).
        injection Hfin as _ <- _. reflexivity. }
    unfold recv_record. destruct (enable_receiver_metrics ch); exact Hg. }
  intros q0 Hq0.
  rewrite (recv_fall_through_run ch ts (set_receive_queue q0 w) s None q' Hs Hc Hq0 I).
  change (set_receive_queue q' (set_receive_queue q0 w)) with (set_receive_queue q' w).
  rewrite Hfin. reflexivity.
Qed.

(** C10.  A [finish] that finds a status [s] installed sets the recorded
    finish code to the code of [s] and the recorded modifier flag to 0 and
    leaves the recorded message as it was; a [finish] that installs its
    status records its code, the flag 1 and its message, so a second
    [finish] turns the flag back to 0.  The record the destructor adds to
    the query exchange log carries the three values as the last [finish]
    left them. *)
Theorem finish_overwrites_sender_metrics (w0 w : World Q) c0 m0 q s c m :
  broadcast_status w0 = InitPtr ->
  published q s w ->
  (exists w1 tr1 w2 tr2,
      run ch (finish ch c0 m0) w0 = Some (mkBroadcastStatus c0 true m0, w1, tr1)
      /\ finish_code (sender_metrics w1) = c0
      /\ is_modifier (sender_metrics w1) = 1
      /\ sm_message (sender_metrics w1) = m0
      /\ run ch (finish ch c m) w1 = Some (mkBroadcastStatus c0 false m0, w2, tr2)
      /\ finish_code (sender_metrics w2) = c0
      /\ is_modifier (sender_metrics w2) = 0
      /\ sm_message (sender_metrics w2) = m0)
  /\ (exists w1 tr1,
         run ch (finish ch c m) w = Some (s, w1, tr1)
         /\ finish_code (sender_metrics w1) = code s
         /\ is_modifier (sender_metrics w1) = 0
         /\ sm_message (sender_metrics w1) = sm_message (sender_metrics w)
         /\ (enable_sender_metrics ch || enable_receiver_metrics ch = true ->
             hasQueryExchangeLog (context ch) = true ->
             exists w2 tr2 el,
               run ch (destroy ch) w1 = Some (tt, w2, tr2)
               /\ query_exchange_log w2 = query_exchange_log w1 ++ [el]
               /\ el_finish_code el = code s
               /\ el_is_modifier el = 0
               /\ el_message el = sm_message (sender_metrics w))).
Proof.
  intros Hp0 [Hp Hq]. split.
  - pose proof (finish_won_published ch c0 m0 w0) as [Hp1 Hq1].
    do 4 eexists.
    split; [apply finish_won_run; exact Hp0 |].
    do 3 (split; [reflexivity |]).
    split; [eapply finish_lost_run; eassumption |].
    repeat split; reflexivity.
  - do 2 eexists.
    split; [eapply finish_lost_run; eassumption |].
    do 3 (split; [reflexivity |]).
    intros Hen Hlog. unfold destroy.
    destruct w as [p0 hp rq sm rm gm ck lg ql]; simpl in Hp, Hq; subst p0.
    unfold finish_lost_world, when. exec_simpl.
    rewrite bool_decide_eq_false_2 by discriminate. exec_simpl.
    rewrite Hq. exec_simpl. rewrite Hen. exec_simpl. rewrite Hlog. exec_simpl.
    do 3 eexists. split; [reflexivity |].
    repeat split; reflexivity.
Qed.
End Claims.

(* ===================================================================== *)
(** ** After [finish]: the bounded queue *)
(* ===================================================================== *)

(** What the calls of [recv] among a sequence of calls returned. *)
Definition received (rs : list (OpResult * list Event)) : list RecvDataPacket :=
  omap (fun r => match fst r with ResRecv p => Some p | _ => None end) rs.

(** The first [n] of: the chunks [cs], then the status [s] over and over. *)
Definition drained (cs : list Chunk) (s : BroadcastStatus) (n : nat)
  : list RecvDataPacket :=
  take n ((RecvChunk <$> cs) ++ replicate n (RecvStatus s)).

Lemma take_app_replicate_S {A : Type} (l : list A) (x : A) (n : nat) :
  take n (l ++ replicate (S n) x) = take n (l ++ replicate n x).
Proof. rewrite !take_app, !take_replicate. do 2 f_equal. lia. Qed.

Lemma drained_chunk c cs s n :
  drained (c :: cs) s (S n) = RecvChunk c :: drained cs s n.
Proof.
  unfold drained.
  change (RecvChunk c :: take n ((RecvChunk <$> cs) ++ replicate (S n) (RecvStatus s))
          = RecvChunk c :: take n ((RecvChunk <$> cs) ++ replicate n (RecvStatus s))).
  f_equal. apply take_app_replicate_S.
Qed.

Lemma drained_status s n :
  drained [] s (S n) = RecvStatus s :: drained [] s n.
Proof.
  unfold drained.
  change (RecvStatus s :: take n ([] ++ replicate n (RecvStatus s))
          = RecvStatus s :: take n ([] ++ replicate n (RecvStatus s))).
  reflexivity.
Qed.

Section BoundedQueueFacts.
Context `{Externals}.
Variable ch : Channel.

Lemma received_cons r tr rs :
  received ((r, tr) :: rs)
  = match r with
    | ResRecv p => p :: received rs
    | _ => received rs
    end.
Proof. unfold received. simpl. destruct r; reflexivity. Qed.

(** After a hard close nothing touches the queue, and [recv] returns the
    installed status from its first three operations. *)
Lemma run_ops_hard_closed ops q s (w : World BoundedQueue) :
  published q s w ->
  0 < code s ->
  exists rs w',
    run_ops ch ops w = Some (rs, w')
    /\ receive_queue w' = receive_queue w
    /\ forall j ts r tr,
         ops !! j = Some (OpRecv ts) ->
         rs !! j = Some (r, tr) ->
         r = ResRecv (RecvStatus s) /\ count_events is_queue_op tr = 0%nat.
Proof.
  intros Hpub Hc. revert w Hpub. induction ops as [| o ops IH]; intros w Hpub.
  - exists [], w. repeat split; auto; discriminate.
  - destruct (op_published ch o q s w Hpub)
      as (r & w1 & tr & Hrun & Hpub1 & Hspec).
    destruct (IH w1 Hpub1) as (rs & w2 & Hrun2 & Hq2 & Hrecv).
    exists ((r, tr) :: rs), w2. cbn [run_ops]. rewrite Hrun, Hrun2.
    split; [reflexivity |].
    assert (Hq1 : receive_queue w1 = receive_queue w).
    { destruct o as [ts | c | c m |].
      - apply Z.ltb_lt in Hc. rewrite Hc in Hspec.
        destruct Hspec as (_ & -> & _). reflexivity.
      - destruct Hspec as [_ ->]; [unfold RUNNING; lia | reflexivity].
      - destruct Hspec as [_ ->]. reflexivity.
      - rewrite Hspec. reflexivity. }
    split; [congruence |].
    intros [| j] ts r0 tr0 Hj Hrj; simpl in Hj, Hrj.
    + injection Hj as ->. injection Hrj as <- <-.
      apply Z.ltb_lt in Hc. rewrite Hc in Hspec.
      destruct Hspec as (-> & _ & ->). split; reflexivity.
    + eapply Hrecv; eassumption.
Qed.

(** After a graceful close the calls of [recv] drain the chunks that are
    queued, in order, and return the installed status from then on; the
    other calls leave the queue alone. *)
Lemma run_ops_draining ops q s (w : World BoundedQueue) cs tail :
  published q s w ->
  code s < 0 ->
  items (receive_queue w) = (PktChunk <$> cs) ++ tail ->
  tail = [] \/ (exists m, tail = [PktSendDoneMark m]) ->
  exists rs w',
    run_ops ch ops w = Some (rs, w')
    /\ received rs = drained cs s (length (received rs)).
Proof.
  intros Hpub Hc. revert w cs tail Hpub.
  induction ops as [| o ops IH]; intros w cs tail Hpub Hitems Htail.
  - exists [], w. split; reflexivity.
  - destruct (op_published ch o q s w Hpub)
      as (r & w1 & tr & Hrun & Hpub1 & Hspec).
    assert (Hnext : exists cs' tail',
               items (receive_queue w1) = (PktChunk <$> cs') ++ tail'
               /\ (tail' = [] \/ (exists m, tail' = [PktSendDoneMark m]))
               /\ forall rest,
                    rest = drained cs' s (length rest) ->
                    match r with
                    | ResRecv p => p :: rest
                    | _ => rest
                    end
                    = drained cs s (length match r with
                                           | ResRecv p => p :: rest
                                           | _ => rest
                                           end)).
    { destruct o as [ts | c | c m |].
      - assert (Hc' : (0 <? code s) = false) by (apply Z.ltb_ge; lia).
        rewrite Hc' in Hspec. destruct Hspec as [-> Hq1].
        cbn [tryPopUntil BoundedQueue_queue] in Hq1 |- *.
        unfold bq_tryPopUntil in Hq1 |- *. rewrite Hitems in Hq1 |- *.
        destruct cs as [| c cs].
        + destruct Htail as [-> | [m ->]]; cbn [fmap list_fmap app fst snd] in Hq1 |- *.
          * exists [], []. rewrite Hq1, Hitems.
            split; [reflexivity |]. split; [auto |].
            intros rest Hrest. cbn [recv_result length].
            rewrite drained_status. congruence.
          * exists [], []. rewrite Hq1.
            split; [reflexivity |]. split; [auto |].
            intros rest Hrest. cbn [recv_result length].
            rewrite drained_status. congruence.
        + cbn [fmap list_fmap app fst snd] in Hq1 |- *.
          exists cs, tail. rewrite Hq1.
          split; [reflexivity |]. split; [exact Htail |].
          intros rest Hrest. cbn [recv_result length].
          rewrite drained_chunk. congruence.
      - destruct Hspec as [-> ->]; [unfold RUNNING; lia |].
        exists cs, tail. auto.
      - destruct Hspec as [-> ->]. exists cs, tail. auto.
      - rewrite Hspec. exists cs, tail.
        split; [exact Hitems |]. split; [exact Htail |].
        intros rest Hrest.
        assert (Hr : exists e, r = ResThrow e).
        { simpl in Hrun. injection Hrun as <- _ _. eauto. }
        destruct Hr as [e ->]. exact Hrest. }
    destruct Hnext as (cs' & tail' & Hitems' & Htail' & Hstep).
    destruct (IH w1 cs' tail' Hpub1 Hitems' Htail') as (rs & w2 & Hrun2 & Hrs).
    exists ((r, tr) :: rs), w2. cbn [run_ops]. rewrite Hrun, Hrun2.
    split; [reflexivity |].
    rewrite received_cons. apply Hstep. exact Hrs.
Qed.
End BoundedQueueFacts.

Section QueueClaims.
Context `{Externals}.
Variable ch : Channel.

(** C2.  A [finish] with a positive code on a channel with no status
    installed installs it and closes the queue: the queue is empty and
    closed, so every insert fails from then on; whatever calls follow,
    every [recv] among them returns the installed status after reading
    the clock and the published status only, without any operation on the
    queue, and the queue stays empty and closed.  Whatever other threads
    do, a [recv] that reads a status with a positive code returns it
    without any operation on the queue. *)
Theorem hard_close_discards_queue (w : World BoundedQueue) c m ops :
  broadcast_status w = InitPtr ->
  0 < c ->
  exists w1 tr1 rs w2,
    run ch (finish ch c m) w = Some (mkBroadcastStatus c true m, w1, tr1)
    /\ deref ch w1 (broadcast_status w1) = Some (mkBroadcastStatus c false m)
    /\ items (receive_queue w1) = []
    /\ is_closed (receive_queue w1) = true
    /\ (forall ts x, tryEmplaceUntil (receive_queue w1) ts x = (false, receive_queue w1))
    /\ run_ops ch ops w1 = Some (rs, w2)
    /\ receive_queue w2 = receive_queue w1
    /\ (forall j ts r tr,
           ops !! j = Some (OpRecv ts) ->
           rs !! j = Some (r, tr) ->
           r = ResRecv (RecvStatus (mkBroadcastStatus c false m))
           /\ count_events is_queue_op tr = 0%nat)
    /\ forall ts tr r st,
         path (recv ch ts) tr r ->
         head (loaded_statuses tr) = Some st ->
         0 < code st ->
         r = RecvStatus st /\ count_events is_queue_op tr = 0%nat.
Proof.
  intros Hp Hc.
  pose proof (finish_won_published ch c m w) as Hpub.
  destruct (run_ops_hard_closed ch ops _ _ _ Hpub Hc) as (rs & w2 & Hrun & Hq & Hrecv).
  exists (finish_won_world ch c m w), (finish_won_trace ch c m w), rs, w2.
  split; [apply finish_won_run; exact Hp |].
  split; [eapply published_deref, Hpub |].
  assert (Hqueue : receive_queue (finish_won_world ch c m w)
                   = bq_close (receive_queue w)).
  { cbn [finish_won_world receive_queue]. unfold finish_queue.
    apply Z.ltb_lt in Hc. rewrite Hc. reflexivity. }
  rewrite Hqueue.
  split; [reflexivity |]. split; [reflexivity |]. split; [reflexivity |].
  split; [exact Hrun |].
  split; [rewrite <- Hqueue; exact Hq |]. split; [exact Hrecv |].
  intros ts tr r st Hpath Hst Hpos.
  unfold recv in Hpath. path_cases Hpath;
    cbn in Hst; injection Hst as ->;
    try (apply Z.ltb_lt in Hpos; congruence);
    split; reflexivity.
Qed.

(** X19.  Calls one after the other, no other thread in between, on the
    bounded queue: a [finish] with a negative code on a channel with no
    status installed, whose open queue holds the chunks [cs] and nothing
    else, installs its status and tries once, until [max_timeout_ts], to
    insert the mark; the mark is queued behind the chunks if the queue is
    below its capacity, and not at all if it is full.  Either way, whatever
    calls follow, the calls of [recv] among them return the chunks [cs] in
    their order and then, each time, the installed status. *)
Theorem finish_then_recvs_drain (w : World BoundedQueue) c m cs cap ops :
  broadcast_status w = InitPtr ->
  c < 0 ->
  receive_queue w = mkQueue (PktChunk <$> cs) cap false ->
  exists w1 tr1 rs w2,
    run ch (finish ch c m) w = Some (mkBroadcastStatus c true m, w1, tr1)
    /\ Ev (TryEmplaceUntil (max_timeout_ts (options ch)) (PktSendDoneMark (name ch)))
          (length cs <? cap)%nat ∈ tr1
    /\ items (receive_queue w1)
       = (PktChunk <$> cs)
           ++ (if (length cs <? cap)%nat then [PktSendDoneMark (name ch)] else [])
    /\ run_ops ch ops w1 = Some (rs, w2)
    /\ received rs
       = take (length (received rs))
              ((RecvChunk <$> cs)
                 ++ replicate (length (received rs))
                              (RecvStatus (mkBroadcastStatus c false m))).
Proof.
  intros Hp Hc Hq.
  pose proof (finish_won_published ch c m w) as Hpub.
  assert (Hneg : (0 <? c) = false) by (apply Z.ltb_ge; lia).
  assert (Hitems : items (receive_queue (finish_won_world ch c m w))
                   = (PktChunk <$> cs)
                       ++ (if (length cs <? cap)%nat
                           then [PktSendDoneMark (name ch)] else [])).
  { cbn [finish_won_world receive_queue]. unfold finish_queue.
    rewrite Hneg, Hq. cbn [tryEmplaceUntil BoundedQueue_queue].
    unfold bq_tryEmplaceUntil. cbn [is_closed items capacity].
    rewrite length_fmap.
    destruct (length cs <? cap)%nat; cbn [snd items]; [reflexivity |].
    rewrite app_nil_r. reflexivity. }
  destruct (run_ops_draining ch ops _ _ _ cs _ Hpub Hc Hitems) as (rs & w2 & Hrun & Hrs).
  { destruct (length cs <? cap)%nat; eauto. }
  exists (finish_won_world ch c m w), (finish_won_trace ch c m w), rs, w2.
  split; [apply finish_won_run; exact Hp |].
  split.
  { unfold finish_won_trace, finish_queue_event. rewrite Hneg, Hq.
    cbn [tryEmplaceUntil BoundedQueue_queue].
    unfold bq_tryEmplaceUntil. cbn [is_closed items capacity].
    rewrite length_fmap.
    do 6 apply list_elem_of_further.
    destruct (length cs <? cap)%nat; apply list_elem_of_here. }
  split; [exact Hitems |]. split; [exact Hrun | exact Hrs].
Qed.
End QueueClaims.

(** C3, as the specification has it: a winning [finish] with a negative code
    always leaves an end-of-stream mark in the queue. *)
Definition mark_always_enqueued : Prop :=
  forall (E : Externals) (ch : Channel) (w : World BoundedQueue) c m st w1 tr,
    broadcast_status w = InitPtr ->
    c < 0 ->
    is_closed (receive_queue w) = false ->
    run ch (finish ch c m) w = Some (st, w1, tr) ->
    exists mark, PktSendDoneMark mark ∈ items (receive_queue w1).

(** C3 as stated fails: on a full queue the insertion of the mark ends at
    the deadline and the queue holds what it held. *)
Lemma full_queue_gets_no_mark : ~ mark_always_enqueued.
Proof.
  intros Hall.
  destruct (Hall example_externals example_channel
                 (example_world [PktChunk (example_chunk 1 10)] 1 false)
                 (-1) "done" _ _ _ eq_refl eq_refl eq_refl eq_refl)
    as [mark Hin].
  vm_compute in Hin.
  apply elem_of_cons in Hin as [Hin | Hin]; [discriminate |].
  apply elem_of_nil in Hin. exact Hin.
Qed.

(* ===================================================================== *)
(** * Further properties of the member functions *)
(* ===================================================================== *)

(* ===================================================================== *)
(** ** What a call does to the queue and to the status objects *)
(* ===================================================================== *)

(** An operation on the transport queue, with what it returned. *)
Inductive QueueOp :=
| QPop (ts : timespec) (r : option MultiPathDataPacket)
| QEmplace (ts : timespec) (x : MultiPathDataPacket) (inserted : bool)
| QClose
| QClosed (r : bool).

Definition queue_op (e : Event) : option QueueOp :=
  match e with
  | Ev c b =>
      match c in Cmd B return B -> option QueueOp with
      | TryPopUntil ts => fun r => Some (QPop ts r)
      | TryEmplaceUntil ts x => fun r => Some (QEmplace ts x r)
      | CloseQueue => fun _ => Some QClose
      | QueueClosed => fun r => Some (QClosed r)
      | _ => fun _ => None
      end b
  end.

Definition queue_ops (tr : list Event) : list QueueOp := omap queue_op tr.

(** An allocation, a deletion or a compare-and-swap, with what it
    returned. *)
Inductive StatusOp :=
| SNew (s : BroadcastStatus) (p : StatusPtr)
| SDelete (p : StatusPtr)
| SCas (expected desired : StatusPtr) (swapped : bool) (found : StatusPtr).

Definition status_op (e : Event) : option StatusOp :=
  match e with
  | Ev c b =>
      match c in Cmd B return B -> option StatusOp with
      | NewStatus s => fun p => Some (SNew s p)
      | DeleteStatus p => fun _ => Some (SDelete p)
      | CasStatus e d => fun r => Some (SCas e d (fst r) (snd r))
      | _ => fun _ => None
      end b
  end.

Definition status_ops (tr : list Event) : list StatusOp := omap status_op tr.

(** The deadlines of the operations on which a call can wait. *)
Definition timed_wait (e : Event) : option timespec :=
  match e with
  | Ev c _ =>
      match c with
      | TryPopUntil ts | TryEmplaceUntil ts _ => Some ts
      | _ => None
      end
  end.

Definition timed_waits (tr : list Event) : list timespec := omap timed_wait tr.

(** [path_cases] for a call wrapped by [op_prog]. *)
Ltac op_path_cases H :=
  unfold op_prog, recv, sendImpl, merge in H;
  repeat (progress (path_cases H;
                    try match goal with
                        | x : option MultiPathDataPacket |- _ => destruct x
                        | x : MultiPathDataPacket |- _ => destruct x
                        end)).

Section MorePaths.
Context `{Externals}.
Variable ch : Channel.

(** X1.  On every path of [finish], whatever the other threads do: the
    call allocates one status, with the code and the message it was given
    and [is_modifer] unset, and issues one compare-and-swap, from the
    address of [init_status] to the new object.  If the compare-and-swap
    fails, the call deletes the object it allocated, and nothing else, and
    performs no operation on the queue.  If it succeeds, the call deletes
    nothing and performs exactly one operation on the queue: it closes it,
    or it tries to insert the mark that carries the name of the channel,
    until [max_timeout_ts]. *)
Theorem finish_frees_what_it_does_not_install c m tr st :
  path (finish ch c m) tr st ->
  exists p swapped found,
    status_ops tr
    = SNew (mkBroadcastStatus c false m) p :: SCas InitPtr p swapped found
        :: (if swapped then [] else [SDelete p])
    /\ if swapped
       then queue_ops tr = [QClose]
            \/ exists inserted,
                queue_ops tr = [QEmplace (max_timeout_ts (options ch))
                                         (PktSendDoneMark (name ch)) inserted]
       else queue_ops tr = [].
Proof.
  intros Hp. path_cases Hp;
    repeat match goal with b : (_ * _)%type |- _ => destruct b end;
    cbn [fst snd] in *; subst;
    cbn;
    match goal with
    | |- exists p swapped found, SNew _ ?b :: SCas _ _ ?w ?s :: _ = _ /\ _ =>
        exists b, w, s
    end;
    (split; [reflexivity |]); eauto.
Qed.

(** X2.  On every path of [sendImpl] on which the status read on entry
    has a code other than [RUNNING], a negative one included: the call
    returns that status after its first three operations, without any
    operation on the queue, without allocating, swapping or deleting a
    status, and without any transfer of memory credit. *)
Theorem sendImpl_refuses_after_finish chunk tr r st :
  path (sendImpl ch chunk) tr r ->
  head (loaded_statuses tr) = Some st ->
  code st <> RUNNING ->
  r = st /\ queue_ops tr = [] /\ status_ops tr = [] /\ credit_events tr = []
  /\ length tr = 3%nat.
Proof.
  intros Hp Hst Hc. unfold sendImpl in Hp.
  path_cases Hp; cbn in Hst; injection Hst as ->;
    try (match goal with E : negb _ = false |- _ =>
           apply negb_false_iff, Z.eqb_eq in E; contradiction end);
    repeat split; reflexivity.
Qed.

(** X3.  No call waits more than twice, and every wait has a deadline.
    [recv] waits for an item until its argument and then, on the paths that
    come to offer the mark, until [max_timeout_ts]; [sendImpl] waits for
    the insertion of the chunk and then for that of the mark, each until
    [max_timeout_ts]; [finish] waits at most for the insertion of the mark;
    [merge] does not wait.  No call issues more than three operations on
    status objects, or more than nineteen operations in all. *)
Theorem calls_wait_at_most_twice o tr r :
  path (op_prog ch o) tr r ->
  let limit := max_timeout_ts (options ch) in
  match o with
  | OpRecv ts => timed_waits tr = [] \/ timed_waits tr = [ts] \/ timed_waits tr = [ts; limit]
  | OpSend _ => timed_waits tr = [] \/ timed_waits tr = [limit]
                \/ timed_waits tr = [limit; limit]
  | OpFinish _ _ => timed_waits tr = [] \/ timed_waits tr = [limit]
  | OpMerge => timed_waits tr = []
  end
  /\ (length (status_ops tr) <= 3)%nat
  /\ (length tr <= 19)%nat.
Proof.
  intros Hp limit. subst limit.
  destruct o as [ts | chunk | c m |]; op_path_cases Hp;
    cbn; (split; [auto | split; lia]).
Qed.
End MorePaths.

(* ===================================================================== *)
(** ** Calls in sequence, continued *)
(* ===================================================================== *)

Section MoreRuns.
Context `{Externals} {Q : Type} `{TransportQueue Q}.
Variable ch : Channel.

Lemma deref_init (w : World Q) :
  broadcast_status w = InitPtr ->
  deref ch w (broadcast_status w) = Some (init_status ch).
Proof. intros Hp. unfold deref. rewrite Hp. reflexivity. Qed.

Lemma finish_won_deref c m (w : World Q) :
  deref ch (finish_won_world ch c m w) (broadcast_status (finish_won_world ch c m w))
  = Some (mkBroadcastStatus c false m).
Proof. eapply published_deref, finish_won_published. Qed.

(** A call on a channel with no status installed returns; afterwards none
    is installed and the status objects are what they were, or the call has
    installed one. *)
Lemma op_unpublished (o : Op) (w : World Q) :
  broadcast_status w = InitPtr ->
  exists r w' tr,
    run ch (op_prog ch o) w = Some (r, w', tr)
    /\ ((broadcast_status w' = InitPtr /\ heap w' = heap w)
        \/ exists q s, published q s w').
Proof.
  intros Hp. pose proof (deref_init w Hp) as Hs.
  set (s := init_status ch) in *.
  destruct o as [ts | c | c m |]; cbn [op_prog].
  - rewrite run_bind_ret.
    destruct (0 <? code s) eqn:Hc.
    + apply Z.ltb_lt in Hc. rewrite (recv_closed_run ch ts w s Hs Hc).
      do 3 eexists. split; [reflexivity |]. left. auto.
    + apply Z.ltb_ge in Hc.
      destruct (tryPopUntil (receive_queue w) ts) as [r q'] eqn:Hq.
      assert (Hfall : falls_through r ->
                exists r0 w' tr,
                  match run ch (recv ch ts) w with
                  | Some (a, w', tr) => Some (ResRecv a, w', tr)
                  | None => None
                  end = Some (r0, w', tr)
                  /\ (broadcast_status w' = InitPtr /\ heap w' = heap w
                      \/ exists q s, published q s w')).
      { intros Hr. rewrite (recv_fall_through_run ch ts w s _ q' Hs Hc Hq Hr).
        rewrite finish_won_run by exact Hp.
        do 3 eexists. split; [reflexivity |]. right.
        exists (fresh (dom (heap w))), (mkBroadcastStatus RECV_TIMEOUT false
                                           (recv_timeout_message ch ts)).
        unfold recv_record, published.
        destruct (enable_receiver_metrics ch); simpl;
          (split; [reflexivity | apply lookup_insert_eq]). }
      destruct r as [[c | m | x] |]; try (apply Hfall; exact I).
      * rewrite (recv_chunk_run ch ts w s c q' Hs Hc Hq).
        do 3 eexists. split; [reflexivity |]. left.
        unfold recv_chunk_world. destruct (enable_receiver_metrics ch); auto.
      * rewrite (recv_mark_run ch ts w s m q' Hs Hc Hq).
        do 3 eexists. split; [reflexivity |]. left. auto.
  - rewrite run_bind_ret.
    destruct (Z.eq_dec (code s) RUNNING) as [Hc | Hc].
    + destruct (tryEmplaceUntil (receive_queue w) (max_timeout_ts (options ch)) (PktChunk c))
        as [[|] q'] eqn:Hq.
      * rewrite (sendImpl_inserted_run ch c w s q' Hs Hc Hq).
        do 3 eexists. split; [reflexivity |]. left. auto.
      * destruct (closed q') eqn:Hcl.
        -- rewrite (sendImpl_interrupted_run ch c w s q' Hs Hc Hq Hcl).
           do 3 eexists. split; [reflexivity |]. left. auto.
        -- rewrite (sendImpl_timeout_run ch c w s q' Hs Hc Hq Hcl).
           rewrite finish_won_run by exact Hp.
           do 3 eexists. split; [reflexivity |]. right.
           do 2 eexists. apply finish_won_published.
    + rewrite (sendImpl_stopped_run ch c w s Hs Hc).
      do 3 eexists. split; [reflexivity |]. left. auto.
  - rewrite run_bind_ret. rewrite finish_won_run by exact Hp.
    do 3 eexists. split; [reflexivity |]. right.
    do 2 eexists. apply finish_won_published.
  - simpl. do 3 eexists. split; [reflexivity |]. left. auto.
Qed.

Lemma published_live_cases (w : World Q) :
  published_live ch w ->
  broadcast_status w = InitPtr \/ exists q s, published q s w.
Proof.
  intros [s Hs]. unfold deref in Hs.
  destruct (broadcast_status w) as [| q] eqn:Hp; [auto |].
  right. exists q, s. split; assumption.
Qed.

Lemma published_is_live q s (w : World Q) : published q s w -> published_live ch w.
Proof. intros Hpub. exists s. eapply published_deref, Hpub. Qed.

Lemma unpublished_is_live (w : World Q) :
  broadcast_status w = InitPtr -> published_live ch w.
Proof. intros Hp. exists (init_status ch). apply deref_init, Hp. Qed.

(** Every call returns on a channel whose published status is readable,
    and leaves it readable. *)
Lemma op_live (o : Op) (w : World Q) :
  published_live ch w ->
  exists r w' tr,
    run ch (op_prog ch o) w = Some (r, w', tr) /\ published_live ch w'.
Proof.
  intros Hlive. destruct (published_live_cases w Hlive) as [Hp | (q & s & Hpub)].
  - destruct (op_unpublished o w Hp) as (r & w' & tr & Hrun & Hafter).
    exists r, w', tr. split; [exact Hrun |].
    destruct Hafter as [[Hp' _] | (q & s & Hpub)].
    + apply unpublished_is_live, Hp'.
    + eapply published_is_live, Hpub.
  - destruct (op_published ch o q s w Hpub) as (r & w' & tr & Hrun & Hpub' & _).
    exists r, w', tr. split; [exact Hrun |]. eapply published_is_live, Hpub'.
Qed.

Lemma run_ops_live ops (w : World Q) :
  published_live ch w ->
  exists rs w', run_ops ch ops w = Some (rs, w') /\ published_live ch w'.
Proof.
  revert w. induction ops as [| o ops IH]; intros w Hlive.
  - exists [], w. split; [reflexivity | exact Hlive].
  - destruct (op_live o w Hlive) as (r & w1 & tr & Hrun & Hlive1).
    destruct (IH w1 Hlive1) as (rs & w2 & Hrun2 & Hlive2).
    exists ((r, tr) :: rs), w2. cbn [run_ops]. rewrite Hrun, Hrun2. auto.
Qed.

(** The calls of a sequence on a channel with the status [s] installed:
    each is run on a state in which [s] is installed. *)
Lemma run_ops_published ops q s (w : World Q) :
  published q s w ->
  exists rs w',
    run_ops ch ops w = Some (rs, w')
    /\ published q s w'
    /\ forall j o r tr,
         ops !! j = Some o -> rs !! j = Some (r, tr) ->
         exists wj wj',
           published q s wj /\ run ch (op_prog ch o) wj = Some (r, wj', tr).
Proof.
  revert w. induction ops as [| o ops IH]; intros w Hpub.
  - exists [], w. split; [reflexivity |]. split; [exact Hpub |]. discriminate.
  - destruct (op_published ch o q s w Hpub) as (r & w1 & tr & Hrun & Hpub1 & _).
    destruct (IH w1 Hpub1) as (rs & w2 & Hrun2 & Hpub2 & Hall).
    exists ((r, tr) :: rs), w2. cbn [run_ops]. rewrite Hrun, Hrun2.
    split; [reflexivity |]. split; [exact Hpub2 |].
    intros [| j] o' r' tr' Ho Hr; simpl in Ho, Hr.
    + injection Ho as <-. injection Hr as <- <-. eauto.
    + eapply Hall; eassumption.
Qed.

Lemma run_ops_app ops1 ops2 (w : World Q) :
  run_ops ch (ops1 ++ ops2) w
  = match run_ops ch ops1 w with
    | None => None
    | Some (rs1, w1) =>
        match run_ops ch ops2 w1 with
        | None => None
        | Some (rs2, w2) => Some (rs1 ++ rs2, w2)
        end
    end.
Proof.
  revert w. induction ops1 as [| o ops1 IH]; intros w; cbn [run_ops app].
  - destruct (run_ops ch ops2 w) as [[rs2 w2] |]; reflexivity.
  - destruct (run ch (op_prog ch o) w) as [[[r w1] tr] |]; [| reflexivity].
    rewrite IH. destruct (run_ops ch ops1 w1) as [[rs1 w2] |]; [| reflexivity].
    destruct (run_ops ch ops2 w2) as [[rs2 w3] |]; reflexivity.
Qed.

(** A quantity of the state that every operation changes in a way that its
    event determines is, after a call, what the events of the call make of
    it. *)
Lemma run_field {X : Type} (f : World Q -> X) (u : Event -> X -> X) :
  (forall (B : Type) (c : Cmd B) b w w',
      interp ch c w = Some (b, w') -> f w' = u (Ev c b) (f w)) ->
  forall (A : Type) (t : Prog A) w a w' tr,
    run ch t w = Some (a, w', tr) ->
    f w' = foldl (fun x e => u e x) (f w) tr.
Proof.
  intros Hu A t. induction t as [a0 | C c k IH]; intros w a w' tr; simpl.
  - intros [= _ <- <-]. reflexivity.
  - destruct (interp ch c w) as [[b w1] |] eqn:Hi; [| discriminate].
    destruct (run ch (k b) w1) as [[[a1 w2] tr1] |] eqn:Hr; [| discriminate].
    intros [= <- <- <-]. simpl. rewrite <- (Hu _ _ _ _ _ Hi). eapply IH, Hr.
Qed.
End MoreRuns.

Section MoreSequences.
Context `{Externals} {Q : Type} `{TransportQueue Q}.
Variable ch : Channel.

(** The statuses a call read, on a run: the first is the published one. *)
Lemma run_sendImpl_first_status chunk (w w' : World Q) s r tr :
  deref ch w (broadcast_status w) = Some s ->
  run ch (sendImpl ch chunk) w = Some (r, w', tr) ->
  head (loaded_statuses tr) = Some s.
Proof.
  intros Hs. unfold sendImpl. exec_simpl.
  destruct w as [p0 hp rq sm rm gm ck lg ql];
    unfold deref in Hs; cbn [heap broadcast_status] in Hs.
  exec_simpl. rewrite Hs. exec_simpl.
  match goal with
  | |- context [run ch ?t ?w0] => destruct (run ch t w0) as [[[a1 w1] tr1] |]
  end; [| discriminate].
  intros [= <- <- <-]. reflexivity.
Qed.

Lemma sendImpl_running_path chunk tr r st :
  path (sendImpl ch chunk) tr r ->
  head (loaded_statuses tr) = Some st ->
  code st = RUNNING ->
  exists inserted rest,
    queue_ops tr
    = QEmplace (max_timeout_ts (options ch)) (PktChunk chunk) inserted :: rest.
Proof.
  intros Hp Hst Hc. unfold sendImpl in Hp.
  path_cases Hp; cbn in Hst; injection Hst as ->;
    try (match goal with E : negb _ = true |- _ =>
           apply negb_true_iff, Z.eqb_neq in E; contradiction end);
    cbn; eauto.
Qed.

(** X4.  Once a status [s] is installed, calls of [finish], whatever
    their codes and messages, each return [s] and perform no operation on
    the queue; they leave the published status, the status objects, the
    queue and the memory budget as they found them.  A later [finish] with a
    positive code does not close the queue. *)
Theorem later_finish_is_ignored (w : World Q) q s
    (calls : list (BroadcastStatusCode * string)) :
  published q s w ->
  exists rs w',
    run_ops ch ((fun cm => OpFinish cm.1 cm.2) <$> calls) w = Some (rs, w')
    /\ length rs = length calls
    /\ (forall r tr, (r, tr) ∈ rs -> r = ResStatus s /\ queue_ops tr = [])
    /\ broadcast_status w' = broadcast_status w
    /\ heap w' = heap w
    /\ receive_queue w' = receive_queue w
    /\ global_memory w' = global_memory w.
Proof.
  revert w. induction calls as [| [c m] calls IH]; intros w Hpub.
  - exists [], w. split; [reflexivity |]. split; [reflexivity |].
    split; [intros r tr Hin; apply elem_of_nil in Hin; contradiction |]. auto.
  - pose proof Hpub as [Hp Hq].
    assert (Hpub1 : published q s (finish_lost_world ch c m s w)) by exact Hpub.
    destruct (IH _ Hpub1) as (rs & w2 & Hrun2 & Hlen & Hall & Hbs & Hheap & Hqueue & Hmem).
    exists ((ResStatus s, finish_lost_trace ch c m s w) :: rs), w2.
    cbn [fmap list_fmap run_ops op_prog fst snd]. rewrite run_bind_ret.
    rewrite (finish_lost_run ch c m w q s Hp Hq).
    change (list_fmap _ _ ?f calls) with (f <$> calls). rewrite Hrun2.
    split; [reflexivity |]. split; [simpl; congruence |].
    split; [| auto].
    intros r tr Hin. apply elem_of_cons in Hin as [[= -> ->] | Hin]; [| eauto].
    split; reflexivity.
Qed.

(** X5.  On a channel with no status installed whose [init_status] has
    the code [RUNNING]: if the queue accepts the chunk and then yields it,
    [sendImpl] followed by [recv] returns [init_status] and then the chunk.
    Afterwards the memory budget is what it was before the two calls, no
    status is installed, and the size of the chunk has been recorded once if
    receiver metrics are enabled. *)
Theorem send_recv_round_trip (w : World Q) chunk ts q1 q2 :
  broadcast_status w = InitPtr ->
  code (init_status ch) = RUNNING ->
  tryEmplaceUntil (receive_queue w) (max_timeout_ts (options ch)) (PktChunk chunk)
  = (true, q1) ->
  tryPopUntil q1 ts = (Some (PktChunk chunk), q2) ->
  exists tr1 tr2 w',
    run_ops ch [OpSend chunk; OpRecv ts] w
    = Some ([(ResStatus (init_status ch), tr1); (ResRecv (RecvChunk chunk), tr2)], w')
    /\ receive_queue w' = q2
    /\ global_memory w' = global_memory w
    /\ broadcast_status w' = InitPtr
    /\ heap w' = heap w
    /\ recv_bytes (receiver_metrics w')
       = if enable_receiver_metrics ch
         then recv_bytes (receiver_metrics w) ++ [bytes chunk]
         else recv_bytes (receiver_metrics w).
Proof.
  intros Hp Hc Hq1 Hq2. pose proof (deref_init ch w Hp) as Hs.
  cbn [run_ops op_prog]. rewrite run_bind_ret.
  rewrite (sendImpl_inserted_run ch chunk w _ q1 Hs Hc Hq1).
  cbv beta iota. rewrite run_bind_ret.
  match goal with
  | |- context [run ch (recv ch ts) ?w1] =>
      rewrite (recv_chunk_run ch ts w1 (init_status ch) chunk q2)
  end; [| exact Hs | rewrite Hc; unfold RUNNING; lia | exact Hq2].
  do 3 eexists. split; [reflexivity |].
  unfold recv_chunk_world.
  destruct (enable_receiver_metrics ch); cbn; repeat split; auto; lia.
Qed.

(** X6.  On a channel with no status installed whose [init_status] has
    a code that is not positive: a [recv] that gets neither a chunk nor a
    mark from the queue installs the status [RECV_TIMEOUT] with the timeout
    message and returns it with [is_modifer] set.  The queue is
    closed if [RECV_TIMEOUT] is positive and offered the mark otherwise; no
    memory credit is transferred.  If [RECV_TIMEOUT] is not [RUNNING], every
    later [sendImpl] returns the installed status and changes nothing. *)
Theorem recv_timeout_stops_senders (w : World Q) ts r q' :
  broadcast_status w = InitPtr ->
  code (init_status ch) <= 0 ->
  tryPopUntil (receive_queue w) ts = (r, q') ->
  falls_through r ->
  let s := mkBroadcastStatus RECV_TIMEOUT false (recv_timeout_message ch ts) in
  exists w1 tr1,
    run ch (recv ch ts) w = Some (RecvStatus (set_is_modifer true s), w1, tr1)
    /\ deref ch w1 (broadcast_status w1) = Some s
    /\ receive_queue w1
       = (if 0 <? RECV_TIMEOUT then close q'
          else snd (tryEmplaceUntil q' (max_timeout_ts (options ch))
                                    (PktSendDoneMark (name ch))))
    /\ credit_events tr1 = []
    /\ (RECV_TIMEOUT <> RUNNING ->
        forall chunk,
          run ch (sendImpl ch chunk) w1 = Some (s, w1, entry_trace w1 s)).
Proof.
  intros Hp Hc Hq Hr s. pose proof (deref_init ch w Hp) as Hs.
  rewrite (recv_fall_through_run ch ts w _ r q' Hs Hc Hq Hr).
  rewrite finish_won_run by exact Hp.
  do 2 eexists. split; [reflexivity |].
  assert (Hd : deref ch (recv_record ch (clock w)
                           (finish_won_world ch RECV_TIMEOUT (recv_timeout_message ch ts)
                                             (set_receive_queue q' w)))
                     (broadcast_status
                        (recv_record ch (clock w)
                           (finish_won_world ch RECV_TIMEOUT (recv_timeout_message ch ts)
                                             (set_receive_queue q' w))))
               = Some s).
  { unfold recv_record. destruct (enable_receiver_metrics ch);
      unfold deref; cbn; apply lookup_insert_eq. }
  split; [exact Hd |].
  split; [unfold recv_record; destruct (enable_receiver_metrics ch); reflexivity |].
  split.
  { unfold entry_trace, finish_won_trace, finish_queue_event, recv_record_trace.
    destruct r as [[c | m | x] |]; try contradiction;
      destruct (0 <? RECV_TIMEOUT), (enable_receiver_metrics ch); reflexivity. }
  intros Hne chunk. apply sendImpl_stopped_run; [exact Hd | exact Hne].
Qed.

(** X7.  On a channel with no status installed whose [init_status] has
    the code [RUNNING]: a [sendImpl] that fails to insert its chunk and
    finds the queue open installs the status [SEND_TIMEOUT] with the timeout
    message and returns it with [is_modifer] set, without any transfer of
    memory credit.  If [SEND_TIMEOUT] is positive the queue
    is closed, and every later [recv] returns the installed status without
    reading the queue; otherwise the queue is offered the mark. *)
Theorem send_timeout_closes_channel (w : World Q) chunk q' :
  broadcast_status w = InitPtr ->
  code (init_status ch) = RUNNING ->
  tryEmplaceUntil (receive_queue w) (max_timeout_ts (options ch)) (PktChunk chunk)
  = (false, q') ->
  closed q' = false ->
  let s := mkBroadcastStatus SEND_TIMEOUT false (send_timeout_message ch) in
  exists w1 tr1,
    run ch (sendImpl ch chunk) w = Some (set_is_modifer true s, w1, tr1)
    /\ deref ch w1 (broadcast_status w1) = Some s
    /\ global_memory w1 = global_memory w
    /\ credit_events tr1 = []
    /\ (0 < SEND_TIMEOUT ->
        receive_queue w1 = close q'
        /\ forall ts, run ch (recv ch ts) w1 = Some (RecvStatus s, w1, entry_trace w1 s))
    /\ (SEND_TIMEOUT <= 0 ->
        receive_queue w1
        = snd (tryEmplaceUntil q' (max_timeout_ts (options ch))
                               (PktSendDoneMark (name ch)))).
Proof.
  intros Hp Hc Hq Hcl s. pose proof (deref_init ch w Hp) as Hs.
  rewrite (sendImpl_timeout_run ch chunk w _ q' Hs Hc Hq Hcl).
  rewrite finish_won_run by exact Hp.
  do 2 eexists. split; [reflexivity |].
  split; [apply finish_won_deref |].
  split; [reflexivity |].
  split.
  { unfold entry_trace, finish_won_trace, finish_queue_event, insert_event.
    destruct (0 <? SEND_TIMEOUT); reflexivity. }
  split.
  - intros Hpos. split.
    + cbn [finish_won_world receive_queue]. unfold finish_queue.
      apply Z.ltb_lt in Hpos. rewrite Hpos. reflexivity.
    + intros ts. apply recv_closed_run; [apply finish_won_deref | exact Hpos].
  - intros Hneg. cbn [finish_won_world receive_queue]. unfold finish_queue.
    apply Z.ltb_ge in Hneg. rewrite Hneg. reflexivity.
Qed.

(** X8.  [finish] called with the code [RUNNING] on a channel with no
    status installed installs a status with that code, and offers the mark
    to the queue, as for a negative code.  Whatever calls follow, the
    installed status is this one: every later [finish] returns it, so no
    later call gives the channel a terminal code, and every later
    [sendImpl] still offers its chunk to the queue. *)
Theorem finish_with_running_code_wedges (w : World Q) m ops :
  broadcast_status w = InitPtr ->
  let s := mkBroadcastStatus RUNNING false m in
  exists w1 tr1 rs w2,
    run ch (finish ch RUNNING m) w = Some (set_is_modifer true s, w1, tr1)
    /\ queue_ops tr1
       = [QEmplace (max_timeout_ts (options ch)) (PktSendDoneMark (name ch))
                   (fst (tryEmplaceUntil (receive_queue w) (max_timeout_ts (options ch))
                                         (PktSendDoneMark (name ch))))]
    /\ run_ops ch ops w1 = Some (rs, w2)
    /\ deref ch w2 (broadcast_status w2) = Some s
    /\ (forall j c' m' r tr,
           ops !! j = Some (OpFinish c' m') -> rs !! j = Some (r, tr) ->
           r = ResStatus s)
    /\ (forall j chunk r tr,
           ops !! j = Some (OpSend chunk) -> rs !! j = Some (r, tr) ->
           exists inserted rest,
             queue_ops tr
             = QEmplace (max_timeout_ts (options ch)) (PktChunk chunk) inserted :: rest).
Proof.
  intros Hp s.
  pose proof (finish_won_published ch RUNNING m w) as Hpub.
  destruct (run_ops_published ch ops _ _ _ Hpub) as (rs & w2 & Hrun & Hpub2 & Hall).
  exists (finish_won_world ch RUNNING m w), (finish_won_trace ch RUNNING m w), rs, w2.
  split; [apply finish_won_run; exact Hp |].
  split; [reflexivity |].
  split; [exact Hrun |].
  split; [eapply published_deref, Hpub2 |].
  split.
  - intros j c' m' r tr Ho Hr.
    destruct (Hall _ _ _ _ Ho Hr) as (wj & wj' & [Hpj Hqj] & Hrunj).
    cbn [op_prog] in Hrunj. rewrite run_bind_ret in Hrunj.
    rewrite (finish_lost_run ch c' m' wj _ _ Hpj Hqj) in Hrunj.
    injection Hrunj as <- _ _. reflexivity.
  - intros j chunk r tr Ho Hr.
    destruct (Hall _ _ _ _ Ho Hr) as (wj & wj' & Hpubj & Hrunj).
    cbn [op_prog] in Hrunj. rewrite run_bind_ret in Hrunj.
    destruct (run ch (sendImpl ch chunk) wj) as [[[st wj1] trj] |] eqn:Hsend;
      [| discriminate].
    injection Hrunj as _ _ <-.
    eapply sendImpl_running_path.
    + eapply run_path, Hsend.
    + eapply run_sendImpl_first_status; [| exact Hsend].
      eapply published_deref, Hpubj.
    + reflexivity.
Qed.
End MoreSequences.

(* ===================================================================== *)
(** ** Metrics and the destructor *)
(* ===================================================================== *)

(** The operations that record a receiver metric or add to the query
    exchange log. *)
Definition is_metric_record (e : Event) : bool :=
  match e with
  | Ev c _ =>
      match c with
      | RecvBytesAdd _ | RecvTimeAdd _ | ExchangeLogAdd _ => true
      | _ => false
      end
  end.

Definition recv_bytes_sample (e : Event) : option N :=
  match e with
  | Ev c _ => match c with RecvBytesAdd n => Some n | _ => None end
  end.

Definition logged_element (e : Event) : option QueryExchangeLogElement :=
  match e with
  | Ev c _ => match c with ExchangeLogAdd el => Some el | _ => None end
  end.

(** The chunks the calls of a sequence returned. *)
Definition chunks_received (rs : list (OpResult * list Event)) : list Chunk :=
  omap (fun r => match fst r with ResRecv (RecvChunk c) => Some c | _ => None end) rs.

Lemma total_app (a b : list N) : total (a ++ b) = (total a + total b)%N.
Proof.
  unfold total. induction a as [| x a IH]; simpl; [reflexivity |].
  rewrite IH. lia.
Qed.

Lemma get_value_app (a b : Adder) :
  get_value (a ++ b) = ((get_value a + total b) mod 2 ^ 64)%N.
Proof.
  unfold get_value. rewrite total_app, N.Div0.add_mod_idemp_l. reflexivity.
Qed.

Lemma foldl_option_list {A B : Type} (g : A -> option B) (l : list A) (x0 : list B) :
  foldl (fun x e => x ++ option_list (g e)) x0 l = x0 ++ omap g l.
Proof.
  revert x0. induction l as [| e l IH]; intros x0; simpl.
  - rewrite app_nil_r. reflexivity.
  - rewrite IH. destruct (g e); simpl; [| rewrite app_nil_r; reflexivity].
    rewrite <- app_assoc. reflexivity.
Qed.

Section Metrics.
Context `{Externals} {Q : Type} `{TransportQueue Q}.
Variable ch : Channel.

Lemma interp_recv_bytes {B : Type} (c : Cmd B) b (w w' : World Q) :
  interp ch c w = Some (b, w') ->
  recv_bytes (receiver_metrics w')
  = recv_bytes (receiver_metrics w) ++ option_list (recv_bytes_sample (Ev c b)).
Proof.
  destruct c; simpl; intros Hi;
    try (injection Hi as <- <-; simpl; rewrite ?app_nil_r; reflexivity).
  - destruct (deref ch w p); simpl in Hi; [| discriminate].
    injection Hi as <- <-. rewrite app_nil_r. reflexivity.
  - destruct p; [discriminate |].
    destruct (heap w !! a); simpl in Hi; [| discriminate].
    injection Hi as <- <-. simpl. rewrite app_nil_r. reflexivity.
  - destruct (decide (broadcast_status w = expected));
      injection Hi as <- <-; simpl; rewrite app_nil_r; reflexivity.
Qed.

Lemma interp_exchange_log {B : Type} (c : Cmd B) b (w w' : World Q) :
  interp ch c w = Some (b, w') ->
  query_exchange_log w'
  = query_exchange_log w ++ option_list (logged_element (Ev c b)).
Proof.
  destruct c; simpl; intros Hi;
    try (injection Hi as <- <-; simpl; rewrite ?app_nil_r; reflexivity).
  - destruct (deref ch w p); simpl in Hi; [| discriminate].
    injection Hi as <- <-. rewrite app_nil_r. reflexivity.
  - destruct p; [discriminate |].
    destruct (heap w !! a); simpl in Hi; [| discriminate].
    injection Hi as <- <-. simpl. rewrite app_nil_r. reflexivity.
  - destruct (decide (broadcast_status w = expected));
      injection Hi as <- <-; simpl; rewrite app_nil_r; reflexivity.
Qed.

(** What the paths of a call record. *)
Lemma op_path_records o tr r :
  path (op_prog ch o) tr r ->
  omap recv_bytes_sample tr
  = (if enable_receiver_metrics ch
     then match r with ResRecv (RecvChunk c) => [bytes c] | _ => [] end
     else [])
  /\ omap logged_element tr = [].
Proof.
  intros Hp.
  destruct (enable_receiver_metrics ch) eqn:Hen;
    destruct o as [ts | chunk | c m |]; op_path_cases Hp;
    try discriminate; split; reflexivity.
Qed.

Lemma op_records o (w w' : World Q) r tr :
  run ch (op_prog ch o) w = Some (r, w', tr) ->
  recv_bytes (receiver_metrics w')
  = recv_bytes (receiver_metrics w)
      ++ (if enable_receiver_metrics ch
          then match r with ResRecv (RecvChunk c) => [bytes c] | _ => [] end
          else [])
  /\ query_exchange_log w' = query_exchange_log w.
Proof.
  intros Hrun.
  destruct (op_path_records o tr r (run_path ch _ _ _ _ _ Hrun)) as [Hb Hl].
  split.
  - pose proof (run_field ch (fun w => recv_bytes (receiver_metrics w))
                  (fun e x => x ++ option_list (recv_bytes_sample e))
                  (@interp_recv_bytes) _ _ _ _ _ _ Hrun) as Hf.
    cbv beta in Hf. rewrite Hf, (foldl_option_list recv_bytes_sample), Hb. reflexivity.
  - pose proof (run_field ch query_exchange_log
                  (fun e x => x ++ option_list (logged_element e))
                  (@interp_exchange_log) _ _ _ _ _ _ Hrun) as Hf.
    cbv beta in Hf.
    rewrite Hf, (foldl_option_list logged_element), Hl, app_nil_r. reflexivity.
Qed.

Lemma run_ops_records ops (w w' : World Q) rs :
  run_ops ch ops w = Some (rs, w') ->
  recv_bytes (receiver_metrics w')
  = recv_bytes (receiver_metrics w)
      ++ (if enable_receiver_metrics ch then bytes <$> chunks_received rs else [])
  /\ query_exchange_log w' = query_exchange_log w.
Proof.
  revert w rs. induction ops as [| o ops IH]; intros w rs; cbn [run_ops].
  - intros [= <- <-]. destruct (enable_receiver_metrics ch);
      simpl; rewrite app_nil_r; auto.
  - destruct (run ch (op_prog ch o) w) as [[[r w1] tr] |] eqn:Hrun; [| discriminate].
    destruct (run_ops ch ops w1) as [[rs1 w2] |] eqn:Hrest; [| discriminate].
    intros [= <- <-].
    destruct (op_records _ _ _ _ _ Hrun) as [Hb1 Hl1].
    destruct (IH _ _ Hrest) as [Hb2 Hl2].
    split; [| congruence].
    rewrite Hb2, Hb1, <- app_assoc. f_equal.
    destruct (enable_receiver_metrics ch); [| reflexivity].
    unfold chunks_received. cbn [omap list_omap fst].
    destruct r as [[c | s] | s | | e]; reflexivity.
Qed.

(** The state the destructor leaves. *)
Definition destroy_world (w : World Q) : World Q :=
  let w1 := match broadcast_status w with
            | InitPtr => w
            | HeapPtr a => set_heap (delete a (heap w)) w
            end in
  if (enable_sender_metrics ch || enable_receiver_metrics ch)
     && hasQueryExchangeLog (context ch)
  then set_query_exchange_log
         (query_exchange_log w
            ++ [make_element ch (clock w) (sender_metrics w) (receiver_metrics w)]) w1
  else w1.

Lemma destroy_run (w : World Q) :
  published_live ch w ->
  exists tr,
    run ch (destroy ch) w = Some (tt, destroy_world w, tr)
    /\ status_ops tr
       = match broadcast_status w with
         | InitPtr => []
         | HeapPtr a => [SDelete (HeapPtr a)]
         end.
Proof.
  intros [s Hs]. unfold destroy, destroy_world, when.
  destruct w as [p0 hp rq sm rm gm ck lg ql];
    unfold deref in Hs; cbn [heap broadcast_status read_status] in Hs.
  destruct p0 as [| a]; exec_simpl.
  - rewrite bool_decide_eq_true_2 by reflexivity. exec_simpl.
    destruct (enable_sender_metrics ch || enable_receiver_metrics ch); exec_simpl;
      [destruct (hasQueryExchangeLog (context ch)); exec_simpl |];
      eexists; split; reflexivity.
  - rewrite bool_decide_eq_false_2 by discriminate. exec_simpl.
    cbn [read_status] in Hs. rewrite Hs. exec_simpl.
    destruct (enable_sender_metrics ch || enable_receiver_metrics ch); exec_simpl;
      [destruct (hasQueryExchangeLog (context ch)); exec_simpl |];
      eexists; split; reflexivity.
Qed.

(** X9.  The life of a channel with metrics enabled and a query
    exchange log configured, whose published status is alive: any calls of
    [recv], [sendImpl], [finish] and [merge], one after the other, and then
    the destructor.  Every call returns and the destructor adds exactly one
    record to the log, of type "local".  Its received bytes are the value of
    the 64-bit counter: what was counted at the start plus, if receiver
    metrics are enabled, the sizes of the chunks the calls of [recv]
    returned, modulo [2^64]. *)
Theorem destructor_logs_bytes_received ops (w : World Q) :
  published_live ch w ->
  enable_sender_metrics ch || enable_receiver_metrics ch = true ->
  hasQueryExchangeLog (context ch) = true ->
  exists rs w1 w2 tr el,
    run_ops ch ops w = Some (rs, w1)
    /\ run ch (destroy ch) w1 = Some (tt, w2, tr)
    /\ query_exchange_log w2 = query_exchange_log w ++ [el]
    /\ el_type el = "local"
    /\ el_recv_bytes el
       = ((get_value (recv_bytes (receiver_metrics w))
           + (if enable_receiver_metrics ch
              then total (bytes <$> chunks_received rs) else 0))
          mod 2 ^ 64)%N.
Proof.
  intros Hlive Hen Hlog.
  destruct (run_ops_live ch ops w Hlive) as (rs & w1 & Hrun & Hlive1).
  destruct (destroy_run w1 Hlive1) as (tr & Hd & _).
  destruct (run_ops_records _ _ _ _ Hrun) as [Hb Hl].
  exists rs, w1, (destroy_world w1), tr,
    (make_element ch (clock w1) (sender_metrics w1) (receiver_metrics w1)).
  split; [exact Hrun |]. split; [exact Hd |].
  split.
  { unfold destroy_world. rewrite Hen, Hlog. cbn. rewrite Hl.
    destruct (broadcast_status w1); reflexivity. }
  split; [reflexivity |].
  cbn [make_element el_recv_bytes].
  rewrite Hb, get_value_app.
  destruct (enable_receiver_metrics ch); reflexivity.
Qed.
End Metrics.

Section Disabled.
Context `{Externals}.

(** X10.  On a channel constructed with [enable_metrics] off, no path
    of any call records received bytes or a receive time, or adds to the
    query exchange log; and the destructor only loads the published status
    and deletes it if it is not [init_status]. *)
Theorem metrics_disabled_records_nothing key opts nm ctx o tr r tr' u :
  enable_metrics opts = false ->
  let ch := LocalBroadcastChannel key opts nm ctx in
  path (op_prog ch o) tr r ->
  path (destroy ch) tr' u ->
  count_events is_metric_record tr = 0%nat
  /\ exists p, tr' = Ev LoadStatus p
                     :: (if decide (p = InitPtr) then [] else [Ev (DeleteStatus p) tt]).
Proof.
  intros Hen ch Hp Hd. subst ch. split.
  - destruct o as [ts | chunk | c m |]; op_path_cases Hp;
      try (match goal with
           | E : enable_receiver_metrics _ = true |- _ => cbn in E; congruence
           end);
      reflexivity.
  - unfold destroy in Hd. path_cases Hd;
      repeat match goal with
             | E : _ || _ = true |- _ => cbn in E; rewrite Hen in E; discriminate
             | E : negb (bool_decide _) = true |- _ =>
                 apply negb_true_iff, bool_decide_eq_false in E
             | E : negb (bool_decide _) = false |- _ =>
                 apply negb_false_iff, bool_decide_eq_true in E
             | u : unit |- _ => destruct u
             end;
      match goal with
      | |- exists p, Ev LoadStatus ?b :: _ = _ => exists b
      end;
      case_decide; congruence.
Qed.
End Disabled.

(* ===================================================================== *)
(** ** The balance of memory credit *)
(* ===================================================================== *)

Definition sum_with {A : Type} (d : A -> Z) (l : list A) : Z :=
  foldr (fun e z => d e + z) 0 l.

Lemma sum_with_app {A : Type} (d : A -> Z) (l l' : list A) :
  sum_with d (l ++ l') = sum_with d l + sum_with d l'.
Proof.
  unfold sum_with. induction l as [| x l IH]; simpl; [reflexivity |].
  rewrite IH. lia.
Qed.

(** The allocated bytes a credit event moves to the global budget, and the
    allocated bytes it adds to the queue. *)
Definition credit_delta (e : CreditEvent) : Z :=
  match e with
  | ToGlobal n => Z.of_N n
  | ToThread n => - Z.of_N n
  | _ => 0
  end.

Definition chunk_delta (e : CreditEvent) : Z :=
  match e with
  | Inserted c => Z.of_N (allocatedBytes c)
  | Popped c => - Z.of_N (allocatedBytes c)
  | _ => 0
  end.

Definition credited_by (tr : list Event) : Z := sum_with credit_delta (credit_events tr).
Definition queued_by (tr : list Event) : Z := sum_with chunk_delta (credit_events tr).

Section Balance.
Context `{Externals} {Q : Type} `{TransportQueue Q}.
Variable ch : Channel.

Lemma interp_global_memory {B : Type} (c : Cmd B) b (w w' : World Q) :
  interp ch c w = Some (b, w') ->
  global_memory w' = global_memory w + from_option credit_delta 0 (credit_event (Ev c b)).
Proof.
  destruct c; simpl; intros Hi;
    try (injection Hi as <- <-; simpl; lia).
  - destruct (deref ch w p); simpl in Hi; [| discriminate].
    injection Hi as <- <-. lia.
  - destruct p; [discriminate |].
    destruct (heap w !! a); simpl in Hi; [| discriminate].
    injection Hi as <- <-. simpl. lia.
  - destruct (decide (broadcast_status w = expected));
      injection Hi as <- <-; simpl; lia.
  - injection Hi as <- <-. simpl.
    destruct (tryPopUntil (receive_queue w) ts).1 as [[c | m | x] |]; simpl; lia.
  - injection Hi as <- <-. simpl.
    destruct x as [c | m | x]; simpl; try lia.
    destruct (tryEmplaceUntil (receive_queue w) ts (PktChunk c)).1; simpl; lia.
Qed.

(** Every call moves to the global budget what it adds to the queue. *)
Lemma op_path_balance o tr r :
  path (op_prog ch o) tr r -> credited_by tr = queued_by tr.
Proof.
  intros Hp. destruct o as [ts | chunk | c m |]; op_path_cases Hp; reflexivity.
Qed.

End Balance.

(** The allocated bytes of the chunks in the bounded queue. *)
Definition packet_bytes (x : MultiPathDataPacket) : Z :=
  match x with
  | PktChunk c => Z.of_N (allocatedBytes c)
  | _ => 0
  end.

Definition queued_bytes (q : BoundedQueue) : Z := sum_with packet_bytes (items q).

Section BoundedBalance.
Context `{Externals}.
Variable ch : Channel.

Lemma interp_queued_bytes {B : Type} (c : Cmd B) b (w w' : World BoundedQueue) :
  interp ch c w = Some (b, w') ->
  is_closed (receive_queue w') = false ->
  is_closed (receive_queue w) = false
  /\ queued_bytes (receive_queue w')
     = queued_bytes (receive_queue w)
       + from_option chunk_delta 0 (credit_event (Ev c b)).
Proof.
  destruct c; simpl; intros Hi;
    try (injection Hi as <- <-; simpl; intros Hcl; split; [exact Hcl | lia]).
  - destruct (deref ch w p); simpl in Hi; [| discriminate].
    injection Hi as <- <-. intros Hcl; split; [exact Hcl | lia].
  - destruct p; [discriminate |].
    destruct (heap w !! a); simpl in Hi; [| discriminate].
    injection Hi as <- <-. simpl. intros Hcl; split; [exact Hcl | lia].
  - destruct (decide (broadcast_status w = expected));
      injection Hi as <- <-; simpl; intros Hcl; (split; [exact Hcl | lia]).
  - injection Hi as <- <-. simpl. unfold bq_tryPopUntil, queued_bytes.
    destruct (items (receive_queue w)) as [| x rest] eqn:Hitems; simpl.
    + intros Hcl. rewrite Hitems. split; [exact Hcl | simpl; lia].
    + intros Hcl. split; [exact Hcl |].
      unfold sum_with. destruct x as [c | m | x]; simpl; lia.
  - injection Hi as <- <-. simpl. unfold bq_tryEmplaceUntil, queued_bytes.
    destruct (is_closed (receive_queue w)) eqn:Hc; simpl; [congruence |].
    destruct (length (items (receive_queue w)) <? capacity (receive_queue w))%nat; simpl.
    + intros _. split; [reflexivity |].
      rewrite sum_with_app. unfold sum_with.
      destruct x as [c | m | x]; simpl; lia.
    + intros _. split; [reflexivity |].
      destruct x as [c | m | x]; simpl; lia.
  - injection Hi as <- <-. simpl. discriminate.
Qed.

(** The sends of [cs] into an open queue with room for them. *)
Lemma sends_run cs (w : World BoundedQueue) :
  broadcast_status w = InitPtr ->
  code (init_status ch) = RUNNING ->
  is_closed (receive_queue w) = false ->
  (length (items (receive_queue w)) + length cs <= capacity (receive_queue w))%nat ->
  exists rs w',
    run_ops ch (OpSend <$> cs) w = Some (rs, w')
    /\ received rs = []
    /\ Forall (fun r => r.1 = ResStatus (init_status ch)) rs
    /\ broadcast_status w' = InitPtr
    /\ heap w' = heap w
    /\ receive_queue w'
       = mkQueue (items (receive_queue w) ++ (PktChunk <$> cs))
                 (capacity (receive_queue w)) false
    /\ global_memory w'
       = global_memory w + sum_with (fun c => Z.of_N (allocatedBytes c)) cs.
Proof.
  intros Hp Hc. revert w Hp. induction cs as [| c cs IH]; intros w Hp Hcl Hroom.
  - exists [], w. split; [reflexivity |]. split; [reflexivity |].
    split; [constructor |]. split; [exact Hp |]. split; [reflexivity |].
    split; [| unfold sum_with; simpl; lia].
    destruct (receive_queue w) as [xs cap cl]; simpl in *.
    rewrite app_nil_r. congruence.
  - pose proof (deref_init ch w Hp) as Hs.
    assert (Hq : tryEmplaceUntil (receive_queue w) (max_timeout_ts (options ch)) (PktChunk c)
                 = (true, mkQueue (items (receive_queue w) ++ [PktChunk c])
                                  (capacity (receive_queue w)) false)).
    { cbn [tryEmplaceUntil BoundedQueue_queue]. unfold bq_tryEmplaceUntil.
      rewrite Hcl.
      assert (Hlt : (length (items (receive_queue w)) <? capacity (receive_queue w))%nat = true)
        by (apply Nat.ltb_lt; simpl in Hroom; lia).
      rewrite Hlt. reflexivity. }
    destruct (IH (set_global_memory (global_memory w + Z.of_N (allocatedBytes c))
                    (set_receive_queue
                       (mkQueue (items (receive_queue w) ++ [PktChunk c])
                                (capacity (receive_queue w)) false) w)))
      as (rs & w' & Hrun & Hrecv & Hall & Hp' & Hheap & Hq' & Hmem).
    { exact Hp. }
    { reflexivity. }
    { cbn. rewrite length_app. simpl in *. lia. }
    eexists (_ :: rs), w'. cbn [fmap list_fmap run_ops op_prog]. rewrite run_bind_ret.
    rewrite (sendImpl_inserted_run ch c w _ _ Hs Hc Hq).
    change (list_fmap _ _ ?f cs) with (f <$> cs). rewrite Hrun.
    split; [reflexivity |].
    split; [rewrite received_cons; exact Hrecv |].
    split; [constructor; [reflexivity | exact Hall] |].
    split; [exact Hp' |]. split; [exact Hheap |].
    split.
    + rewrite Hq'. cbn. rewrite <- app_assoc. reflexivity.
    + rewrite Hmem. cbn. unfold sum_with. simpl. lia.
Qed.

(** As many calls of [recv] as there are chunks at the head of the queue. *)
Lemma recvs_run cs ts (w : World BoundedQueue) rest :
  broadcast_status w = InitPtr ->
  code (init_status ch) <= 0 ->
  items (receive_queue w) = (PktChunk <$> cs) ++ rest ->
  exists rs w',
    run_ops ch (replicate (length cs) (OpRecv ts)) w = Some (rs, w')
    /\ received rs = RecvChunk <$> cs
    /\ broadcast_status w' = InitPtr
    /\ heap w' = heap w
    /\ receive_queue w'
       = mkQueue rest (capacity (receive_queue w)) (is_closed (receive_queue w))
    /\ global_memory w'
       = global_memory w - sum_with (fun c => Z.of_N (allocatedBytes c)) cs.
Proof.
  intros Hp Hc. revert w Hp. induction cs as [| c cs IH]; intros w Hp Hitems.
  - exists [], w. split; [reflexivity |]. split; [reflexivity |].
    split; [exact Hp |]. split; [reflexivity |].
    split; [| unfold sum_with; simpl; lia].
    destruct (receive_queue w) as [xs cap cl]; simpl in *. congruence.
  - pose proof (deref_init ch w Hp) as Hs.
    set (q' := mkQueue ((PktChunk <$> cs) ++ rest) (capacity (receive_queue w))
                       (is_closed (receive_queue w))).
    assert (Hq : tryPopUntil (receive_queue w) ts = (Some (PktChunk c), q')).
    { cbn [tryPopUntil BoundedQueue_queue]. unfold bq_tryPopUntil.
      rewrite Hitems. reflexivity. }
    destruct (IH (recv_chunk_world ch c q' w)) as (rs & w' & Hrun & Hrecv & Hp' & Hheap & Hq' & Hmem).
    { unfold recv_chunk_world. destruct (enable_receiver_metrics ch); exact Hp. }
    { unfold recv_chunk_world. destruct (enable_receiver_metrics ch); reflexivity. }
    eexists (_ :: rs), w'. cbn [length replicate run_ops op_prog]. rewrite run_bind_ret.
    rewrite (recv_chunk_run ch ts w _ c q' Hs Hc Hq). rewrite Hrun.
    split; [reflexivity |].
    split; [rewrite received_cons, Hrecv; reflexivity |].
    split; [exact Hp' |].
    split; [rewrite Hheap; unfold recv_chunk_world;
            destruct (enable_receiver_metrics ch); reflexivity |].
    split.
    + rewrite Hq'. unfold recv_chunk_world.
      destruct (enable_receiver_metrics ch); reflexivity.
    + rewrite Hmem. unfold recv_chunk_world, sum_with.
      destruct (enable_receiver_metrics ch); simpl; lia.
Qed.

(** X11.  On the bounded queue: chunks sent into an empty and open
    queue with room for them, on a channel with no status installed whose
    [init_status] has the code [RUNNING], are returned by as many calls of
    [recv] in the order in which they were sent.  Afterwards the queue and the memory budget are what they were,
    and no status is installed. *)
Theorem chunks_arrive_in_order cs ts cap (w : World BoundedQueue) :
  broadcast_status w = InitPtr ->
  code (init_status ch) = RUNNING ->
  receive_queue w = mkQueue [] cap false ->
  (length cs <= cap)%nat ->
  exists rs w',
    run_ops ch ((OpSend <$> cs) ++ replicate (length cs) (OpRecv ts)) w = Some (rs, w')
    /\ received rs = RecvChunk <$> cs
    /\ receive_queue w' = receive_queue w
    /\ global_memory w' = global_memory w
    /\ broadcast_status w' = InitPtr
    /\ heap w' = heap w.
Proof.
  intros Hp Hc Hq Hlen.
  destruct (sends_run cs w Hp Hc) as (rs1 & w1 & Hrun1 & Hrecv1 & _ & Hp1 & Hheap1 & Hq1 & Hmem1).
  { rewrite Hq. reflexivity. }
  { rewrite Hq. simpl. lia. }
  destruct (recvs_run cs ts w1 [] Hp1) as (rs2 & w2 & Hrun2 & Hrecv2 & Hp2 & Hheap2 & Hq2 & Hmem2).
  { rewrite Hc. unfold RUNNING. lia. }
  { rewrite Hq1, Hq. simpl. rewrite app_nil_r. reflexivity. }
  exists (rs1 ++ rs2), w2. rewrite run_ops_app, Hrun1, Hrun2.
  split; [reflexivity |].
  split; [unfold received in *; rewrite omap_app, Hrecv1, Hrecv2; reflexivity |].
  split; [rewrite Hq2, Hq1, Hq; reflexivity |].
  split; [lia |]. split; [exact Hp2 | congruence].
Qed.
End BoundedBalance.

(* ===================================================================== *)
(** ** Calls interleaved: the status objects *)
(* ===================================================================== *)

(** Every status the rest [t] of a call allocates satisfies [P]. *)
Definition allocation (P : BroadcastStatus -> Prop) {B : Type} (c : Cmd B) : Prop :=
  match c with
  | NewStatus st => P st
  | _ => True
  end.

Fixpoint allocates (P : BroadcastStatus -> Prop) {A : Type} (t : Prog A) : Prop :=
  match t with
  | Ret _ => True
  | Vis c k => allocation P c /\ forall b, allocates P (k b)
  end.

Ltac allocates_go :=
  repeat (unfold when;
          cbn [allocates allocation bind call finish finish_won finish_lost
               recv recv_finish sendImpl sendImpl_failed merge op_prog fst snd];
          match goal with
          | x : option MultiPathDataPacket |- _ => destruct x
          | x : MultiPathDataPacket |- _ => destruct x
          | |- forall _, _ => intro
          | |- True => exact I
          | |- _ /\ _ => split
          | |- _ = _ => reflexivity
          | |- allocates _ (if ?x then _ else _) => destruct x
          | |- allocates _ (match ?x with _ => _ end) => destruct x
          | |- allocates _ ?t =>
              match t with
              | context [if ?x then _ else _] => destruct x
              end
          end).

Section Accounting.
Context `{Externals} {Q : Type} `{TransportQueue Q}.
Variable ch : Channel.

(** The status a call passes to [finish], if it comes to call it. *)
Definition call_status (o : Op) : option BroadcastStatus :=
  match o with
  | OpRecv ts =>
      Some (mkBroadcastStatus RECV_TIMEOUT false (recv_timeout_message ch ts))
  | OpSend _ =>
      Some (mkBroadcastStatus SEND_TIMEOUT false (send_timeout_message ch))
  | OpFinish c m => Some (mkBroadcastStatus c false m)
  | OpMerge => None
  end.

Lemma op_allocates o :
  allocates (fun st => call_status o = Some st) (op_prog ch o).
Proof. destruct o as [ts | c | c m |]; cbn [call_status]; allocates_go. Qed.

(** The status objects, while the calls [ops] run on a channel that was
    created with the objects [h0] alive: those of [h0] are untouched; every
    other live object is the candidate of a call in progress or the
    installed status [inst]; a candidate is the status its call passes to
    [finish], and so is the installed status for the call that installed
    it. *)
Record heap_acct (h0 : gmap nat BroadcastStatus) (ops : list Op)
    (inst : option (nat * BroadcastStatus)) (gs : nat -> Phase)
    (h : gmap nat BroadcastStatus) : Prop := mk_heap_acct {
  acct_initial : forall a v, h0 !! a = Some v -> h !! a = Some v;
  acct_cells : forall a v,
      h !! a = Some v ->
      h0 !! a = Some v \/ (exists i, owned (gs i) = Some (a, v)) \/ inst = Some (a, v);
  acct_fresh : forall a v,
      (exists i, owned (gs i) = Some (a, v)) \/ inst = Some (a, v) -> h0 !! a = None;
  acct_cand : forall i a v,
      owned (gs i) = Some (a, v) ->
      exists o, ops !! i = Some o /\ call_status o = Some v;
  acct_won : forall i,
      gs i = Won ->
      exists o q s, inst = Some (q, s) /\ ops !! i = Some o /\ call_status o = Some s;
}.

Lemma owned_update (gs : nat -> Phase) i g j a v :
  owned (<[i := g]> gs j) = Some (a, v) ->
  (j = i /\ owned g = Some (a, v)) \/ (j <> i /\ owned (gs j) = Some (a, v)).
Proof.
  destruct (decide (i = j)) as [<- | Hne].
  - rewrite fn_lookup_insert. auto.
  - rewrite fn_lookup_insert_ne by exact Hne. auto.
Qed.

Lemma acct_same h0 ops inst gs h i g :
  heap_acct h0 ops inst gs h ->
  owned g = owned (gs i) ->
  (g = Won -> gs i = Won) ->
  heap_acct h0 ops inst (<[i := g]> gs) h.
Proof.
  intros [Hini Hcells Hfresh Hcand Hwon] Ho Hw.
  assert (Hold : forall j a v, owned (<[i := g]> gs j) = Some (a, v) ->
                               owned (gs j) = Some (a, v)).
  { intros j a v Hj. apply owned_update in Hj as [[-> Hj] | [_ Hj]]; congruence. }
  split.
  - exact Hini.
  - intros a v Ha. destruct (Hcells a v Ha) as [? | [[j Hj] | ?]]; auto.
    right. left. destruct (decide (i = j)) as [<- | Hne].
    + exists i. rewrite fn_lookup_insert. congruence.
    + exists j. rewrite fn_lookup_insert_ne by exact Hne. exact Hj.
  - intros a v [[j Hj] | Hi]; apply (Hfresh a v); eauto.
  - intros j a v Hj. eapply Hcand, Hold, Hj.
  - intros j. destruct (decide (i = j)) as [<- | Hne].
    + rewrite fn_lookup_insert. intros Hg. apply Hwon, Hw, Hg.
    + rewrite fn_lookup_insert_ne by exact Hne. apply Hwon.
Qed.

Lemma acct_alloc h0 ops inst gs h i o k st :
  heap_acct h0 ops inst gs h ->
  owned (gs i) = None ->
  gs i <> Won ->
  ops !! i = Some o ->
  call_status o = Some st ->
  heap_acct h0 ops inst (<[i := Cand k (fresh (dom h)) st]> gs)
            (<[fresh (dom h) := st]> h).
Proof.
  intros [Hini Hcells Hfresh Hcand Hwon] Ho Hnw Hop Hst.
  assert (Hnew : h !! fresh (dom h) = None) by (apply not_elem_of_dom, is_fresh).
  split.
  - intros a v Ha. rewrite lookup_insert_ne; [apply Hini, Ha |].
    intros <-. apply Hini in Ha. congruence.
  - intros a v. destruct (decide (fresh (dom h) = a)) as [<- | Hne].
    + rewrite lookup_insert_eq. intros [= <-]. right. left.
      exists i. rewrite fn_lookup_insert. reflexivity.
    + rewrite lookup_insert_ne by exact Hne. intros Ha.
      destruct (Hcells a v Ha) as [? | [[j Hj] | ?]]; auto.
      right. left. exists j. rewrite fn_lookup_insert_ne; [exact Hj |].
      intros <-. congruence.
  - intros a v [[j Hj] | Hi]; [| apply (Hfresh a v); auto].
    apply owned_update in Hj as [[-> Hj] | [_ Hj]]; [| apply (Hfresh a v); eauto].
    injection Hj as <- <-.
    destruct (h0 !! fresh (dom h)) as [v |] eqn:E; [| reflexivity].
    apply Hini in E. congruence.
  - intros j a v Hj. apply owned_update in Hj as [[-> Hj] | [_ Hj]].
    + injection Hj as <- <-. eauto.
    + eapply Hcand, Hj.
  - intros j. destruct (decide (i = j)) as [<- | Hne].
    + rewrite fn_lookup_insert. discriminate.
    + rewrite fn_lookup_insert_ne by exact Hne. apply Hwon.
Qed.

Lemma acct_release h0 ops inst gs h i a st :
  heap_acct h0 ops inst gs h ->
  gs i = Lost a st ->
  heap_acct h0 ops inst (<[i := Released]> gs) (delete a h).
Proof.
  intros [Hini Hcells Hfresh Hcand Hwon] Hg.
  assert (Ho : owned (gs i) = Some (a, st)) by (rewrite Hg; reflexivity).
  split.
  - intros a' v Ha. rewrite lookup_delete_ne; [apply Hini, Ha |].
    intros <-. rewrite (Hfresh a st) in Ha by eauto. discriminate.
  - intros a' v. destruct (decide (a = a')) as [<- | Hne].
    + rewrite lookup_delete_eq. discriminate.
    + rewrite lookup_delete_ne by exact Hne. intros Ha.
      destruct (Hcells a' v Ha) as [? | [[j Hj] | ?]]; auto.
      right. left. exists j. rewrite fn_lookup_insert_ne; [exact Hj |].
      intros <-. congruence.
  - intros a' v [[j Hj] | Hi]; [| apply (Hfresh a' v); auto].
    apply owned_update in Hj as [[_ Hj] | [_ Hj]]; [discriminate |].
    apply (Hfresh a' v); eauto.
  - intros j a' v Hj. apply owned_update in Hj as [[_ Hj] | [_ Hj]]; [discriminate |].
    eapply Hcand, Hj.
  - intros j. destruct (decide (i = j)) as [<- | Hne].
    + rewrite fn_lookup_insert. discriminate.
    + rewrite fn_lookup_insert_ne by exact Hne. apply Hwon.
Qed.

Lemma acct_install h0 ops gs h i k a st :
  heap_acct h0 ops None gs h ->
  gs i = Cand k a st ->
  heap_acct h0 ops (Some (a, st)) (<[i := Won]> gs) h.
Proof.
  intros [Hini Hcells Hfresh Hcand Hwon] Hg.
  assert (Ho : owned (gs i) = Some (a, st)) by (rewrite Hg; reflexivity).
  split.
  - exact Hini.
  - intros a' v Ha. destruct (Hcells a' v Ha) as [? | [[j Hj] | ?]]; auto; [| discriminate].
    destruct (decide (i = j)) as [<- | Hne].
    + right. right. congruence.
    + right. left. exists j. rewrite fn_lookup_insert_ne by exact Hne. exact Hj.
  - intros a' v [[j Hj] | [= <- <-]]; [| apply (Hfresh a st); eauto].
    apply owned_update in Hj as [[_ Hj] | [_ Hj]]; [discriminate |].
    apply (Hfresh a' v); eauto.
  - intros j a' v Hj. apply owned_update in Hj as [[_ Hj] | [_ Hj]]; [discriminate |].
    eapply Hcand, Hj.
  - intros j. destruct (decide (i = j)) as [<- | Hne].
    + intros _. destruct (Hcand i a st Ho) as (o & Hop & Hst). eauto 10.
    + rewrite fn_lookup_insert_ne by exact Hne. intros Hj.
      destruct (Hwon j Hj) as (o & q & s & Hinst & _). discriminate.
Qed.

(** One operation of thread [i] that makes no thread the winner keeps the
    account. *)
Lemma acct_step h0 ops inst gs (w w' : World Q) i o q s {B : Type} (c : Cmd B) b g :
  heap_acct h0 ops inst gs (heap w) ->
  ops !! i = Some o ->
  allocation (fun st => call_status o = Some st) c ->
  cmd_ok q (gs i) c ->
  interp ch c w = Some (b, w') ->
  resp ch q s (gs i) c b g ->
  (g = Won -> gs i = Won) ->
  heap_acct h0 ops inst (<[i := g]> gs) (heap w').
Proof.
  intros Hacct Hop Hst Hok Hi Hresp Hw.
  destruct c; cbn [interp cmd_ok resp allocation] in *;
    try (injection Hi as <- <-; subst g; apply acct_same; auto).
  - (* LoadStatus *)
    injection Hi as <- <-.
    destruct Hresp as [[_ ->] | [_ ->]]; apply acct_same; auto;
      destruct (gs i); simpl; congruence.
  - (* Deref *)
    destruct (deref ch w p); simpl in Hi; [| discriminate].
    injection Hi as <- <-. destruct Hresp as [-> _]. apply acct_same; auto.
  - (* NewStatus *)
    injection Hi as <- <-. destruct Hok as [[k Hg] _].
    destruct Hresp as (a & [= <-] & ->). cbn [heap set_heap].
    eapply acct_alloc; eauto; rewrite Hg; [reflexivity | discriminate].
  - (* DeleteStatus *)
    destruct Hok as (a & st & -> & Hg).
    destruct (heap w !! a); simpl in Hi; [| discriminate].
    injection Hi as <- <-. subst g. cbn [heap set_heap].
    eapply acct_release; eauto.
  - (* CasStatus *)
    assert (Hheap : heap w' = heap w).
    { destruct (decide (broadcast_status w = expected));
        injection Hi as <- <-; reflexivity. }
    rewrite Hheap.
    destruct Hresp as [(_ & -> & k & Hg) | (_ & k & a & st & Hg & _ & ->)].
    + rewrite Hg in Hw. discriminate (Hw eq_refl).
    + apply acct_same; auto; rewrite ?Hg; try reflexivity; discriminate.
Qed.

(** The operation that makes a thread the winner is a compare-and-swap. *)
Lemma resp_won_heap q s g {B : Type} (c : Cmd B) b (w w' : World Q) :
  resp ch q s g c b Won ->
  g <> Won ->
  interp ch c w = Some (b, w') ->
  heap w' = heap w.
Proof.
  intros Hresp Hg Hi.
  destruct c; cbn [interp resp] in *;
    try (symmetry in Hresp; contradiction).
  - destruct Hresp as [[_ E] | [_ E]]; [symmetry in E; contradiction |].
    destruct g; discriminate || contradiction.
  - destruct Hresp as [E _]. symmetry in E. contradiction.
  - destruct Hresp as (a & _ & E). discriminate.
  - discriminate.
  - destruct (decide (broadcast_status w = expected));
      injection Hi as <- <-; reflexivity.
Qed.
End Accounting.

Section PoolAccounting.
Context `{Externals} {Q : Type} `{TransportQueue Q}.
Variable ch : Channel.

(** The invariant of the interleaved calls, with the account of the status
    objects. *)
Definition pool_acct (ops : list Op) (h0 : gmap nat BroadcastStatus)
    (cfg : list (Prog OpResult) * World Q) : Prop :=
  length cfg.1 = length ops
  /\ (forall i o t, ops !! i = Some o -> cfg.1 !! i = Some t ->
        allocates (fun st => call_status ch o = Some st) t)
  /\ exists gs,
      (inv_init gs cfg.2
       /\ (forall i o t q s, ops !! i = Some o -> cfg.1 !! i = Some t ->
             ok ch q s (op_post ch s o) t (gs i))
       /\ heap_acct ch h0 ops None gs (heap cfg.2))
      \/ exists q s,
          inv_pub (length ops) q s gs cfg.2
          /\ (forall i o t, ops !! i = Some o -> cfg.1 !! i = Some t ->
                ok ch q s (op_post ch s o) t (gs i))
          /\ heap_acct ch h0 ops (Some (q, s)) gs (heap cfg.2).

Lemma pool_acct_start ops (w : World Q) :
  broadcast_status w = InitPtr ->
  pool_acct ops (heap w) (op_prog ch <$> ops, w).
Proof.
  intros Hp. split; [apply length_fmap |]. split.
  { intros i o t Ho Ht. cbn [fst] in Ht.
    rewrite list_lookup_fmap, Ho in Ht. injection Ht as <-. apply op_allocates. }
  exists (fun _ => Idle false). left. split; [| split].
  - split; [exact Hp |]. split; [| auto].
    split; intros; discriminate.
  - intros i o t q s Ho Ht. cbn [fst] in Ht.
    rewrite list_lookup_fmap, Ho in Ht. injection Ht as <-. apply op_ok.
  - split; cbn [snd].
    + auto.
    + auto.
    + intros a v [[i Hi] | Hi]; discriminate.
    + intros i a v Hi. discriminate.
    + intros i Hi. discriminate.
Qed.

Lemma pool_acct_step ops h0 cfg cfg' :
  pool_acct ops h0 cfg -> pool_step ch cfg cfg' -> pool_acct ops h0 cfg'.
Proof.
  intros (Hlen & Halloc & gs & Hcase) Hstep.
  destruct Hstep as [pool w i t t' w' Hi Hst]. cbn [fst snd] in *.
  assert (Hn : (i < length ops)%nat)
    by (rewrite <- Hlen; eapply lookup_lt_Some, Hi).
  destruct (lookup_lt_is_Some_2 ops i Hn) as [o Ho].
  destruct t as [r | B c k]; [discriminate |]. cbn [step_thread] in Hst.
  destruct (interp ch c w) as [[b w1] |] eqn:Hint; [| discriminate].
  injection Hst as <- <-.
  destruct (Halloc i o _ Ho Hi) as [Hal Hrest].
  assert (Hthread : forall j (o' : Op) (t : Prog OpResult) (P : Op -> Prog OpResult -> nat -> Prop),
             ops !! j = Some o' -> <[i := k b]> pool !! j = Some t ->
             P o (k b) i ->
             (forall t0, pool !! j = Some t0 -> j <> i -> P o' t0 j) ->
             P o' t j).
  { intros j o' t P Ho' Ht Hme Hother.
    destruct (decide (i = j)) as [<- | Hne].
    - rewrite list_lookup_insert_eq in Ht by (eapply lookup_lt_Some, Hi).
      injection Ht as <-. assert (o' = o) as -> by congruence. exact Hme.
    - rewrite list_lookup_insert_ne in Ht by exact Hne. apply Hother; auto. }
  unfold pool_acct. cbn [fst snd].
  split; [rewrite length_insert; exact Hlen |].
  split.
  { intros j o' t Ho' Ht.
    apply (Hthread j o' t (fun o t _ => allocates (fun st => call_status ch o = Some st) t)
             Ho' Ht); [apply Hrest |].
    intros t0 Ht0 _. eapply Halloc; eassumption. }
  destruct Hcase as [(Hinit & Hok & Hacct) | (q & s & Hpub & Hok & Hacct)].
  - pose proof (Hok i o _ 0%nat (init_status ch) Ho Hi) as [Hc _].
    destruct (step_init ch _ gs w w1 i 0%nat c b Hinit Hn Hc Hint)
      as [(g & Hresp & Hinit') | (k0 & a & st & Hg & Hresp & Hpub')].
    + exists (<[i := g]> gs). left. split; [exact Hinit' |]. split.
      * intros j o' t q s Ho' Ht.
        apply (Hthread j o' t (fun o t j => ok ch q s (op_post ch s o) t (<[i := g]> gs j))
                 Ho' Ht).
        -- rewrite fn_lookup_insert. apply (Hok i o _ q s Ho Hi), Hresp.
        -- intros t0 Ht0 Hne. rewrite fn_lookup_insert_ne by auto.
           eapply Hok; eassumption.
      * eapply (acct_step ch _ _ _ _ _ _ _ _ 0%nat (init_status ch)); eauto.
        intros ->. destruct Hinit' as (_ & _ & Hph).
        specialize (Hph i). rewrite fn_lookup_insert in Hph.
        destruct Hph as [Hph | (a & st & Hph)]; discriminate.
    + exists (<[i := Won]> gs). right. exists a, st. split; [exact Hpub' |]. split.
      * intros j o' t Ho' Ht.
        apply (Hthread j o' t (fun o t j => ok ch a st (op_post ch st o) t (<[i := Won]> gs j))
                 Ho' Ht).
        -- rewrite fn_lookup_insert. apply (Hok i o _ a st Ho Hi), Hresp.
        -- intros t0 Ht0 Hne. rewrite fn_lookup_insert_ne by auto.
           eapply Hok; eassumption.
      * rewrite (resp_won_heap ch a st (gs i) c b w w1 Hresp) by
          (rewrite ?Hg; auto; discriminate).
        eapply acct_install; eauto.
  - pose proof (Hok i o _ Ho Hi) as [Hc Hk].
    destruct (step_pub ch _ q s gs w w1 i c b Hpub Hc Hint) as (g & Hresp & Hpub').
    exists (<[i := g]> gs). right. exists q, s. split; [exact Hpub' |]. split.
    + intros j o' t Ho' Ht.
      apply (Hthread j o' t (fun o t j => ok ch q s (op_post ch s o) t (<[i := g]> gs j))
               Ho' Ht).
      * rewrite fn_lookup_insert. apply Hk, Hresp.
      * intros t0 Ht0 Hne. rewrite fn_lookup_insert_ne by auto.
        eapply Hok; eassumption.
    + eapply acct_step; eauto.
      intros ->.
      destruct Hpub as (_ & _ & _ & _ & _ & iw & _ & Hw & _).
      destruct Hpub' as (_ & _ & _ & _ & _ & iw' & _ & _ & Huniq').
      assert (Hi' : i = iw') by (apply Huniq', fn_lookup_insert).
      destruct (decide (i = iw)) as [-> | Hne]; [exact Hw |].
      exfalso. apply Hne. rewrite Hi'. symmetry. apply Huniq'.
      rewrite fn_lookup_insert_ne by exact Hne. exact Hw.
Qed.

Lemma pool_acct_steps ops h0 cfg cfg' :
  pool_acct ops h0 cfg -> rtc (pool_step ch) cfg cfg' -> pool_acct ops h0 cfg'.
Proof.
  intros Hinv Hsteps. induction Hsteps as [| cfg1 cfg2 cfg3 Hstep _ IH]; [exact Hinv |].
  apply IH. eapply pool_acct_step; eassumption.
Qed.

(** A call that has returned holds no candidate. *)
Lemma returned_owns_nothing q s o r g :
  ok ch q s (op_post ch s o) (Ret r) g -> owned g = None.
Proof.
  cbn [ok]. intros [Hg _]. destruct g; try reflexivity; contradiction.
Qed.
End PoolAccounting.

Section MoreConcurrent.
Context `{Externals} {Q : Type} `{TransportQueue Q}.
Variable ch : Channel.


(** X13.  Let threads run calls on a channel with no status
    installed, their atomic operations interleaved in any way.  When all
    calls have returned, the status objects alive are those that were alive
    at the start and, if a status is installed, the installed one, which is
    none of them: every [finish] that failed to install its status has
    deleted it.  The destructor then succeeds and leaves alive exactly the
    objects that were alive at the start. *)
Theorem concurrent_calls_leak_nothing ops (w : World Q) cfg rs :
  broadcast_status w = InitPtr ->
  rtc (pool_step ch) (op_prog ch <$> ops, w) cfg ->
  cfg.1 = Ret <$> rs ->
  match broadcast_status cfg.2 with
  | InitPtr => heap cfg.2 = heap w
  | HeapPtr q => heap w !! q = None /\ exists s, heap cfg.2 = <[q := s]> (heap w)
  end
  /\ exists w' tr,
      run ch (destroy ch) cfg.2 = Some (tt, w', tr)
      /\ heap w' = heap w.
Proof.
  intros Hp Hsteps Hret.
  pose proof (pool_acct_steps ch ops (heap w) _ _ (pool_acct_start ch ops w Hp) Hsteps)
    as (Hlen & _ & gs & Hcase).
  destruct cfg as [pool w1]. cbn [fst snd] in *. subst pool.
  assert (Hnone : forall q s,
             (forall i o t, ops !! i = Some o -> (Ret <$> rs) !! i = Some t ->
                            ok ch q s (op_post ch s o) t (gs i)) ->
             forall inst, heap_acct ch (heap w) ops inst gs (heap w1) ->
             forall i a v, owned (gs i) <> Some (a, v)).
  { intros q s Hok inst Hacct i a v Ho.
    destruct (acct_cand _ _ _ _ _ _ Hacct i a v Ho) as (o & Hop & _).
    assert (Hr : exists r, rs !! i = Some r).
    { apply lookup_lt_is_Some. rewrite length_fmap in Hlen. rewrite Hlen.
      eapply lookup_lt_Some, Hop. }
    destruct Hr as [r Hr].
    assert (Ht : (Ret <$> rs) !! i = Some (Ret r))
      by (rewrite list_lookup_fmap, Hr; reflexivity).
    pose proof (returned_owns_nothing ch q s o r (gs i) (Hok i o _ Hop Ht)).
    congruence. }
  destruct Hcase as [(Hinit & Hok & Hacct) | (q & s & Hpub & Hok & Hacct)].
  - destruct Hinit as (Hbs & _ & _). rewrite Hbs.
    assert (Hheap : heap w1 = heap w).
    { apply map_eq. intros a. apply option_eq. intros v. split.
      - intros Ha. destruct (acct_cells _ _ _ _ _ _ Hacct a v Ha) as [? | [[i Hi] | ?]];
          [assumption | | discriminate].
        exfalso. eapply (Hnone 0%nat (init_status ch)); eauto.
      - apply (acct_initial _ _ _ _ _ _ Hacct). }
    split; [exact Hheap |].
    destruct (destroy_run ch w1 (unpublished_is_live ch w1 Hbs)) as (tr & Hrun & _).
    exists (destroy_world ch w1), tr. split; [exact Hrun |].
    unfold destroy_world. rewrite Hbs.
    destruct (_ && _); exact Hheap.
  - pose proof Hpub as (Hbs & Hq & _). rewrite Hbs.
    assert (Hfresh : heap w !! q = None)
      by (apply (acct_fresh _ _ _ _ _ _ Hacct q s); auto).
    assert (Hheap : heap w1 = <[q := s]> (heap w)).
    { apply map_eq. intros a. apply option_eq. intros v.
      destruct (decide (q = a)) as [<- | Hne].
      - rewrite lookup_insert_eq, Hq. reflexivity.
      - rewrite lookup_insert_ne by exact Hne. split.
        + intros Ha.
          destruct (acct_cells _ _ _ _ _ _ Hacct a v Ha) as [? | [[i Hi] | [= <- <-]]];
            [assumption | | contradiction].
          exfalso. eapply (Hnone q s); eauto.
        + apply (acct_initial _ _ _ _ _ _ Hacct). }
    split; [split; [exact Hfresh | eauto] |].
    destruct (destroy_run ch w1 (published_is_live ch q s w1 (conj Hbs Hq))) as (tr & Hrun & _).
    exists (destroy_world ch w1), tr. split; [exact Hrun |].
    unfold destroy_world. rewrite Hbs.
    destruct (_ && _); cbn [heap set_heap set_query_exchange_log];
      rewrite Hheap; apply delete_insert_id, Hfresh.
Qed.

(** X14.  Let threads run calls on a channel with no status
    installed, their atomic operations interleaved in any way.  In every
    configuration they reach in which a status is installed, it is the
    status one of the calls passes to [finish]: the code and the message of
    a call of [finish], [RECV_TIMEOUT] and the timeout message of a call of
    [recv], or [SEND_TIMEOUT] and the timeout message of a call of
    [sendImpl], with [is_modifer] unset.  Once that call has returned, it has
    returned this status with [is_modifer] set. *)
Theorem concurrent_winner_installs_own_status ops (w : World Q) cfg :
  broadcast_status w = InitPtr ->
  rtc (pool_step ch) (op_prog ch <$> ops, w) cfg ->
  broadcast_status cfg.2 <> InitPtr ->
  exists i o s,
    ops !! i = Some o
    /\ call_status ch o = Some s
    /\ deref ch cfg.2 (broadcast_status cfg.2) = Some s
    /\ forall r, cfg.1 !! i = Some (Ret r) ->
                 result_status r = Some (set_is_modifer true s).
Proof.
  intros Hp Hsteps Hne.
  pose proof (pool_acct_steps ch ops (heap w) _ _ (pool_acct_start ch ops w Hp) Hsteps)
    as (Hlen & _ & gs & Hcase).
  destruct Hcase as [([Hbs _] & _) | (q & s & Hpub & Hok & Hacct)]; [contradiction |].
  pose proof Hpub as (Hbs & Hq & _ & _ & _ & iw & Hiw & Hw & _).
  destruct (acct_won _ _ _ _ _ _ Hacct iw Hw) as (o & q' & s' & [= <- <-] & Hop & Hst).
  exists iw, o, s. split; [exact Hop |]. split; [exact Hst |].
  split; [unfold deref; rewrite Hbs; exact Hq |].
  intros r Hr. pose proof (Hok iw o _ Hop Hr) as [Hpost _].
  rewrite Hw in Hpost. exact Hpost.
Qed.
End MoreConcurrent.

(* ===================================================================== *)
(** ** Calls interleaved: the end of the stream *)
(* ===================================================================== *)

(** The two operations by which [finish] ends the stream: closing the
    queue, and offering it the mark. *)
Definition cmd_is_end {B : Type} (c : Cmd B) : bool :=
  match c with
  | CloseQueue | TryEmplaceUntil _ (PktSendDoneMark _) => true
  | _ => false
  end.

Definition cmd_is_cas {B : Type} (c : Cmd B) : bool :=
  match c with
  | CasStatus _ _ => true
  | _ => false
  end.

Definition is_queue_end (e : Event) : bool :=
  match e with
  | Ev c _ => cmd_is_end c
  end.

(** The rest [t] of a call does not end the stream unless it first issues
    a compare-and-swap. *)
Fixpoint quiet {A : Type} (t : Prog A) : Prop :=
  match t with
  | Ret _ => True
  | Vis c k => cmd_is_end c = false /\ (cmd_is_cas c = false -> forall b, quiet (k b))
  end.

(** The rest [t] of a call ends the stream before it returns, and issues no
    compare-and-swap before it does. *)
Fixpoint pending {A : Type} (t : Prog A) : Prop :=
  match t with
  | Ret _ => False
  | Vis c k => cmd_is_cas c = false /\ (cmd_is_end c = false -> forall b, pending (k b))
  end.

(** What an operation can return: an allocation never returns the address
    of the member [init_status]. *)
Definition returns {B : Type} (c : Cmd B) : B -> Prop :=
  match c in Cmd B return B -> Prop with
  | NewStatus _ => fun p => p <> InitPtr
  | _ => fun _ => True
  end.

(** A compare-and-swap expects the address of [init_status] and offers
    another; the call ends the stream if it succeeds and does not if it
    fails. *)
Definition cas_tidy {A B : Type} (c : Cmd B) : (B -> Prog A) -> Prop :=
  match c in Cmd B return (B -> Prog A) -> Prop with
  | CasStatus e d => fun k =>
      e = InitPtr /\ d <> InitPtr
      /\ (forall p, quiet (k (false, p)))
      /\ (forall p, pending (k (true, p)))
  | _ => fun _ => True
  end.

(** The rest [t] of a call ends the stream at most once for each
    compare-and-swap that succeeds. *)
Fixpoint tidy {A : Type} (t : Prog A) : Prop :=
  match t with
  | Ret _ => True
  | Vis c k =>
      (cmd_is_end c = true -> forall b, quiet (k b))
      /\ cas_tidy c k
      /\ forall b, returns c b -> tidy (k b)
  end.

Ltac tidy_go :=
  repeat (unfold when;
          cbn [tidy quiet pending cas_tidy returns cmd_is_end cmd_is_cas
               bind call finish finish_won finish_lost recv recv_finish
               sendImpl sendImpl_failed merge op_prog fst snd] in *;
          match goal with
          | x : option MultiPathDataPacket |- _ => destruct x
          | x : MultiPathDataPacket |- _ => destruct x
          | |- forall _, _ => intro
          | |- True => exact I
          | |- _ /\ _ => split
          | |- _ = _ => reflexivity
          | |- _ <> _ => assumption
          | H : true = false |- _ => discriminate H
          | H : false = true |- _ => discriminate H
          | |- context [if ?x then _ else _] => destruct x
          | |- context [match ?x with _ => _ end] => destruct x
          end).

Section StreamEnd.
Context `{Externals} {Q : Type} `{TransportQueue Q}.
Variable ch : Channel.

Lemma op_tidy o : tidy (op_prog ch o) /\ quiet (op_prog ch o).
Proof. destruct o as [ts | c | c m |]; tidy_go. Qed.

(** The interleaved calls with the operations they perform: the thread and
    the operation of each step, in order. *)
Inductive pool_trace
  : list (Prog OpResult) * World Q -> list (nat * Event)
    -> list (Prog OpResult) * World Q -> Prop :=
| pool_trace_nil cfg : pool_trace cfg [] cfg
| pool_trace_cons pool w i (B : Type) (c : Cmd B) k b w' l cfg' :
    pool !! i = Some (Vis c k) ->
    interp ch c w = Some (b, w') ->
    pool_trace (<[i := k b]> pool, w') l cfg' ->
    pool_trace (pool, w) ((i, Ev c b) :: l) cfg'.

(** These are the interleavings of [pool_step]. *)
Lemma pool_trace_steps cfg l cfg' :
  pool_trace cfg l cfg' -> rtc (pool_step ch) cfg cfg'.
Proof.
  induction 1 as [cfg | pool w i B c k b w' l cfg' Hi Hint _ IH]; [apply rtc_refl |].
  eapply rtc_l; [| exact IH].
  econstructor; [exact Hi |]. cbn [step_thread]. rewrite Hint. reflexivity.
Qed.

Lemma pool_steps_trace cfg cfg' :
  rtc (pool_step ch) cfg cfg' -> exists l, pool_trace cfg l cfg'.
Proof.
  induction 1 as [cfg | cfg cfg1 cfg' Hstep _ [l IH]]; [exists []; constructor |].
  destruct Hstep as [pool w i t t' w' Hi Hst].
  destruct t as [r | B c k]; [discriminate |]. cbn [step_thread] in Hst.
  destruct (interp ch c w) as [[b w1] |] eqn:Hint; [| discriminate].
  injection Hst as <- <-.
  exists ((i, Ev c b) :: l). econstructor; eassumption.
Qed.

(** The threads named by [sched] perform one operation each, in that order,
    as in [run_schedule]; the operations are listed. *)
Fixpoint trace_schedule (sched : list nat) (cfg : list (Prog OpResult) * World Q)
  : list (nat * Event) * (list (Prog OpResult) * World Q) :=
  match sched with
  | [] => ([], cfg)
  | i :: rest =>
      match cfg.1 !! i with
      | Some (Vis c k) =>
          match interp ch c cfg.2 with
          | Some (b, w') =>
              let r := trace_schedule rest (<[i := k b]> cfg.1, w') in
              ((i, Ev c b) :: r.1, r.2)
          | None => trace_schedule rest cfg
          end
      | _ => trace_schedule rest cfg
      end
  end.

Lemma trace_schedule_trace sched cfg :
  pool_trace cfg (trace_schedule sched cfg).1 (trace_schedule sched cfg).2.
Proof.
  revert cfg. induction sched as [| i rest IH]; intros [pool w];
    cbn [trace_schedule fst snd].
  - constructor.
  - destruct (pool !! i) as [[r | B c k] |] eqn:Hi; try apply IH.
    destruct (interp ch c w) as [[b w'] |] eqn:Hint; [| apply IH].
    cbn [fst snd]. econstructor; [exact Hi | exact Hint | apply IH].
Qed.

Lemma interp_returns {B : Type} (c : Cmd B) b (w w' : World Q) :
  interp ch c w = Some (b, w') -> returns c b.
Proof.
  destruct c; cbn [returns]; try exact (fun _ => I).
  cbn [interp]. intros [= <- _]. discriminate.
Qed.

Lemma interp_no_cas {B : Type} (c : Cmd B) b (w w' : World Q) :
  interp ch c w = Some (b, w') ->
  cmd_is_cas c = false ->
  broadcast_status w' = broadcast_status w.
Proof.
  intros Hi Hc. eapply interp_broadcast_status; [exact Hi |].
  destruct c; try reflexivity; discriminate.
Qed.

(** With [n] the number of times the stream has been ended: it has not
    been ended while no status is installed, and no call is about to end
    it; once a status is installed, it has been ended once, or one call
    will end it, and no other call will. *)
Definition end_inv (n : nat) (cfg : list (Prog OpResult) * World Q) : Prop :=
  (forall i t, cfg.1 !! i = Some t -> tidy t)
  /\ match broadcast_status cfg.2 with
     | InitPtr => n = 0%nat /\ forall i t, cfg.1 !! i = Some t -> quiet t
     | HeapPtr _ =>
         (n = 0%nat
          /\ exists iw t,
              cfg.1 !! iw = Some t /\ pending t
              /\ forall i t', cfg.1 !! i = Some t' -> i <> iw -> quiet t')
         \/ (n = 1%nat /\ forall i t, cfg.1 !! i = Some t -> quiet t)
     end.

Lemma end_inv_start ops (w : World Q) :
  broadcast_status w = InitPtr -> end_inv 0 (op_prog ch <$> ops, w).
Proof.
  intros Hp. unfold end_inv. cbn [fst snd]. rewrite Hp.
  assert (Hall : forall i t, (op_prog ch <$> ops) !! i = Some t -> tidy t /\ quiet t).
  { intros i t Ht. rewrite list_lookup_fmap in Ht.
    destruct (ops !! i) as [o |]; [| discriminate].
    injection Ht as <-. apply op_tidy. }
  split; [intros i t Ht; apply (Hall i t Ht) |].
  split; [reflexivity |]. intros i t Ht; apply (Hall i t Ht).
Qed.

Lemma end_inv_step n pool (w w' : World Q) i {B : Type} (c : Cmd B) k b :
  end_inv n (pool, w) ->
  pool !! i = Some (Vis c k) ->
  interp ch c w = Some (b, w') ->
  end_inv (n + if cmd_is_end c then 1 else 0) (<[i := k b]> pool, w').
Proof.
  intros [Htidy Hcase] Hi Hint. unfold end_inv. cbn [fst snd] in *.
  pose proof (Htidy i _ Hi) as (Hend & Hcas & Hrest).
  assert (Hlt : (i < length pool)%nat) by (eapply lookup_lt_Some, Hi).
  assert (Hupd : forall (P : Prog OpResult -> Prop) j t,
             <[i := k b]> pool !! j = Some t ->
             P (k b) -> (j <> i -> forall t0, pool !! j = Some t0 -> P t0) -> P t).
  { intros P j t Ht Hme Hother. destruct (decide (i = j)) as [<- | Hne].
    - rewrite list_lookup_insert_eq in Ht by exact Hlt. injection Ht as <-. exact Hme.
    - rewrite list_lookup_insert_ne in Ht by exact Hne. apply (Hother (not_eq_sym Hne)), Ht. }
  split.
  { intros j t Ht. apply (Hupd tidy j t Ht).
    - apply Hrest. eapply interp_returns, Hint.
    - intros _ t0 Ht0. eapply Htidy, Ht0. }
  destruct (cmd_is_cas c) eqn:Hc.
  - (* the compare-and-swap *)
    assert (He : cmd_is_end c = false) by (destruct c; try discriminate; reflexivity).
    rewrite He, Nat.add_0_r.
    destruct c; try discriminate. cbn [cas_tidy] in Hcas.
    destruct Hcas as (-> & Hd & Hlost & Hwon). cbn [interp] in Hint.
    destruct (broadcast_status w) as [| a] eqn:Hbs.
    + rewrite decide_True in Hint by reflexivity. injection Hint as <- <-.
      cbn [broadcast_status set_broadcast_status].
      destruct desired as [| a]; [contradiction |].
      destruct Hcase as [-> Hquiet]. left. split; [reflexivity |].
      exists i, (k (true, InitPtr)). split; [apply list_lookup_insert_eq, Hlt |].
      split; [apply Hwon |].
      intros j t Ht Hne. rewrite list_lookup_insert_ne in Ht by auto.
      eapply Hquiet, Ht.
    + rewrite decide_False in Hint by discriminate. injection Hint as <- <-.
      rewrite Hbs.
      destruct Hcase as [(-> & iw & t & Hiw & Hpend & Hquiet) | [-> Hquiet]].
      * left. split; [reflexivity |].
        destruct (decide (i = iw)) as [-> | Hne].
        -- rewrite Hi in Hiw. injection Hiw as <-.
           cbn [pending cmd_is_cas] in Hpend. destruct Hpend as [Hpend _]. discriminate.
        -- exists iw, t. split; [rewrite list_lookup_insert_ne by exact Hne; exact Hiw |].
           split; [exact Hpend |].
           intros j t' Ht' Hj. apply (Hupd quiet j t' Ht'); [apply Hlost |].
           intros _ t0 Ht0. eapply Hquiet; eassumption.
      * right. split; [reflexivity |].
        intros j t' Ht'. apply (Hupd quiet j t' Ht'); [apply Hlost |].
        intros _ t0 Ht0. eapply Hquiet; eassumption.
  - (* another operation *)
    rewrite (interp_no_cas _ _ _ _ Hint Hc).
    destruct (cmd_is_end c) eqn:He.
    + (* the end of the stream *)
      assert (Hnq : ~ quiet (Vis c k)).
      { cbn [quiet]. intros [Hq _]. congruence. }
      destruct (broadcast_status w) as [| a].
      * destruct Hcase as [_ Hquiet]. exfalso. eapply Hnq, Hquiet, Hi.
      * destruct Hcase as [(-> & iw & t & Hiw & Hpend & Hquiet) | [_ Hquiet]];
          [| exfalso; eapply Hnq, Hquiet, Hi].
        right. split; [reflexivity |].
        destruct (decide (i = iw)) as [-> | Hne];
          [| exfalso; eapply Hnq, Hquiet; eassumption].
        intros j t' Ht'. apply (Hupd quiet j t' Ht'); [apply Hend; reflexivity |].
        intros Hj t0 Ht0. eapply Hquiet; eassumption.
    + rewrite Nat.add_0_r.
      assert (Hkeep : quiet (Vis c k) -> quiet (k b)).
      { cbn [quiet]. intros [_ Hq]. apply Hq, Hc. }
      destruct (broadcast_status w) as [| a].
      * destruct Hcase as [-> Hquiet]. split; [reflexivity |].
        intros j t' Ht'. apply (Hupd quiet j t' Ht'); [eapply Hkeep, Hquiet, Hi |].
        intros _ t0 Ht0. eapply Hquiet, Ht0.
      * destruct Hcase as [(-> & iw & t & Hiw & Hpend & Hquiet) | [-> Hquiet]].
        -- left. split; [reflexivity |].
           destruct (decide (i = iw)) as [-> | Hne].
           ++ rewrite Hi in Hiw. injection Hiw as <-.
              exists iw, (k b). split; [apply list_lookup_insert_eq, Hlt |].
              split; [cbn [pending] in Hpend; apply Hpend, He |].
              intros j t' Ht' Hj. rewrite list_lookup_insert_ne in Ht' by auto.
              eapply Hquiet; eassumption.
           ++ exists iw, t. split; [rewrite list_lookup_insert_ne by exact Hne; exact Hiw |].
              split; [exact Hpend |].
              intros j t' Ht' Hj. apply (Hupd quiet j t' Ht').
              ** eapply Hkeep, Hquiet; eassumption.
              ** intros _ t0 Ht0. eapply Hquiet; eassumption.
        -- right. split; [reflexivity |].
           intros j t' Ht'. apply (Hupd quiet j t' Ht'); [eapply Hkeep, Hquiet, Hi |].
           intros _ t0 Ht0. eapply Hquiet, Ht0.
Qed.

Lemma end_inv_trace n cfg l cfg' :
  end_inv n cfg ->
  pool_trace cfg l cfg' ->
  end_inv (n + count_events is_queue_end l.*2) cfg'.
Proof.
  intros Hinv Htrace. revert n Hinv.
  induction Htrace as [cfg | pool w i B c k b w' l cfg' Hi Hint _ IH]; intros n Hinv.
  - cbn. rewrite Nat.add_0_r. exact Hinv.
  - pose proof (IH _ (end_inv_step n pool w w' i c k b Hinv Hi Hint)) as Hfin.
    cbn [fmap list_fmap snd count_events is_queue_end].
    change (list_fmap _ _ snd l) with (l.*2).
    rewrite Nat.add_assoc. exact Hfin.
Qed.

(** X15.  Let threads run calls on a channel with no status
    installed, their atomic operations interleaved in any way.  However far
    they have come, the stream has been ended, by closing the queue or by
    offering it the mark, at most once, and not at all while no status is
    installed.  When all calls have returned and a status is installed, the
    stream has been ended exactly once. *)
Theorem concurrent_stream_ends_once ops (w : World Q) l cfg :
  broadcast_status w = InitPtr ->
  pool_trace (op_prog ch <$> ops, w) l cfg ->
  let ends := count_events is_queue_end l.*2 in
  (ends <= 1)%nat
  /\ (broadcast_status cfg.2 = InitPtr -> ends = 0%nat)
  /\ (forall rs, cfg.1 = Ret <$> rs -> broadcast_status cfg.2 <> InitPtr -> ends = 1%nat).
Proof.
  intros Hp Htrace ends.
  pose proof (end_inv_trace 0 _ _ _ (end_inv_start ops w Hp) Htrace) as [_ Hcase].
  cbn [Nat.add] in Hcase. fold ends in Hcase.
  destruct (broadcast_status cfg.2) as [| a].
  - destruct Hcase as [-> _]. split; [lia |]. split; [reflexivity | contradiction].
  - split; [destruct Hcase as [[-> _] | [-> _]]; lia |].
    split; [discriminate |].
    intros rs Hret _.
    destruct Hcase as [(_ & iw & t & Hiw & Hpend & _) | [-> _]]; [| reflexivity].
    rewrite Hret, list_lookup_fmap in Hiw.
    destruct (rs !! iw); [| discriminate]. injection Hiw as <-. contradiction.
Qed.
End StreamEnd.

(* ===================================================================== *)
(** ** Calls interleaved: calls that start when a status is installed *)
(* ===================================================================== *)

(** The operations of thread [i] among those of all threads. *)
Definition events_of (i : nat) (l : list (nat * Event)) : list Event :=
  omap (fun p => if decide (p.1 = i) then Some p.2 else None) l.

Section Settled.
Variable ch : Channel.
(** The address and the value of the installed status. *)
Variables (q : nat) (s : BroadcastStatus).

(** What the operations on [broadcast_status] return once [s] is installed
    at [q]. *)
Definition settled {B : Type} (c : Cmd B) : B -> Prop :=
  match c in Cmd B return B -> Prop with
  | LoadStatus => fun b => b = HeapPtr q
  | Deref p => fun b => p = HeapPtr q -> b = s
  | CasStatus e _ => fun b => e = InitPtr -> b = (false, HeapPtr q)
  | _ => fun _ => True
  end.

(** The paths of a call on which the operations return this. *)
Fixpoint settled_path {A : Type} (t : Prog A) (tr : list Event) (a : A) : Prop :=
  match t with
  | Ret a' => tr = [] /\ a = a'
  | Vis c k =>
      exists b tr', tr = Ev c b :: tr' /\ settled c b /\ settled_path (k b) tr' a
  end.

Lemma interp_settled {Q : Type} `{TransportQueue Q} {B : Type} (c : Cmd B) b
    (w w' : World Q) :
  broadcast_status w = HeapPtr q ->
  heap w !! q = Some s ->
  interp ch c w = Some (b, w') ->
  settled c b.
Proof.
  intros Hbs Hq. destruct c; cbn [settled interp]; try exact (fun _ => I).
  - intros [= <- _]. exact Hbs.
  - intros Hi ->. unfold deref in Hi. cbn [read_status] in Hi.
    rewrite Hq in Hi. injection Hi as <- _. reflexivity.
  - intros Hi ->. rewrite Hbs in Hi.
    rewrite decide_False in Hi by discriminate. injection Hi as <- _. reflexivity.
Qed.
End Settled.

(** Splits a hypothesis [settled_path q s t tr a] along the program [t]. *)
Ltac settled_cases H :=
  unfold op_prog, recv, sendImpl, merge in H;
  repeat (progress
            (repeat (unfold when in H;
                     cbn [settled_path bind call finish finish_won finish_lost
                          recv_finish sendImpl_failed fst snd] in H;
                     match type of H with
                     | _ = _ /\ _ = _ => destruct H as [-> ->]
                     | exists _, _ =>
                         let b := fresh "b" in
                         let tr := fresh "tr" in
                         let Hr := fresh "Hr" in
                         destruct H as (b & tr & -> & Hr & H);
                         cbn [settled] in Hr;
                         try specialize (Hr eq_refl);
                         try subst b
                     | settled_path _ _ (if ?x then _ else _) _ _ => destruct x eqn:?
                     | settled_path _ _ (match ?x with _ => _ end) _ _ => destruct x
                     | settled_path _ _ ?t _ _ =>
                         match t with
                         | context [if ?x then _ else _] => destruct x eqn:?
                         end
                     end);
             try match goal with
                 | x : option MultiPathDataPacket |- _ => destruct x
                 | x : MultiPathDataPacket |- _ => destruct x
                 end)).

Section AfterInstall.
Context `{Externals} {Q : Type} `{TransportQueue Q}.
Variable ch : Channel.

(** What a thread does in an interleaving that starts with [s] installed at
    [q] is a settled path of its call. *)
Lemma settled_view ops q s cfg l cfg' i t r :
  pool_trace ch cfg l cfg' ->
  pool_pub ch ops q s cfg ->
  cfg.1 !! i = Some t ->
  cfg'.1 !! i = Some (Ret r) ->
  settled_path q s t (events_of i l) r.
Proof.
  intros Htrace. revert t.
  induction Htrace as [cfg | pool w j B c k b w' l cfg' Hj Hint _ IH];
    intros t Hpub Hi Hr.
  - rewrite Hi in Hr. injection Hr as ->. split; reflexivity.
  - assert (Hpub' : pool_pub ch ops q s (<[j := k b]> pool, w')).
    { eapply pool_pub_step; [exact Hpub |].
      econstructor; [exact Hj |]. cbn [step_thread]. rewrite Hint. reflexivity. }
    cbn [fst snd] in *. unfold events_of. cbn [omap list_omap fst snd].
    destruct (decide (j = i)) as [-> | Hne].
    + rewrite Hi in Hj. injection Hj as ->. cbn [settled_path].
      exists b, (events_of i l). split; [reflexivity |]. split.
      * destruct Hpub as (_ & gs & (Hbs & Hq & _) & _).
        eapply interp_settled; eassumption.
      * apply IH; [exact Hpub' | | exact Hr].
        apply list_lookup_insert_eq. eapply lookup_lt_Some, Hi.
    + apply IH; [exact Hpub' | | exact Hr].
      rewrite list_lookup_insert_ne by exact Hne. exact Hi.
Qed.

(** X16.  Let threads run calls on a channel with no status
    installed, their atomic operations interleaved in any way, and let a
    call not have started when the status [s] is installed.  Whatever the
    interleaving from there, when the call has returned: a [finish] has
    returned [s] and has not touched the queue; a [recv] has returned [s]
    without any operation on the queue if the code of [s] is positive, and
    [s] or a chunk it removed, with one transfer of its allocated size,
    otherwise; a [sendImpl] has returned [s] without any operation on the
    queue if the code of [s] is not [RUNNING], and [s] or the status of an
    interrupted send otherwise; a [merge] has thrown. *)
Theorem concurrent_calls_after_install ops (w : World Q) cfg1 l cfg2 i o r s :
  broadcast_status w = InitPtr ->
  rtc (pool_step ch) (op_prog ch <$> ops, w) cfg1 ->
  broadcast_status cfg1.2 <> InitPtr ->
  deref ch cfg1.2 (broadcast_status cfg1.2) = Some s ->
  cfg1.1 !! i = Some (op_prog ch o) ->
  pool_trace ch cfg1 l cfg2 ->
  cfg2.1 !! i = Some (Ret r) ->
  let tr := events_of i l in
  match o with
  | OpRecv ts =>
      if 0 <? code s
      then r = ResRecv (RecvStatus s) /\ queue_ops tr = []
      else r = ResRecv (RecvStatus s)
           \/ exists c, r = ResRecv (RecvChunk c)
                        /\ credit_events tr = [Popped c; ToThread (allocatedBytes c)]
  | OpSend chunk =>
      if code s =? RUNNING
      then r = ResStatus s \/ r = ResStatus send_interrupted
      else r = ResStatus s /\ queue_ops tr = []
  | OpFinish _ _ => r = ResStatus s /\ queue_ops tr = []
  | OpMerge => exists e, r = ResThrow e
  end.
Proof.
  intros Hp Hsteps Hne Hs Hi Htrace Hr tr.
  assert (Hinv : pool_inv ch ops cfg1).
  { eapply pool_inv_steps; [| exact Hsteps]. left. apply pool_inv_start, Hp. }
  destruct Hinv as [(_ & gs & (Hbs & _) & _) | (q & s' & Hpub)]; [contradiction |].
  assert (s' = s) as ->.
  { destruct Hpub as (_ & gs & (Hbs & Hq & _) & _).
    unfold deref in Hs. rewrite Hbs in Hs. cbn [read_status] in Hs. congruence. }
  pose proof (settled_view ops q s cfg1 l cfg2 i _ r Htrace Hpub Hi Hr) as Hpath.
  fold tr in Hpath. clearbody tr. clear - Hpath.
  destruct o as [ts | chunk | c m |]; settled_cases Hpath;
    repeat match goal with
           | E : (0 <? code s) = _ |- _ => rewrite E
           | E : negb (code s =? RUNNING) = true |- _ =>
               apply negb_true_iff in E; rewrite E
           | E : negb (code s =? RUNNING) = false |- _ =>
               apply negb_false_iff in E; rewrite E
           end;
    try congruence; cbn; eauto.
Qed.
End AfterInstall.

(* ===================================================================== *)
(** ** Calls interleaved: progress and the balance of memory credit *)
(* ===================================================================== *)

Section Views.
Context {Q : Type} `{TransportQueue Q}.
Variable ch : Channel.

(** What a thread that has returned did in an interleaving is a path of its
    call. *)
Lemma thread_view cfg l cfg' i (t : Prog OpResult) r :
  pool_trace ch cfg l cfg' ->
  cfg.1 !! i = Some t ->
  cfg'.1 !! i = Some (Ret r) ->
  path t (events_of i l) r.
Proof.
  intros Htrace. revert t.
  induction Htrace as [cfg | pool w j B c k b w' l cfg' Hj Hint _ IH]; intros t Hi Hr.
  - rewrite Hi in Hr. injection Hr as ->. split; reflexivity.
  - cbn [fst snd] in *. unfold events_of. cbn [omap list_omap fst snd].
    destruct (decide (j = i)) as [-> | Hne].
    + rewrite Hi in Hj. injection Hj as ->. cbn [path].
      exists b, (events_of i l). split; [reflexivity |].
      apply IH; [| exact Hr].
      apply list_lookup_insert_eq. eapply lookup_lt_Some, Hi.
    + apply IH; [| exact Hr].
      rewrite list_lookup_insert_ne by exact Hne. exact Hi.
Qed.

(** The threads that act are threads of the pool. *)
Lemma pool_trace_threads cfg l cfg' :
  pool_trace ch cfg l cfg' ->
  length cfg'.1 = length cfg.1
  /\ Forall (fun p => (p.1 < length cfg.1)%nat) l.
Proof.
  induction 1 as [cfg | pool w j B c k b w' l cfg' Hj Hint _ [IHlen IHall]].
  - split; [reflexivity | constructor].
  - cbn [fst snd] in *. rewrite length_insert in IHlen, IHall.
    split; [exact IHlen |]. constructor; [| exact IHall].
    cbn. eapply lookup_lt_Some, Hj.
Qed.

Lemma pool_trace_global_memory cfg l cfg' :
  pool_trace ch cfg l cfg' ->
  global_memory cfg'.2 = global_memory cfg.2 + credited_by l.*2.
Proof.
  induction 1 as [cfg | pool w j B c k b w' l cfg' Hj Hint _ IH].
  - unfold credited_by, sum_with. simpl. lia.
  - cbn [fst snd] in *. rewrite IH, (interp_global_memory ch _ _ _ _ Hint).
    unfold credited_by, credit_events. cbn [fmap list_fmap snd omap list_omap].
    change (list_fmap _ _ snd l) with (l.*2).
    destruct (credit_event (Ev c b)) as [e |]; cbn [from_option]; [| lia].
    change (sum_with credit_delta (e :: omap credit_event l.*2))
      with (credit_delta e + sum_with credit_delta (omap credit_event l.*2)).
    lia.
Qed.
End Views.

(** A sum over the operations of an interleaving is the sum, over the
    threads, of the sums over the operations of each. *)
Lemma sum_by_thread (d : Event -> Z) (n : nat) (l : list (nat * Event)) :
  Forall (fun p => (p.1 < n)%nat) l ->
  sum_with d l.*2 = sum_with (fun i => sum_with d (events_of i l)) (seq 0 n).
Proof.
  intros Hall. induction Hall as [| [j e] l Hj _ IH].
  - induction (seq 0 n) as [| i js IHjs]; [reflexivity |].
    unfold sum_with, events_of in *. simpl in *. lia.
  - cbn [fmap list_fmap snd].
    change (sum_with d (e :: l.*2)) with (d e + sum_with d l.*2).
    rewrite IH. cbn [fst] in Hj.
    assert (Hsplit : forall js,
               NoDup js ->
               sum_with (fun i => sum_with d (events_of i ((j, e) :: l))) js
               = (if decide (j ∈ js) then d e else 0)
                 + sum_with (fun i => sum_with d (events_of i l)) js).
    { induction js as [| i js IHjs]; intros Hnd.
      - rewrite decide_False by apply not_elem_of_nil. reflexivity.
      - apply NoDup_cons in Hnd as [Hi Hnd].
        change (sum_with d (events_of i ((j, e) :: l))
                + sum_with (fun i => sum_with d (events_of i ((j, e) :: l))) js
                = (if decide (j ∈ i :: js) then d e else 0)
                  + (sum_with d (events_of i l)
                     + sum_with (fun i => sum_with d (events_of i l)) js)).
        rewrite (IHjs Hnd). unfold events_of at 1. cbn [omap list_omap fst snd].
        destruct (decide (j = i)) as [-> | Hne].
        + destruct (decide (i ∈ i :: js)) as [_ | Hn];
            [| exfalso; apply Hn, list_elem_of_here].
          destruct (decide (i ∈ js)) as [Hin | _]; [contradiction |].
          fold (events_of i l).
          change (sum_with d (e :: events_of i l)) with (d e + sum_with d (events_of i l)).
          lia.
        + fold (events_of i l).
          destruct (decide (j ∈ js)) as [Hin | Hnin],
                   (decide (j ∈ i :: js)) as [Hin' | Hnin']; try lia.
          * exfalso. apply Hnin', list_elem_of_further, Hin.
          * exfalso. apply elem_of_cons in Hin' as [-> | Hin']; contradiction. }
    rewrite (Hsplit (seq 0 n) (NoDup_seq 0 n)).
    rewrite decide_True; [lia |]. apply elem_of_seq. lia.
Qed.

Section ConcurrentBalance.
Context `{Externals} {Q : Type} `{TransportQueue Q}.
Variable ch : Channel.

Lemma credited_is_queued ops l (cfg cfg' : list (Prog OpResult) * World Q) rs :
  cfg.1 = op_prog ch <$> ops ->
  pool_trace ch cfg l cfg' ->
  cfg'.1 = Ret <$> rs ->
  credited_by l.*2 = queued_by l.*2.
Proof.
  intros Hstart Htrace Hret.
  destruct (pool_trace_threads ch _ _ _ Htrace) as [Hlen Hall].
  set (g := fun d e => from_option d 0 (credit_event e)).
  assert (Hsum : forall d l0, sum_with d (credit_events l0) = sum_with (g d) l0).
  { intros d l0. induction l0 as [| e l0 IH]; [reflexivity |].
    unfold credit_events in *. cbn [omap list_omap].
    change (sum_with (g d) (e :: l0)) with (g d e + sum_with (g d) l0).
    rewrite <- IH. unfold g.
    destruct (credit_event e) as [x |]; reflexivity. }
  unfold credited_by, queued_by. rewrite !Hsum.
  rewrite !(sum_by_thread _ (length cfg.1) l Hall).
  induction (seq 0 (length cfg.1)) as [| i js IHjs]; [reflexivity |].
  change (sum_with (g credit_delta) (events_of i l)
          + sum_with (fun i => sum_with (g credit_delta) (events_of i l)) js
          = sum_with (g chunk_delta) (events_of i l)
            + sum_with (fun i => sum_with (g chunk_delta) (events_of i l)) js).
  rewrite IHjs. f_equal. rewrite <- !Hsum.
  destruct (cfg.1 !! i) as [t |] eqn:Hi.
  - assert (Hr : exists r, cfg'.1 !! i = Some (Ret r)).
    { rewrite Hret, list_lookup_fmap.
      destruct (rs !! i) as [r |] eqn:Hri; [eauto |].
      apply lookup_ge_None in Hri. apply lookup_lt_Some in Hi.
      rewrite Hret, length_fmap in Hlen. lia. }
    destruct Hr as [r Hr].
    pose proof (thread_view ch _ _ _ _ _ _ Htrace Hi Hr) as Hpath.
    rewrite Hstart, list_lookup_fmap in Hi.
    destruct (ops !! i) as [o |]; [| discriminate]. injection Hi as <-.
    apply (op_path_balance ch o _ r Hpath).
  - assert (Hnone : events_of i l = []).
    { apply lookup_ge_None in Hi. clear - Hall Hi.
      induction Hall as [| [j e] l Hj _ IH]; [reflexivity |].
      unfold events_of in *. cbn [omap list_omap fst snd] in *.
      rewrite decide_False by lia. exact IH. }
    rewrite Hnone. reflexivity.
Qed.

(** X17.  Let threads run calls on a channel, their atomic operations
    interleaved in any way.  When all calls have returned, the memory budget
    has grown by the allocated bytes of each chunk that was inserted and has
    shrunk by those of each chunk that was removed: every chunk that changed
    hands is matched by its transfer, and no other transfer was made. *)
Theorem concurrent_memory_follows_chunks ops (w : World Q) l cfg rs :
  pool_trace ch (op_prog ch <$> ops, w) l cfg ->
  cfg.1 = Ret <$> rs ->
  global_memory cfg.2 = global_memory w + queued_by l.*2.
Proof.
  intros Htrace Hret.
  rewrite (pool_trace_global_memory ch _ _ _ Htrace). cbn [snd]. f_equal.
  exact (credited_is_queued ops l (op_prog ch <$> ops, w) cfg rs eq_refl Htrace Hret).
Qed.

End ConcurrentBalance.

Section ConcurrentBounded.
Context `{Externals}.
Variable ch : Channel.

Lemma pool_trace_queued_bytes (cfg cfg' : list (Prog OpResult) * World BoundedQueue) l :
  pool_trace ch cfg l cfg' ->
  is_closed (receive_queue cfg'.2) = false ->
  is_closed (receive_queue cfg.2) = false
  /\ queued_bytes (receive_queue cfg'.2)
     = queued_bytes (receive_queue cfg.2) + queued_by l.*2.
Proof.
  induction 1 as [cfg | pool w j B c k b w' l cfg' Hj Hint _ IH]; intros Hcl.
  - split; [exact Hcl |]. unfold queued_by, sum_with. simpl. lia.
  - cbn [fst snd] in *. destruct (IH Hcl) as [Hcl1 Hq1].
    destruct (interp_queued_bytes ch _ _ _ _ Hint Hcl1) as [Hcl0 Hq0].
    split; [exact Hcl0 |]. rewrite Hq1, Hq0.
    unfold queued_by, credit_events. cbn [fmap list_fmap snd omap list_omap].
    change (list_fmap _ _ snd l) with (l.*2).
    destruct (credit_event (Ev c b)) as [e |]; cbn [from_option]; [| lia].
    change (sum_with chunk_delta (e :: omap credit_event l.*2))
      with (chunk_delta e + sum_with chunk_delta (omap credit_event l.*2)).
    lia.
Qed.

(** X18.  On the bounded queue, with the atomic operations of the
    calls interleaved in any way: when all calls have returned and the queue
    is open, the memory budget less the allocated bytes of the chunks in the
    queue is what it was at the start. *)
Theorem concurrent_memory_credit_conserved ops (w : World BoundedQueue) l cfg rs :
  pool_trace ch (op_prog ch <$> ops, w) l cfg ->
  cfg.1 = Ret <$> rs ->
  is_closed (receive_queue cfg.2) = false ->
  global_memory cfg.2 - queued_bytes (receive_queue cfg.2)
  = global_memory w - queued_bytes (receive_queue w).
Proof.
  intros Htrace Hret Hcl.
  destruct (pool_trace_queued_bytes _ _ _ Htrace Hcl) as [_ Hq].
  rewrite (pool_trace_global_memory ch _ _ _ Htrace), Hq. cbn [snd].
  rewrite (credited_is_queued ch ops l (op_prog ch <$> ops, w) cfg rs eq_refl Htrace Hret).
  lia.
Qed.
End ConcurrentBounded.

(* ===================================================================== *)
(** ** Calls interleaved: the order of the queue *)
(* ===================================================================== *)

Section QueueDiscipline.
Variable ch : Channel.
(** The address and the value of the status that is installed, if one is. *)
Variables (q : nat) (s : BroadcastStatus).

(** What a thread in a phase may do to the queue: only the thread that
    installed [s] closes it, and only if the code of [s] is positive; only
    that thread offers anything but a chunk, namely the mark with the name
    of the channel, until [max_timeout_ts], and only if the code of [s] is
    not positive. *)
Definition queue_cmd_ok {B : Type} (g : Phase) (c : Cmd B) : Prop :=
  match c with
  | CloseQueue => g = Won /\ 0 < code s
  | TryEmplaceUntil ts x =>
      match x with
      | PktChunk _ => True
      | _ => g = Won /\ code s <= 0
             /\ ts = max_timeout_ts (options ch) /\ x = PktSendDoneMark (name ch)
      end
  | _ => True
  end.

(** The rest [t] of a call keeps to this, whatever its operations return. *)
Fixpoint queue_ok {A : Type} (t : Prog A) (g : Phase) : Prop :=
  match t with
  | Ret _ => True
  | Vis c k => queue_cmd_ok g c /\ forall b g', resp ch q s g c b g' -> queue_ok (k b) g'
  end.
End QueueDiscipline.

Ltac queue_ok_go :=
  repeat (unfold when;
          cbn beta;
          cbn [queue_ok queue_cmd_ok bind call finish finish_won finish_lost
               recv recv_finish sendImpl sendImpl_failed merge op_prog
               fst snd resp knows owned learn] in *;
          first [ match goal with
                  | H : _ /\ _ |- _ => destruct H
                  | H : _ \/ _ |- _ => destruct H
                  | H : exists _, _ |- _ => destruct H
                  | _ => progress simplify_eq
                  end
                | match goal with
                  | x : option MultiPathDataPacket |- _ => destruct x
                  | x : MultiPathDataPacket |- _ => destruct x
                  end
                | match goal with
                  | |- _ /\ _ => split
                  | |- forall _, _ => intro
                  | |- True => exact I
                  | |- queue_ok _ _ _ (if ?x then _ else _) _ => destruct x eqn:?
                  | |- queue_ok _ _ _ (match ?x with _ => _ end) _ => destruct x
                  | |- queue_ok _ _ _ ?t _ =>
                      match t with
                      | context [if ?x then _ else _] => destruct x eqn:?
                      end
                  end ]).

Section QueueTyping.
Context `{Externals}.
Variable ch : Channel.
Variables (q : nat) (s : BroadcastStatus).

Lemma op_queue_ok o : queue_ok ch q s (op_prog ch o) (Idle false).
Proof.
  destruct o as [ts | c | c m |]; queue_ok_go.
  all: try reflexivity.
  all: try (apply Z.ltb_lt; assumption).
  all: try (apply Z.ltb_ge; assumption).
Qed.
End QueueTyping.

(** An operation of a thread that has not installed a status: it does not
    close the queue and offers it nothing but chunks. *)
Definition cmd_calm {B : Type} (c : Cmd B) : Prop :=
  match c with
  | CloseQueue => False
  | TryEmplaceUntil _ x => match x with PktChunk _ => True | _ => False end
  | _ => True
  end.

Definition calm (e : Event) : Prop :=
  match e with
  | Ev c _ => cmd_calm c
  end.

(** An operation on a channel that is not closed hard: it does not close
    the queue, and offers it a chunk, or the mark with the name of the
    channel until [max_timeout_ts]. *)
Definition cmd_graceful (ch : Channel) {B : Type} (c : Cmd B) : Prop :=
  match c with
  | CloseQueue => False
  | TryEmplaceUntil ts x =>
      match x with
      | PktChunk _ => True
      | _ => ts = max_timeout_ts (options ch) /\ x = PktSendDoneMark (name ch)
      end
  | _ => True
  end.

Definition graceful (ch : Channel) (e : Event) : Prop :=
  match e with
  | Ev c _ => cmd_graceful ch c
  end.

Lemma calm_graceful ch e : calm e -> graceful ch e.
Proof.
  destruct e as [B c b]. cbn [calm graceful].
  destruct c; cbn [cmd_calm cmd_graceful]; try exact (fun x => x).
  destruct x; [exact (fun x => x) | contradiction | contradiction].
Qed.

Section QueuePool.
Context `{Externals} {Q : Type} `{TransportQueue Q}.
Variable ch : Channel.

(** [pool_init] and [pool_pub], with what the threads may do to the
    queue. *)
Definition queue_init (ops : list Op) (cfg : list (Prog OpResult) * World Q) : Prop :=
  length cfg.1 = length ops
  /\ exists gs,
      inv_init gs cfg.2
      /\ forall i o t q s,
           ops !! i = Some o -> cfg.1 !! i = Some t ->
           ok ch q s (op_post ch s o) t (gs i) /\ queue_ok ch q s t (gs i).

Definition queue_pub (ops : list Op) (q : nat) (s : BroadcastStatus)
    (cfg : list (Prog OpResult) * World Q) : Prop :=
  length cfg.1 = length ops
  /\ exists gs,
      inv_pub (length ops) q s gs cfg.2
      /\ forall i o t,
           ops !! i = Some o -> cfg.1 !! i = Some t ->
           ok ch q s (op_post ch s o) t (gs i) /\ queue_ok ch q s t (gs i).

Lemma queue_init_start ops (w : World Q) :
  broadcast_status w = InitPtr ->
  queue_init ops (op_prog ch <$> ops, w).
Proof.
  intros Hp. split; [apply length_fmap |].
  exists (fun _ => Idle false). split.
  - split; [exact Hp |]. split; [| auto].
    split; intros; discriminate.
  - intros i o t q s Ho Ht. cbn [fst] in Ht.
    rewrite list_lookup_fmap, Ho in Ht. injection Ht as <-.
    split; [apply op_ok | apply op_queue_ok].
Qed.

Lemma queue_pub_installed ops q s cfg :
  queue_pub ops q s cfg ->
  broadcast_status cfg.2 = HeapPtr q /\ deref ch cfg.2 (broadcast_status cfg.2) = Some s.
Proof.
  intros (_ & gs & (Hbs & Hq & _) & _). split; [exact Hbs |].
  rewrite Hbs. exact Hq.
Qed.

Lemma queue_pub_step ops q s pool (w w' : World Q) i {B : Type} (c : Cmd B) k b :
  queue_pub ops q s (pool, w) ->
  pool !! i = Some (Vis c k) ->
  interp ch c w = Some (b, w') ->
  queue_pub ops q s (<[i := k b]> pool, w')
  /\ (code s <= 0 -> cmd_graceful ch c).
Proof.
  intros (Hlen & gs & Hpub & Hok) Hi Hint. cbn [fst snd] in *.
  destruct (ops !! i) as [o |] eqn:Ho;
    [| apply lookup_ge_None in Ho; apply lookup_lt_Some in Hi; lia].
  destruct (Hok i o _ Ho Hi) as [[Hc Hk] [Hqc Hqk]].
  destruct (step_pub ch _ q s gs w w' i c b Hpub Hc Hint) as (g & Hresp & Hpub').
  split.
  - split; [cbn [fst]; rewrite length_insert; exact Hlen |]. cbn [fst snd].
    exists (<[i := g]> gs). split; [exact Hpub' |].
    intros j o' t Ho' Ht.
    destruct (decide (i = j)) as [<- | Hne].
    + rewrite list_lookup_insert_eq in Ht by (eapply lookup_lt_Some, Hi).
      injection Ht as <-. rewrite fn_lookup_insert.
      assert (o' = o) as -> by congruence.
      split; [apply Hk, Hresp | apply Hqk, Hresp].
    + rewrite list_lookup_insert_ne in Ht by exact Hne.
      rewrite fn_lookup_insert_ne by exact Hne. eapply Hok; eassumption.
  - intros Hs. clear - Hqc Hs.
    destruct c; cbn [queue_cmd_ok cmd_graceful] in *; try exact I.
    + destruct x; [exact I | |]; destruct Hqc as (_ & _ & Hts & Hx); auto.
    + destruct Hqc as [_ Hpos]. lia.
Qed.

Lemma queue_init_step ops pool (w w' : World Q) i {B : Type} (c : Cmd B) k b :
  queue_init ops (pool, w) ->
  pool !! i = Some (Vis c k) ->
  interp ch c w = Some (b, w') ->
  cmd_calm c
  /\ (queue_init ops (<[i := k b]> pool, w')
      \/ exists q s, queue_pub ops q s (<[i := k b]> pool, w')).
Proof.
  intros (Hlen & gs & Hinit & Hok) Hi Hint. cbn [fst snd] in *.
  assert (Hn : (i < length ops)%nat).
  { rewrite <- Hlen. eapply lookup_lt_Some, Hi. }
  destruct (ops !! i) as [o |] eqn:Ho;
    [| apply lookup_ge_None in Ho; lia].
  assert (Hlen' : length (<[i := k b]> pool) = length ops)
    by (rewrite length_insert; exact Hlen).
  destruct (Hok i o _ 0%nat (init_status ch) Ho Hi) as [[Hc _] [Hqc _]].
  split.
  { destruct Hinit as (_ & _ & Hphase).
    clear - Hqc Hphase.
    destruct c; cbn [queue_cmd_ok cmd_calm] in *; try exact I.
    - destruct x; [exact I | |]; destruct Hqc as (Hw & _);
        destruct (Hphase i) as [Hg | (a & st & Hg)]; congruence.
    - destruct Hqc as (Hw & _).
      destruct (Hphase i) as [Hg | (a & st & Hg)]; congruence. }
  destruct (step_init ch _ gs w w' i 0%nat c b Hinit Hn Hc Hint)
    as [(g & Hresp & Hinit') | (k0 & a & st & Hg & Hresp & Hpub')].
  - left. split; [exact Hlen' |]. exists (<[i := g]> gs). split; [exact Hinit' |].
    intros j o' t q s Ho' Ht. cbn [fst] in Ht.
    destruct (decide (i = j)) as [<- | Hne].
    + rewrite list_lookup_insert_eq in Ht by (eapply lookup_lt_Some, Hi).
      injection Ht as <-. rewrite fn_lookup_insert.
      assert (o' = o) as -> by congruence.
      destruct (Hok i o _ q s Ho Hi) as [[_ Hk] [_ Hqk]].
      split; [apply Hk, Hresp | apply Hqk, Hresp].
    + rewrite list_lookup_insert_ne in Ht by exact Hne.
      rewrite fn_lookup_insert_ne by exact Hne. eapply Hok; eassumption.
  - right. exists a, st. split; [exact Hlen' |].
    exists (<[i := Won]> gs). split; [exact Hpub' |].
    intros j o' t Ho' Ht. cbn [fst] in Ht.
    destruct (decide (i = j)) as [<- | Hne].
    + rewrite list_lookup_insert_eq in Ht by (eapply lookup_lt_Some, Hi).
      injection Ht as <-. rewrite fn_lookup_insert.
      assert (o' = o) as -> by congruence.
      destruct (Hok i o _ a st Ho Hi) as [[_ Hk] [_ Hqk]].
      split; [apply Hk, Hresp | apply Hqk, Hresp].
    + rewrite list_lookup_insert_ne in Ht by exact Hne.
      rewrite fn_lookup_insert_ne by exact Hne. eapply Hok; eassumption.
Qed.

(** With [s] installed, the threads keep to the discipline; if the code of
    [s] is not positive, no operation closes the queue. *)
Lemma queue_pub_trace ops q s cfg l cfg' :
  queue_pub ops q s cfg ->
  pool_trace ch cfg l cfg' ->
  queue_pub ops q s cfg' /\ (code s <= 0 -> Forall (graceful ch) l.*2).
Proof.
  intros Hpub Htrace.
  induction Htrace as [cfg | pool w i B c k b w' l cfg' Hi Hint _ IH].
  - split; [exact Hpub | constructor].
  - destruct (queue_pub_step _ _ _ _ _ _ _ _ _ _ Hpub Hi Hint) as [Hpub' Hc].
    destruct (IH Hpub') as [Hfin Hall]. split; [exact Hfin |].
    intros Hs. constructor; [exact (Hc Hs) | exact (Hall Hs)].
Qed.

(** With no status installed at the start: as long as none is installed,
    the operations are calm. *)
Lemma queue_init_trace ops cfg l cfg' :
  queue_init ops cfg ->
  pool_trace ch cfg l cfg' ->
  (queue_init ops cfg' /\ Forall calm l.*2)
  \/ exists q s, queue_pub ops q s cfg' /\ (code s <= 0 -> Forall (graceful ch) l.*2).
Proof.
  intros Hinit Htrace.
  induction Htrace as [cfg | pool w i B c k b w' l cfg' Hi Hint Htrace IH].
  - left. split; [exact Hinit | constructor].
  - destruct (queue_init_step _ _ _ _ _ _ _ _ Hinit Hi Hint)
      as [Hc [Hinit' | (q & s & Hpub')]].
    + destruct (IH Hinit') as [[Hfin Hall] | (q & s & Hfin & Hall)].
      * left. split; [exact Hfin |]. constructor; [exact Hc | exact Hall].
      * right. exists q, s. split; [exact Hfin |]. intros Hs.
        constructor; [apply (calm_graceful ch (Ev c b)), Hc | exact (Hall Hs)].
    + right. exists q, s.
      destruct (queue_pub_trace _ _ _ _ _ _ Hpub' Htrace) as [Hfin Hall].
      split; [exact Hfin |]. intros Hs.
      constructor; [apply (calm_graceful ch (Ev c b)), Hc | exact (Hall Hs)].
Qed.

Lemma pool_trace_app cfg l cfg1 l' cfg2 :
  pool_trace ch cfg l cfg1 -> pool_trace ch cfg1 l' cfg2 ->
  pool_trace ch cfg (l ++ l') cfg2.
Proof.
  induction 1 as [cfg | pool w i B c k b w' l cfg1 Hi Hint _ IH]; intros Hrest.
  - exact Hrest.
  - cbn [app]. econstructor; [exact Hi | exact Hint | apply IH, Hrest].
Qed.

Lemma pool_trace_app_inv cfg l l' cfg2 :
  pool_trace ch cfg (l ++ l') cfg2 ->
  exists cfg1, pool_trace ch cfg l cfg1 /\ pool_trace ch cfg1 l' cfg2.
Proof.
  revert cfg. induction l as [| [i e] l IH]; intros cfg Htrace.
  - exists cfg. split; [constructor | exact Htrace].
  - cbn [app] in Htrace. inversion Htrace as [| pool w i0 B c k b w' l0 cfg' Hi Hint Hrest]; subst.
    destruct (IH _ Hrest) as (cfg1 & H1 & H2).
    exists cfg1. split; [econstructor; eassumption | exact H2].
Qed.
End QueuePool.

(** The items the operations put into the queue and took out of it, in
    order. *)
Definition inserted_item (e : Event) : option MultiPathDataPacket :=
  match e with
  | Ev c b =>
      match c in Cmd B return B -> option MultiPathDataPacket with
      | TryEmplaceUntil _ x => fun ok : bool => if ok then Some x else None
      | _ => fun _ => None
      end b
  end.

(** What a removal returned. *)
Definition pop_result (e : Event) : option (option MultiPathDataPacket) :=
  match e with
  | Ev c b =>
      match c in Cmd B return B -> option (option MultiPathDataPacket) with
      | TryPopUntil _ => fun r => Some r
      | _ => fun _ => None
      end b
  end.

(** What an insertion returned. *)
Definition emplace_result (e : Event) : option bool :=
  match e with
  | Ev c b =>
      match c in Cmd B return B -> option bool with
      | TryEmplaceUntil _ _ => fun r => Some r
      | _ => fun _ => None
      end b
  end.

Definition removed_item (e : Event) : option MultiPathDataPacket :=
  r ← pop_result e; r.

Definition inserted (tr : list Event) : list MultiPathDataPacket := omap inserted_item tr.
Definition removed (tr : list Event) : list MultiPathDataPacket := omap removed_item tr.

Definition chunk_of (x : MultiPathDataPacket) : option Chunk :=
  match x with
  | PktChunk c => Some c
  | _ => None
  end.

Definition inserted_chunks (tr : list Event) : list Chunk := omap chunk_of (inserted tr).
Definition removed_chunks (tr : list Event) : list Chunk := omap chunk_of (removed tr).

(** The operations that end the stream, with what they returned. *)
Definition end_op (e : Event) : option QueueOp :=
  if is_queue_end e then queue_op e else None.

Definition end_ops (tr : list Event) : list QueueOp := omap end_op tr.

(** A compare-and-swap that succeeded. *)
Definition is_won_cas (e : Event) : bool :=
  match e with
  | Ev c b =>
      match c in Cmd B return B -> bool with
      | CasStatus _ _ => fun r => fst r
      | _ => fun _ => false
      end b
  end.

Lemma omap_chunk_of (cs : list Chunk) : omap chunk_of (PktChunk <$> cs) = cs.
Proof. induction cs as [| c cs IH]; [reflexivity |]. cbn. rewrite IH. reflexivity. Qed.

Lemma omap_prefix {A B : Type} (f : A -> option B) (l k : list A) :
  l `prefix_of` k -> omap f l `prefix_of` omap f k.
Proof. intros [t ->]. rewrite omap_app. eexists. reflexivity. Qed.

(** What is ahead of an item that is no chunk, or is all there is, contains
    any chunks that lead the whole. *)
Lemma chunks_lead (a x c : list MultiPathDataPacket) (bs : list Chunk) :
  a ++ x = (PktChunk <$> bs) ++ c ->
  head x ≫= chunk_of = None ->
  (PktChunk <$> bs) `prefix_of` a.
Proof.
  intros Heq Hx. apply app_eq_inv in Heq as [(k & -> & _) | (k & Hb & ->)].
  - eexists. reflexivity.
  - destruct k as [| y k]; [rewrite app_nil_r in Hb; rewrite Hb; reflexivity |].
    exfalso. cbn in Hx.
    assert (Hin : y ∈ PktChunk <$> bs).
    { rewrite Hb. apply elem_of_app. right. apply list_elem_of_here. }
    apply list_elem_of_fmap in Hin as (c0 & -> & _). discriminate.
Qed.

Lemma calm_events tr :
  Forall calm tr ->
  end_ops tr = [] /\ inserted tr = PktChunk <$> inserted_chunks tr.
Proof.
  induction 1 as [| [B c b] tr Hc _ [IHe IHi]]; [split; reflexivity |].
  unfold end_ops, inserted, inserted_chunks in *. cbn [omap list_omap].
  destruct c; cbn [calm cmd_calm] in Hc;
    cbn [end_op is_queue_end cmd_is_end inserted_item]; try (split; assumption);
    try contradiction.
  destruct x; try contradiction.
  split; [exact IHe |].
  destruct b; [| exact IHi].
  cbn. f_equal. exact IHi.
Qed.

Section Graceful.
Variable ch : Channel.

Lemma graceful_events tr :
  Forall (graceful ch) tr ->
  length (end_ops tr) = count_events is_queue_end tr
  /\ Forall (fun o => exists b,
                 o = QEmplace (max_timeout_ts (options ch)) (PktSendDoneMark (name ch)) b)
            (end_ops tr).
Proof.
  induction 1 as [| [B c b] tr Hc _ [IHn IHa]]; [split; [reflexivity | constructor] |].
  unfold end_ops in *. cbn [omap list_omap count_events].
  destruct c; cbn [graceful cmd_graceful] in Hc;
    cbn [end_op is_queue_end cmd_is_end queue_op]; try (split; assumption);
    try contradiction.
  destruct x; [split; assumption | |]; destruct Hc as [-> Hx]; [| discriminate].
  injection Hx as ->. cbn [end_op is_queue_end cmd_is_end queue_op length].
  split; [rewrite IHn; reflexivity |].
  constructor; [eexists; reflexivity | exact IHa].
Qed.
End Graceful.

Lemma events_of_split i l tr1 e tr2 :
  events_of i l = tr1 ++ e :: tr2 ->
  exists la lb, l = la ++ (i, e) :: lb /\ events_of i la = tr1 /\ events_of i lb = tr2.
Proof.
  revert tr1. induction l as [| [j e'] l IH]; intros tr1 Heq.
  - destruct tr1; discriminate.
  - unfold events_of in Heq. cbn [omap list_omap fst snd] in Heq.
    fold (events_of i l) in Heq.
    destruct (decide (j = i)) as [-> | Hne].
    + destruct tr1 as [| x tr1]; cbn [app] in Heq; injection Heq as -> Heq.
      * exists [], l. split; [reflexivity |]. split; [reflexivity | exact Heq].
      * destruct (IH _ Heq) as (la & lb & -> & Ha & Hb).
        exists ((i, x) :: la), lb. split; [reflexivity |].
        split; [| exact Hb].
        unfold events_of. cbn [omap list_omap fst snd].
        rewrite decide_True by reflexivity. fold (events_of i la). rewrite Ha. reflexivity.
    + destruct (IH _ Heq) as (la & lb & -> & Ha & Hb).
      exists ((j, e') :: la), lb. split; [reflexivity |].
      split; [| exact Hb].
      unfold events_of. cbn [omap list_omap fst snd].
      rewrite decide_False by exact Hne. exact Ha.
Qed.

Section Order.
Context `{Externals}.
Variable ch : Channel.

(** Whether the bounded queue takes one more item. *)
Definition has_room (closed_ : bool) (queued capacity_ : nat) : bool :=
  negb closed_ && (queued <? capacity_)%nat.

(** One operation on the bounded queue, unless it closes it: what it
    removes leaves the front, what it inserts joins the back; a removal
    returns the front item, or nothing from an empty queue; an insertion
    succeeds if the queue is open and below its capacity. *)
Lemma interp_fifo {B : Type} (c : Cmd B) b (w w' : World BoundedQueue) :
  interp ch c w = Some (b, w') ->
  cmd_graceful ch c ->
  option_list (removed_item (Ev c b)) ++ items (receive_queue w')
  = items (receive_queue w) ++ option_list (inserted_item (Ev c b))
  /\ capacity (receive_queue w') = capacity (receive_queue w)
  /\ is_closed (receive_queue w') = is_closed (receive_queue w)
  /\ (forall x, pop_result (Ev c b) = Some x -> head (items (receive_queue w)) = x)
  /\ (forall r, emplace_result (Ev c b) = Some r ->
                r = has_room (is_closed (receive_queue w))
                             (length (items (receive_queue w)))
                             (capacity (receive_queue w))).
Proof.
  intros Hi Hg.
  destruct c; cbn [interp] in Hi; cbn [cmd_graceful] in Hg;
    cbn [removed_item pop_result emplace_result inserted_item option_list
         mbind option_bind app];
    try (injection Hi as <- <-; cbn; rewrite app_nil_r;
         repeat split; discriminate).
  - destruct (deref ch w p); simpl in Hi; [| discriminate].
    injection Hi as <- <-. rewrite app_nil_r. repeat split; discriminate.
  - destruct p; [discriminate |].
    destruct (heap w !! a); simpl in Hi; [| discriminate].
    injection Hi as <- <-. cbn. rewrite app_nil_r. repeat split; discriminate.
  - destruct (decide (broadcast_status w = expected));
      injection Hi as <- <-; cbn; rewrite app_nil_r; repeat split; discriminate.
  - injection Hi as <- <-. cbn [receive_queue set_receive_queue].
    cbn [tryPopUntil BoundedQueue_queue]. unfold bq_tryPopUntil.
    destruct (items (receive_queue w)) as [| y rest] eqn:Hitems; cbn.
    + repeat split; [exact Hitems | | discriminate]. intros x [= <-]. reflexivity.
    + rewrite app_nil_r. repeat split; [| discriminate]. intros x [= <-]. reflexivity.
  - injection Hi as <- <-. cbn [receive_queue set_receive_queue].
    cbn [tryEmplaceUntil BoundedQueue_queue]. unfold bq_tryEmplaceUntil, has_room.
    destruct (is_closed (receive_queue w)) eqn:Hcl;
      [cbn; rewrite app_nil_r; repeat split; [exact Hcl | discriminate |];
       intros r [= <-]; reflexivity |].
    destruct (length (items (receive_queue w)) <? capacity (receive_queue w))%nat;
      cbn [fst snd items capacity is_closed option_list app negb andb];
      rewrite ?app_nil_r; repeat split; try discriminate; try exact Hcl;
      intros r [= <-]; reflexivity.
  - contradiction.
Qed.

(** First in, first out: what has been removed and what is queued is what
    was queued and what has been inserted. *)
Lemma pool_trace_fifo (cfg cfg' : list (Prog OpResult) * World BoundedQueue) l :
  pool_trace ch cfg l cfg' ->
  Forall (graceful ch) l.*2 ->
  removed l.*2 ++ items (receive_queue cfg'.2)
  = items (receive_queue cfg.2) ++ inserted l.*2
  /\ capacity (receive_queue cfg'.2) = capacity (receive_queue cfg.2)
  /\ is_closed (receive_queue cfg'.2) = is_closed (receive_queue cfg.2).
Proof.
  induction 1 as [cfg | pool w i B c k b w' l cfg' Hi Hint _ IH]; intros Hall.
  - cbn. rewrite app_nil_r. auto.
  - cbn [fmap list_fmap snd] in Hall. apply Forall_cons in Hall as [Hc Hall].
    destruct (interp_fifo c b w w' Hint Hc) as (Hstep & Hcap & Hcl & _).
    destruct (IH Hall) as (IHq & IHcap & IHcl). cbn [fst snd] in *.
    split; [| split; congruence].
    unfold removed, inserted in *. cbn [fmap list_fmap snd omap list_omap].
    change (list_fmap _ _ snd l) with (l.*2).
    transitivity (option_list (removed_item (Ev c b))
                    ++ (omap removed_item l.*2 ++ items (receive_queue cfg'.2))).
    { destruct (removed_item (Ev c b)); reflexivity. }
    rewrite IHq, app_assoc, Hstep, <- app_assoc. f_equal.
    destruct (inserted_item (Ev c b)); reflexivity.
Qed.

Lemma pool_trace_cons_inv (cfg cfg' : list (Prog OpResult) * World BoundedQueue) i e l :
  pool_trace ch cfg ((i, e) :: l) cfg' ->
  exists (B : Type) (c : Cmd B) b w',
    e = Ev c b /\ interp ch c cfg.2 = Some (b, w').
Proof.
  intros Htrace.
  inversion Htrace as [| pool w i0 B c k b w' l0 cfg0 Hi Hint Hrest]; subst.
  exists B, c, b, w'. split; [reflexivity | exact Hint].
Qed.

(** When a removal returns: what had been removed, and then what it
    returns, lead what was queued and what had been inserted; if it returns
    nothing, everything had been removed.  When an insertion returns: it
    succeeded if the queue was open and what had been inserted and not yet
    removed was below its capacity. *)
Lemma pool_trace_queue_op (cfg cfg' : list (Prog OpResult) * World BoundedQueue) la i e lb :
  pool_trace ch cfg (la ++ (i, e) :: lb) cfg' ->
  Forall (graceful ch) (la ++ (i, e) :: lb).*2 ->
  (forall x, pop_result e = Some x ->
             exists rest,
               removed la.*2 ++ rest = items (receive_queue cfg.2) ++ inserted la.*2
               /\ head rest = x)
  /\ (forall r, emplace_result e = Some r ->
                r = has_room (is_closed (receive_queue cfg.2))
                             (length (items (receive_queue cfg.2))
                              + length (inserted la.*2) - length (removed la.*2))
                             (capacity (receive_queue cfg.2))).
Proof.
  intros Htrace Hall.
  apply pool_trace_app_inv in Htrace as (mid & Ha & Hb).
  rewrite fmap_app in Hall. apply Forall_app in Hall as [Halla Hallb].
  destruct (pool_trace_fifo _ _ _ Ha Halla) as (Hfifo & Hcap & Hcl).
  destruct (pool_trace_cons_inv _ _ _ _ _ Hb) as (B & c & b & w' & -> & Hint).
  cbn [fmap list_fmap snd] in Hallb. apply Forall_cons in Hallb as [Hc _].
  destruct (interp_fifo c b _ _ Hint Hc) as (_ & _ & _ & Hpop & Hput).
  split.
  - intros x Hx. exists (items (receive_queue mid.2)).
    split; [exact Hfifo | apply Hpop, Hx].
  - intros r Hr. rewrite (Hput r Hr), Hcap, Hcl. f_equal.
    apply (f_equal length) in Hfifo. rewrite !length_app in Hfifo. lia.
Qed.
End Order.

Section Drain.
Context `{Externals}.
Variable ch : Channel.

(** A [recv] that returns a status whose code is not positive has asked the
    queue for an item and got no chunk. *)
Lemma recv_status_path ts tr st :
  path (op_prog ch (OpRecv ts)) tr (ResRecv (RecvStatus st)) ->
  code st <= 0 ->
  exists tr1 x tr2,
    tr = tr1 ++ Ev (TryPopUntil ts) x :: tr2 /\ x ≫= chunk_of = None.
Proof.
  intros Hpath Hc.
  remember (ResRecv (RecvStatus st)) as r eqn:Hr.
  op_path_cases Hpath; try discriminate;
    try (injection Hr as <-;
         match goal with
         | E : (0 <? code _) = true |- _ => apply Z.ltb_lt in E; lia
         end);
    match goal with
    | |- context [Ev Now ?n :: Ev LoadStatus ?p :: Ev (Deref ?p) ?s0
                     :: Ev (TryPopUntil ts) ?x :: ?rest] =>
        exists [Ev Now n; Ev LoadStatus p; Ev (Deref p) s0], x, rest
    end;
    split; reflexivity.
Qed.

(** A call removes a chunk from the queue only to return it. *)
Lemma op_path_removed o tr r :
  path (op_prog ch o) tr r ->
  removed_chunks tr = match r with ResRecv (RecvChunk c) => [c] | _ => [] end.
Proof.
  intros Hpath.
  destruct o as [ts | chunk | c m |]; op_path_cases Hpath; reflexivity.
Qed.

(** A call ends the stream once if its compare-and-swap succeeds, and not
    at all otherwise. *)
Lemma op_path_ends o tr r :
  path (op_prog ch o) tr r ->
  length (end_ops tr) = count_events is_won_cas tr.
Proof.
  intros Hpath.
  destruct o as [ts | chunk | c m |]; op_path_cases Hpath;
    repeat match goal with
           | b : (_ * _)%type |- _ => destruct b
           end;
    cbn [fst snd] in *; subst; reflexivity.
Qed.

(** C3, as the code has it.  Let threads run calls on a channel with no
    status installed, on the bounded queue, which holds the chunks [cs] and
    nothing else; let their atomic operations, interleaved in any way, lead
    by [l1] to a moment at which no status is installed yet, and from there
    by [l2] to one at which a status with a negative code is installed.
    - Up to the first moment the stream has not been ended and only chunks
      have been inserted.
    - The queue is never closed.  The stream is ended by one operation at
      most, which offers the queue the mark with the name of the channel
      until [max_timeout_ts]; this has been done when all calls have
      returned.  The offer succeeds if and only if, when it is made, the
      queue is open and what has been inserted and not yet removed is below
      its capacity.
    - First in, first out: the items removed, followed by those still
      queued, are the chunks queued at the start or inserted up to the
      first moment, followed by what has been inserted since.
    - A call that has returned has removed a chunk from the queue if and
      only if it is a [recv] that returned this chunk, and has ended the
      stream as many times as its compare-and-swap succeeded.
    - A [recv] that had not started at the first moment and has returned a
      status whose code is not positive has asked the queue for an item and
      got no chunk; by then all the chunks queued at the start or inserted
      up to the first moment had been removed, in the order of their
      insertion. *)
Theorem graceful_close_drains_queue ops (w : World BoundedQueue) cs l1 cfg1 l2 cfg2 s :
  broadcast_status w = InitPtr ->
  items (receive_queue w) = PktChunk <$> cs ->
  pool_trace ch (op_prog ch <$> ops, w) l1 cfg1 ->
  broadcast_status cfg1.2 = InitPtr ->
  pool_trace ch cfg1 l2 cfg2 ->
  broadcast_status cfg2.2 <> InitPtr ->
  deref ch cfg2.2 (broadcast_status cfg2.2) = Some s ->
  code s < 0 ->
  let before := cs ++ inserted_chunks l1.*2 in
  end_ops l1.*2 = []
  /\ inserted l1.*2 = PktChunk <$> inserted_chunks l1.*2
  /\ (end_ops l2.*2 = []
      \/ exists b, end_ops l2.*2
                   = [QEmplace (max_timeout_ts (options ch)) (PktSendDoneMark (name ch)) b])
  /\ (forall rs, cfg2.1 = Ret <$> rs -> end_ops l2.*2 <> [])
  /\ (forall la i ts m b lb,
         l1 ++ l2 = la ++ (i, Ev (TryEmplaceUntil ts (PktSendDoneMark m)) b) :: lb ->
         b = has_room (is_closed (receive_queue w))
                      (length cs + length (inserted la.*2) - length (removed la.*2))
                      (capacity (receive_queue w)))
  /\ removed (l1 ++ l2).*2 ++ items (receive_queue cfg2.2)
     = (PktChunk <$> before) ++ inserted l2.*2
  /\ (forall k r,
         cfg2.1 !! k = Some (Ret r) ->
         removed_chunks (events_of k (l1 ++ l2))
         = match r with ResRecv (RecvChunk c) => [c] | _ => [] end
         /\ length (end_ops (events_of k (l1 ++ l2)))
            = count_events is_won_cas (events_of k (l1 ++ l2)))
  /\ forall i ts st,
       cfg1.1 !! i = Some (op_prog ch (OpRecv ts)) ->
       cfg2.1 !! i = Some (Ret (ResRecv (RecvStatus st))) ->
       code st <= 0 ->
       exists la x lb,
         l2 = la ++ (i, Ev (TryPopUntil ts) x) :: lb
         /\ x ≫= chunk_of = None
         /\ before `prefix_of` removed_chunks (l1 ++ la).*2.
Proof.
  intros Hp Hq H1 Hb1 H2 Hb2 Hs Hc before.
  pose proof (queue_init_start ch ops w Hp) as Hinit.
  destruct (queue_init_trace ch ops _ _ _ Hinit H1) as [[Hinit1 Hcalm] | (q & s' & Hpub & _)];
    [| destruct (queue_pub_installed ch _ _ _ _ Hpub) as [Hbs _]; congruence].
  destruct (queue_init_trace ch ops _ _ _ Hinit1 H2) as [[Hinit2 _] | (q & s' & Hpub & Hgr)];
    [destruct Hinit2 as (_ & gs & (Hbs & _) & _); contradiction |].
  destruct (queue_pub_installed ch _ _ _ _ Hpub) as [Hbs Hs'].
  assert (s' = s) as -> by congruence.
  assert (Hgr2 : Forall (graceful ch) l2.*2) by (apply Hgr; lia).
  assert (Hgr1 : Forall (graceful ch) l1.*2).
  { eapply Forall_impl; [exact Hcalm |]. apply calm_graceful. }
  assert (Hall : Forall (graceful ch) (l1 ++ l2).*2).
  { rewrite fmap_app. apply Forall_app. split; assumption. }
  destruct (calm_events _ Hcalm) as [He1 Hi1].
  pose proof (pool_trace_app ch _ _ _ _ _ H1 H2) as H12.
  (* the end of the stream *)
  assert (Hends : end_ops (l1 ++ l2).*2 = end_ops l2.*2).
  { unfold end_ops in *. rewrite fmap_app, omap_app, He1. reflexivity. }
  destruct (graceful_events ch _ Hall) as [Hlen _].
  destruct (graceful_events ch _ Hgr2) as [_ Hform].
  rewrite Hends in Hlen.
  pose proof (end_inv_trace ch 0 _ _ _ (end_inv_start ch ops w Hp) H12) as [_ Hcase].
  cbn [Nat.add] in Hcase. rewrite <- Hlen, Hbs in Hcase.
  split; [exact He1 |]. split; [exact Hi1 |].
  split.
  { destruct (end_ops l2.*2) as [| o [| o' os]].
    - left. reflexivity.
    - right. apply Forall_cons in Hform as [[b ->] _]. exists b. reflexivity.
    - exfalso. destruct Hcase as [[Hn _] | [Hn _]]; discriminate. }
  split.
  { intros rs Hret Hnil. rewrite Hnil in Hcase.
    destruct Hcase as [(_ & iw & t & Hiw & Hpend & _) | [Hn _]]; [| discriminate].
    rewrite Hret, list_lookup_fmap in Hiw.
    destruct (rs !! iw); [| discriminate]. injection Hiw as <-. contradiction. }
  split.
  { intros la i ts m b lb Heq. rewrite Heq in H12, Hall.
    destruct (pool_trace_queue_op ch _ _ _ _ _ _ H12 Hall) as [_ Hput].
    rewrite (Hput b eq_refl). cbn [snd]. rewrite Hq, length_fmap. reflexivity. }
  split.
  { rewrite (proj1 (pool_trace_fifo ch _ _ _ H12 Hall)). cbn [snd].
    unfold inserted in *. rewrite Hq, (fmap_app snd l1 l2), omap_app, Hi1.
    unfold before. rewrite (fmap_app PktChunk), app_assoc. reflexivity. }
  split.
  { intros k r Hr.
    destruct (pool_trace_threads ch _ _ _ H12) as [Hlen12 _]. cbn [fst] in Hlen12.
    destruct ((op_prog ch <$> ops) !! k) as [t |] eqn:Hk;
      [| apply lookup_ge_None in Hk; apply lookup_lt_Some in Hr; lia].
    pose proof (thread_view ch _ _ _ _ _ _ H12 Hk Hr) as Hpath.
    rewrite list_lookup_fmap in Hk.
    destruct (ops !! k) as [o |]; [| discriminate]. injection Hk as <-.
    split; [apply (op_path_removed o _ r Hpath) | apply (op_path_ends o _ r Hpath)]. }
  intros i ts st Hi Hr Hst.
  pose proof (thread_view ch _ _ _ _ _ _ H2 Hi Hr) as Hpath.
  destruct (recv_status_path ts _ st Hpath Hst) as (tr1 & x & tr2 & Hev & Hx).
  destruct (events_of_split _ _ _ _ _ Hev) as (la & lb & -> & _ & _).
  exists la, x, lb. split; [reflexivity |]. split; [exact Hx |].
  rewrite app_assoc in H12, Hall.
  destruct (pool_trace_queue_op ch _ _ _ _ _ _ H12 Hall) as [Hpop _].
  destruct (Hpop x eq_refl) as (rest & Hfifo & Hhead).
  cbn [snd] in Hfifo.
  assert (Hrhs : items (receive_queue w) ++ inserted (l1 ++ la).*2
                 = (PktChunk <$> before) ++ inserted la.*2).
  { unfold inserted in *. rewrite Hq, (fmap_app snd l1 la), omap_app, Hi1.
    unfold before. rewrite (fmap_app PktChunk), app_assoc. reflexivity. }
  rewrite Hrhs in Hfifo.
  assert (Hlead : (PktChunk <$> before) `prefix_of` removed (l1 ++ la).*2).
  { eapply chunks_lead; [exact Hfifo |]. rewrite Hhead. exact Hx. }
  apply (omap_prefix chunk_of) in Hlead. rewrite omap_chunk_of in Hlead. exact Hlead.
Qed.
End Drain.

#[local] Existing Instance example_externals.

(** C6 fails on the code.  With receiver metrics enabled and a chunk in the
    queue, [recv] returns the chunk and records its size, but no
    receive-time sample: the sample is taken only at the end of the
    function, which the three earlier returns do not reach. *)
Theorem recv_chunk_records_no_time :
  let c := example_chunk 1 10 in
  let w := example_world [PktChunk c] 2 false in
  enable_receiver_metrics example_channel = true
  /\ exists w' tr,
      run example_channel (recv example_channel example_deadline) w
      = Some (RecvChunk c, w', tr)
      /\ recv_bytes (receiver_metrics w') = [10%N]
      /\ recv_time_ms (receiver_metrics w') = []
      /\ count_events is_recv_time_sample tr = 0%nat.
Proof.
  split; [reflexivity |].
  do 2 eexists. split; [vm_compute; reflexivity |].
  repeat split; reflexivity.
Qed.

(* ===================================================================== *)
(** ** The properties on an instance *)
(* ===================================================================== *)

Definition result_of {A : Type} (d : A) (t : Prog A) (w : World BoundedQueue) : A :=
  match run example_channel t w with
  | Some (a, _, _) => a
  | None => d
  end.

Definition trace_of {A : Type} (t : Prog A) (w : World BoundedQueue) : list Event :=
  match run example_channel t w with
  | Some (_, _, tr) => tr
  | None => []
  end.

Definition example_ops : list Op :=
  [ OpSend (example_chunk 1 10);
    OpFinish (-1) "done";
    OpRecv example_deadline;
    OpFinish 4 "cancel";
    OpRecv example_deadline;
    OpSend (example_chunk 2 20) ].

Lemma merge_not_implemented_witness :
  path (merge tt) [] (inl (mkException "merge is not implemented for LocalBroadcastChannel" 48))
  /\ ([] = @nil Event
      /\ exists e, inl (mkException "merge is not implemented for LocalBroadcastChannel" 48)
                   = @inl Exception unit e
                   /\ error_code e = 48).
Proof.
  split; [split; reflexivity |].
  exact (proj2 (merge_not_implemented example_channel tt (example_world [] 2 false))
               [] _ (conj eq_refl eq_refl)).
Defined.

Lemma hard_close_discards_queue_witness :
  exists w1 tr1 rs w2,
    run example_channel (finish example_channel 4 "cancel")
        (example_world [PktChunk (example_chunk 1 10)] 2 false)
    = Some (mkBroadcastStatus 4 true "cancel", w1, tr1)
    /\ deref example_channel w1 (broadcast_status w1)
       = Some (mkBroadcastStatus 4 false "cancel")
    /\ items (receive_queue w1) = []
    /\ is_closed (receive_queue w1) = true
    /\ (forall ts x, tryEmplaceUntil (receive_queue w1) ts x = (false, receive_queue w1))
    /\ run_ops example_channel example_ops w1 = Some (rs, w2)
    /\ receive_queue w2 = receive_queue w1
    /\ (forall j ts r tr,
           example_ops !! j = Some (OpRecv ts) ->
           rs !! j = Some (r, tr) ->
           r = ResRecv (RecvStatus (mkBroadcastStatus 4 false "cancel"))
           /\ count_events is_queue_op tr = 0%nat)
    /\ forall ts tr r st,
         path (recv example_channel ts) tr r ->
         head (loaded_statuses tr) = Some st ->
         0 < code st ->
         r = RecvStatus st /\ count_events is_queue_op tr = 0%nat.
Proof.
  apply (hard_close_discards_queue example_channel
           (example_world [PktChunk (example_chunk 1 10)] 2 false) 4 "cancel" example_ops);
    reflexivity.
Defined.

Lemma finish_then_recvs_drain_witness :
  let cs := [example_chunk 1 10; example_chunk 2 20; example_chunk 3 30] in
  let ops := [OpRecv example_deadline; OpRecv example_deadline;
              OpRecv example_deadline; OpRecv example_deadline] in
  exists w1 tr1 rs w2,
    run example_channel (finish example_channel (-1) "done")
        (example_world (PktChunk <$> cs) 4 false)
    = Some (mkBroadcastStatus (-1) true "done", w1, tr1)
    /\ Ev (TryEmplaceUntil (max_timeout_ts (options example_channel))
                           (PktSendDoneMark (name example_channel)))
          (length cs <? 4)%nat ∈ tr1
    /\ items (receive_queue w1)
       = (PktChunk <$> cs)
           ++ (if (length cs <? 4)%nat then [PktSendDoneMark (name example_channel)] else [])
    /\ run_ops example_channel ops w1 = Some (rs, w2)
    /\ received rs
       = take (length (received rs))
              ((RecvChunk <$> cs)
                 ++ replicate (length (received rs))
                              (RecvStatus (mkBroadcastStatus (-1) false "done"))).
Proof.
  intros cs ops.
  apply (finish_then_recvs_drain example_channel
           (example_world (PktChunk <$> cs) 4 false) (-1) "done" cs 4 ops);
    reflexivity.
Defined.

(** A send, a [finish] with the code -1 and three calls of [recv], on a
    queue that holds one chunk. *)
Definition example_drain_calls : list Op :=
  [ OpSend (example_chunk 2 20);
    OpFinish (-1) "done";
    OpRecv example_deadline;
    OpRecv example_deadline;
    OpRecv example_deadline ].

Definition example_drain_start : list (Prog OpResult) * World BoundedQueue :=
  (op_prog example_channel <$> example_drain_calls,
   example_world [PktChunk (example_chunk 1 10)] 4 false).

(** The send runs first; then the other four threads take turns. *)
Definition example_drain_sent
  : list (nat * Event) * (list (Prog OpResult) * World BoundedQueue) :=
  trace_schedule example_channel (replicate 8 0%nat) example_drain_start.

Definition example_drain_done
  : list (nat * Event) * (list (Prog OpResult) * World BoundedQueue) :=
  trace_schedule example_channel (mjoin (replicate 20 [1; 2; 3; 4]%nat))
                 example_drain_sent.2.

(** The send has returned and no status is installed; in the end the two
    chunks have been received in order, and the third [recv], which found
    the queue empty, has returned the installed status. *)
Example example_drain_outcome :
  example_drain_sent.2.1 !! 0%nat = Some (Ret (ResStatus (init_status example_channel)))
  /\ items (receive_queue example_drain_sent.2.2)
     = [PktChunk (example_chunk 1 10); PktChunk (example_chunk 2 20)]
  /\ example_drain_done.2.1
     = Ret <$> [ ResStatus (init_status example_channel);
                 ResStatus (mkBroadcastStatus (-1) true "done");
                 ResRecv (RecvChunk (example_chunk 1 10));
                 ResRecv (RecvChunk (example_chunk 2 20));
                 ResRecv (RecvStatus (mkBroadcastStatus (-1) false "done")) ]
  /\ items (receive_queue example_drain_done.2.2) = [PktSendDoneMark "ch"].
Proof. vm_compute. repeat split; reflexivity. Qed.

(** A [recv] that is in progress when [finish] wins is another matter: it
    finds the queue empty, a chunk is sent, a [finish] with the code -1
    wins and queues the mark, and the [recv] returns the installed status
    while the chunk is still queued. *)
Example example_recv_in_flight :
  let cfg :=
    run_schedule example_channel
      (replicate 4 0%nat ++ replicate 8 1%nat ++ replicate 20 2%nat ++ replicate 20 0%nat)
      (op_prog example_channel
         <$> [OpRecv example_deadline; OpSend (example_chunk 1 10); OpFinish (-1) "done"],
       example_world [] 2 false) in
  cfg.1 = Ret <$> [ ResRecv (RecvStatus (mkBroadcastStatus (-1) false "done"));
                    ResStatus (init_status example_channel);
                    ResStatus (mkBroadcastStatus (-1) true "done") ]
  /\ items (receive_queue cfg.2) = [PktChunk (example_chunk 1 10); PktSendDoneMark "ch"].
Proof. vm_compute. split; reflexivity. Qed.

Lemma graceful_close_drains_queue_witness :
  let w := example_world [PktChunk (example_chunk 1 10)] 4 false in
  let cs := [example_chunk 1 10] in
  let l1 := example_drain_sent.1 in
  let cfg1 := example_drain_sent.2 in
  let l2 := example_drain_done.1 in
  let cfg2 := example_drain_done.2 in
  let before := cs ++ inserted_chunks l1.*2 in
  end_ops l1.*2 = []
  /\ inserted l1.*2 = PktChunk <$> inserted_chunks l1.*2
  /\ (end_ops l2.*2 = []
      \/ exists b, end_ops l2.*2
                   = [QEmplace (max_timeout_ts (options example_channel))
                               (PktSendDoneMark (name example_channel)) b])
  /\ (forall rs, cfg2.1 = Ret <$> rs -> end_ops l2.*2 <> [])
  /\ (forall la i ts m b lb,
         l1 ++ l2 = la ++ (i, Ev (TryEmplaceUntil ts (PktSendDoneMark m)) b) :: lb ->
         b = has_room (is_closed (receive_queue w))
                      (length cs + length (inserted la.*2) - length (removed la.*2))
                      (capacity (receive_queue w)))
  /\ removed (l1 ++ l2).*2 ++ items (receive_queue cfg2.2)
     = (PktChunk <$> before) ++ inserted l2.*2
  /\ (forall k r,
         cfg2.1 !! k = Some (Ret r) ->
         removed_chunks (events_of k (l1 ++ l2))
         = match r with ResRecv (RecvChunk c) => [c] | _ => [] end
         /\ length (end_ops (events_of k (l1 ++ l2)))
            = count_events is_won_cas (events_of k (l1 ++ l2)))
  /\ forall i ts st,
       cfg1.1 !! i = Some (op_prog example_channel (OpRecv ts)) ->
       cfg2.1 !! i = Some (Ret (ResRecv (RecvStatus st))) ->
       code st <= 0 ->
       exists la x lb,
         l2 = la ++ (i, Ev (TryPopUntil ts) x) :: lb
         /\ x ≫= chunk_of = None
         /\ before `prefix_of` removed_chunks (l1 ++ la).*2.
Proof.
  intros w cs l1 cfg1 l2 cfg2.
  apply (graceful_close_drains_queue example_channel example_drain_calls w cs
           l1 cfg1 l2 cfg2 (mkBroadcastStatus (-1) false "done")).
  - reflexivity.
  - reflexivity.
  - apply trace_schedule_trace.
  - vm_compute. reflexivity.
  - apply trace_schedule_trace.
  - vm_compute. discriminate.
  - vm_compute. reflexivity.
  - reflexivity.
Defined.

Lemma memory_credit_paired_witness :
  let w := example_world [PktChunk (example_chunk 1 10)] 2 false in
  let send := sendImpl example_channel (example_chunk 2 20) in
  let receive := recv example_channel example_deadline in
  (credit_events (trace_of send w) = []
   \/ credit_events (trace_of send w)
      = [Inserted (example_chunk 2 20); ToGlobal (allocatedBytes (example_chunk 2 20))])
  /\ (credit_events (trace_of receive w) = []
      \/ exists c, credit_events (trace_of receive w) = [Popped c; ToThread (allocatedBytes c)]
                   /\ result_of (RecvChunk (example_chunk 0 0)) receive w = RecvChunk c).
Proof.
  intros w send receive.
  apply (memory_credit_paired example_channel (example_chunk 2 20) example_deadline
           (trace_of send w) (result_of (init_status example_channel) send w)
           (trace_of receive w) (result_of (RecvChunk (example_chunk 0 0)) receive w)).
  - eapply (run_path example_channel _ w). vm_compute. reflexivity.
  - eapply (run_path example_channel _ w). vm_compute. reflexivity.
Defined.

Lemma send_interrupted_keeps_status_witness :
  let w := example_world [] 2 true in
  let send := sendImpl example_channel (example_chunk 2 20) in
  let tr := trace_of send w in
  let r := result_of (init_status example_channel) send w in
  count_events is_cas tr = 0%nat
  /\ (exists pre p s,
         tr = pre ++ [Ev LoadStatus p; Ev (Deref p) s]
         /\ r = if code s =? RUNNING
                then mkBroadcastStatus SEND_UNKNOWN_ERROR false
                                       "Send operation was interrupted"
                else s)
  /\ (forall w0 w' : World BoundedQueue,
         run example_channel send w0 = Some (r, w', tr) ->
         broadcast_status w' = broadcast_status w0).
Proof.
  intros w send tr r.
  apply (send_interrupted_keeps_status example_channel (example_chunk 2 20) tr r).
  - eapply (run_path example_channel _ w). vm_compute. reflexivity.
  - reflexivity.
  - reflexivity.
Defined.

Lemma recv_other_item_as_timeout_witness :
  let w := example_world [PktOther 0] 2 false in
  let q' := mkQueue [] 2 false in
  let s := init_status example_channel in
  exists st w1 ftr,
    run example_channel
        (finish example_channel RECV_TIMEOUT
                (recv_timeout_message example_channel example_deadline))
        (set_receive_queue q' w) = Some (st, w1, ftr)
    /\ run example_channel (recv example_channel example_deadline) w
       = Some (RecvStatus st, recv_record example_channel (clock w) w1,
               entry_trace w s ++ [Ev (TryPopUntil example_deadline) (Some (PktOther 0))]
                 ++ ftr ++ recv_record_trace example_channel (clock w) w1)
    /\ credit_events (entry_trace w s
                        ++ [Ev (TryPopUntil example_deadline) (Some (PktOther 0))]
                        ++ ftr ++ recv_record_trace example_channel (clock w) w1) = []
    /\ global_memory (recv_record example_channel (clock w) w1) = global_memory w
    /\ forall q0,
         tryPopUntil q0 example_deadline = (None, q') ->
         run example_channel (recv example_channel example_deadline) (set_receive_queue q0 w)
         = Some (RecvStatus st, recv_record example_channel (clock w) w1,
                 entry_trace w s ++ [Ev (TryPopUntil example_deadline) None]
                   ++ ftr ++ recv_record_trace example_channel (clock w) w1).
Proof.
  intros w q' s.
  apply (recv_other_item_as_timeout example_channel example_deadline w s 0 q').
  - reflexivity.
  - vm_compute. discriminate.
  - reflexivity.
Defined.

Lemma finish_overwrites_sender_metrics_witness :
  let w0 := example_world [] 2 false in
  let w := after (finish example_channel 4 "cancel") w0 in
  let s := mkBroadcastStatus 4 false "cancel" in
  exists w1 tr1,
    run example_channel (finish example_channel (-1) "done") w = Some (s, w1, tr1)
    /\ finish_code (sender_metrics w1) = code s
    /\ is_modifier (sender_metrics w1) = 0
    /\ sm_message (sender_metrics w1) = sm_message (sender_metrics w)
    /\ (enable_sender_metrics example_channel || enable_receiver_metrics example_channel = true ->
        hasQueryExchangeLog (context example_channel) = true ->
        exists w2 tr2 el,
          run example_channel (destroy example_channel) w1 = Some (tt, w2, tr2)
          /\ query_exchange_log w2 = query_exchange_log w1 ++ [el]
          /\ el_finish_code el = code s
          /\ el_is_modifier el = 0
          /\ el_message el = sm_message (sender_metrics w)).
Proof.
  intros w0 w s.
  apply (proj2 (finish_overwrites_sender_metrics example_channel w0 w 4 "cancel" 0 s
                  (-1) "done" eq_refl (conj eq_refl eq_refl))).
Defined.

(** Four calls, and an order in which their threads take turns. *)
Definition example_calls : list Op :=
  [ OpFinish (-1) "done";
    OpFinish 4 "cancel";
    OpRecv example_deadline;
    OpSend (example_chunk 2 20) ].

Definition example_turns (n : nat) : list nat :=
  mjoin (replicate n [1; 0; 2; 3; 0; 1])%nat.

Definition example_start : list (Prog OpResult) * World BoundedQueue :=
  (op_prog example_channel <$> example_calls,
   example_world [PktChunk (example_chunk 1 10)] 2 false).

(** Taking turns, the second call allocates its status first, but the first
    call is first at the compare-and-swap and installs its own; [recv] takes
    the chunk; [sendImpl] finds the channel stopped. *)
Example example_interleaving :
  (run_schedule example_channel (example_turns 20) example_start).1
  = Ret <$> [ ResStatus (mkBroadcastStatus (-1) true "done");
              ResStatus (mkBroadcastStatus (-1) false "done");
              ResRecv (RecvChunk (example_chunk 1 10));
              ResStatus (mkBroadcastStatus (-1) false "done") ].
Proof. vm_compute. reflexivity. Qed.

Lemma concurrent_finish_one_modifier_witness :
  let cfg := run_schedule example_channel (example_turns 20) example_start in
  (exists rs w', rtc (pool_step example_channel) cfg (Ret <$> rs, w'))
  /\ forall rs,
      cfg.1 = Ret <$> rs ->
      (broadcast_status cfg.2 = InitPtr
       /\ returned_modifiers rs = 0%nat
       /\ forall j c m, example_calls !! j <> Some (OpFinish c m))
      \/ exists s,
          broadcast_status cfg.2 <> InitPtr
          /\ deref example_channel cfg.2 (broadcast_status cfg.2) = Some s
          /\ returned_modifiers rs = 1%nat
          /\ (forall j c m,
                 example_calls !! j = Some (OpFinish c m) ->
                 exists st, rs !! j = Some (ResStatus st)
                            /\ code st = code s /\ message st = message s)
          /\ forall j r st,
               rs !! j = Some r ->
               result_status r = Some st ->
               (code st = code s /\ message st = message s)
               \/ st = init_status example_channel \/ st = send_interrupted.
Proof.
  intros cfg.
  apply (concurrent_finish_one_modifier example_channel example_calls
           (example_world [PktChunk (example_chunk 1 10)] 2 false) cfg).
  - reflexivity.
  - reflexivity.
  - apply run_schedule_steps.
Defined.

Lemma concurrent_install_once_witness :
  let cfg1 := run_schedule example_channel (example_turns 1) example_start in
  let cfg2 := run_schedule example_channel (example_turns 19) cfg1 in
  (broadcast_status cfg1.2 <> InitPtr ->
   broadcast_status cfg2.2 = broadcast_status cfg1.2
   /\ deref example_channel cfg2.2 (broadcast_status cfg2.2)
      = deref example_channel cfg1.2 (broadcast_status cfg1.2))
  /\ forall s,
      deref example_channel cfg1.2 (broadcast_status cfg1.2) = Some s ->
      code s <> RUNNING ->
      broadcast_status cfg2.2 = broadcast_status cfg1.2
      /\ deref example_channel cfg2.2 (broadcast_status cfg2.2) = Some s.
Proof.
  intros cfg1 cfg2.
  apply (concurrent_install_once example_channel example_calls
           (example_world [PktChunk (example_chunk 1 10)] 2 false) cfg1 cfg2).
  - reflexivity.
  - reflexivity.
  - apply run_schedule_steps.
  - apply run_schedule_steps.
Defined.

(** After one round of turns the status of the first call is installed. *)
Example example_installed_early :
  let cfg1 := run_schedule example_channel (example_turns 1) example_start in
  deref example_channel cfg1.2 (broadcast_status cfg1.2)
  = Some (mkBroadcastStatus (-1) false "done").
Proof. vm_compute. reflexivity. Qed.

(* ===================================================================== *)
(** ** The further properties on an instance *)
(* ===================================================================== *)

(** The state after a [finish] with code 4 on a channel just constructed,
    with one chunk queued. *)
Definition example_cancelled : World BoundedQueue :=
  after (finish example_channel 4 "cancel")
        (example_world [PktChunk (example_chunk 1 10)] 2 false).

(** A channel constructed with metrics switched off. *)
Definition example_quiet_channel : Channel :=
  LocalBroadcastChannel (mkKey 7 0) (mkOptions (mkTimespec 10 0) false) "ch"
                        (mkContext "query" true).

Lemma finish_frees_what_it_does_not_install_witness :
  let fin := finish example_channel (-1) "done" in
  let tr := trace_of fin example_cancelled in
  exists p swapped found,
    status_ops tr
    = SNew (mkBroadcastStatus (-1) false "done") p :: SCas InitPtr p swapped found
        :: (if swapped then [] else [SDelete p])
    /\ if swapped
       then queue_ops tr = [QClose]
            \/ exists inserted,
                queue_ops tr = [QEmplace (max_timeout_ts (options example_channel))
                                         (PktSendDoneMark (name example_channel)) inserted]
       else queue_ops tr = [].
Proof.
  intros fin tr.
  apply (finish_frees_what_it_does_not_install example_channel (-1) "done" tr
           (result_of (init_status example_channel) fin example_cancelled)).
  eapply (run_path example_channel _ example_cancelled). vm_compute. reflexivity.
Defined.

Lemma later_finish_is_ignored_witness :
  let s := mkBroadcastStatus 4 false "cancel" in
  let calls := [(-1, "done"); (7, "again")] in
  exists rs w',
    run_ops example_channel ((fun cm => OpFinish cm.1 cm.2) <$> calls) example_cancelled
    = Some (rs, w')
    /\ length rs = length calls
    /\ (forall r tr, (r, tr) ∈ rs -> r = ResStatus s /\ queue_ops tr = [])
    /\ broadcast_status w' = broadcast_status example_cancelled
    /\ heap w' = heap example_cancelled
    /\ receive_queue w' = receive_queue example_cancelled
    /\ global_memory w' = global_memory example_cancelled.
Proof.
  intros s calls.
  apply (later_finish_is_ignored example_channel example_cancelled 0 s calls).
  split; reflexivity.
Defined.

Lemma sendImpl_refuses_after_finish_witness :
  let send := sendImpl example_channel (example_chunk 2 20) in
  let tr := trace_of send example_cancelled in
  let r := result_of (init_status example_channel) send example_cancelled in
  r = mkBroadcastStatus 4 false "cancel"
  /\ queue_ops tr = [] /\ status_ops tr = [] /\ credit_events tr = []
  /\ length tr = 3%nat.
Proof.
  intros send tr r.
  apply (sendImpl_refuses_after_finish example_channel (example_chunk 2 20) tr r).
  - eapply (run_path example_channel _ example_cancelled). vm_compute. reflexivity.
  - reflexivity.
  - vm_compute. discriminate.
Defined.

Lemma calls_wait_at_most_twice_witness :
  let w := example_world [] 2 false in
  let o := OpRecv example_deadline in
  let tr := trace_of (op_prog example_channel o) w in
  let limit := max_timeout_ts (options example_channel) in
  (timed_waits tr = [] \/ timed_waits tr = [example_deadline]
   \/ timed_waits tr = [example_deadline; limit])
  /\ (length (status_ops tr) <= 3)%nat
  /\ (length tr <= 19)%nat.
Proof.
  intros w o tr.
  apply (calls_wait_at_most_twice example_channel o tr
           (result_of ResVoid (op_prog example_channel o) w)).
  eapply (run_path example_channel _ w). vm_compute. reflexivity.
Defined.

Lemma send_recv_round_trip_witness :
  let w := example_world [] 2 false in
  let chunk := example_chunk 1 10 in
  exists tr1 tr2 w',
    run_ops example_channel [OpSend chunk; OpRecv example_deadline] w
    = Some ([(ResStatus (init_status example_channel), tr1);
             (ResRecv (RecvChunk chunk), tr2)], w')
    /\ receive_queue w' = mkQueue [] 2 false
    /\ global_memory w' = global_memory w
    /\ broadcast_status w' = InitPtr
    /\ heap w' = heap w
    /\ recv_bytes (receiver_metrics w')
       = if enable_receiver_metrics example_channel
         then recv_bytes (receiver_metrics w) ++ [bytes chunk]
         else recv_bytes (receiver_metrics w).
Proof.
  intros w chunk.
  apply (send_recv_round_trip example_channel w chunk example_deadline
           (mkQueue [PktChunk chunk] 2 false) (mkQueue [] 2 false));
    reflexivity.
Defined.

Lemma chunks_arrive_in_order_witness :
  let w := example_world [] 3 false in
  let cs := [example_chunk 1 10; example_chunk 2 20; example_chunk 3 30] in
  exists rs w',
    run_ops example_channel
            ((OpSend <$> cs) ++ replicate (length cs) (OpRecv example_deadline)) w
    = Some (rs, w')
    /\ received rs = RecvChunk <$> cs
    /\ receive_queue w' = receive_queue w
    /\ global_memory w' = global_memory w
    /\ broadcast_status w' = InitPtr
    /\ heap w' = heap w.
Proof.
  intros w cs.
  apply (chunks_arrive_in_order example_channel cs example_deadline 3 w);
    [reflexivity | reflexivity | reflexivity | simpl; lia].
Defined.

Lemma recv_timeout_stops_senders_witness :
  let w := example_world [] 2 false in
  let s := mkBroadcastStatus RECV_TIMEOUT false
                             (recv_timeout_message example_channel example_deadline) in
  exists w1 tr1,
    run example_channel (recv example_channel example_deadline) w
    = Some (RecvStatus (set_is_modifer true s), w1, tr1)
    /\ deref example_channel w1 (broadcast_status w1) = Some s
    /\ receive_queue w1
       = (if 0 <? RECV_TIMEOUT then close (mkQueue [] 2 false)
          else snd (tryEmplaceUntil (mkQueue [] 2 false)
                      (max_timeout_ts (options example_channel))
                      (PktSendDoneMark (name example_channel))))
    /\ credit_events tr1 = []
    /\ (RECV_TIMEOUT <> RUNNING ->
        forall chunk,
          run example_channel (sendImpl example_channel chunk) w1
          = Some (s, w1, entry_trace w1 s)).
Proof.
  intros w s.
  apply (recv_timeout_stops_senders example_channel w example_deadline None
           (mkQueue [] 2 false)).
  - reflexivity.
  - vm_compute. discriminate.
  - reflexivity.
  - exact I.
Defined.

Lemma send_timeout_closes_channel_witness :
  let w := example_world [PktChunk (example_chunk 1 10)] 1 false in
  let q' := mkQueue [PktChunk (example_chunk 1 10)] 1 false in
  let s := mkBroadcastStatus SEND_TIMEOUT false (send_timeout_message example_channel) in
  exists w1 tr1,
    run example_channel (sendImpl example_channel (example_chunk 2 20)) w
    = Some (set_is_modifer true s, w1, tr1)
    /\ deref example_channel w1 (broadcast_status w1) = Some s
    /\ global_memory w1 = global_memory w
    /\ credit_events tr1 = []
    /\ (0 < SEND_TIMEOUT ->
        receive_queue w1 = close q'
        /\ forall ts, run example_channel (recv example_channel ts) w1
                      = Some (RecvStatus s, w1, entry_trace w1 s))
    /\ (SEND_TIMEOUT <= 0 ->
        receive_queue w1
        = snd (tryEmplaceUntil q' (max_timeout_ts (options example_channel))
                               (PktSendDoneMark (name example_channel)))).
Proof.
  intros w q' s.
  apply (send_timeout_closes_channel example_channel w (example_chunk 2 20) q');
    reflexivity.
Defined.

Lemma finish_with_running_code_wedges_witness :
  let w := example_world [] 2 false in
  let s := mkBroadcastStatus RUNNING false "noop" in
  let limit := max_timeout_ts (options example_channel) in
  exists w1 tr1 rs w2,
    run example_channel (finish example_channel RUNNING "noop") w
    = Some (set_is_modifer true s, w1, tr1)
    /\ queue_ops tr1
       = [QEmplace limit (PktSendDoneMark (name example_channel))
                   (fst (tryEmplaceUntil (receive_queue w) limit
                                         (PktSendDoneMark (name example_channel))))]
    /\ run_ops example_channel example_ops w1 = Some (rs, w2)
    /\ deref example_channel w2 (broadcast_status w2) = Some s
    /\ (forall j c' m' r tr,
           example_ops !! j = Some (OpFinish c' m') -> rs !! j = Some (r, tr) ->
           r = ResStatus s)
    /\ (forall j chunk r tr,
           example_ops !! j = Some (OpSend chunk) -> rs !! j = Some (r, tr) ->
           exists inserted rest,
             queue_ops tr = QEmplace limit (PktChunk chunk) inserted :: rest).
Proof.
  intros w s limit.
  apply (finish_with_running_code_wedges example_channel w "noop" example_ops).
  reflexivity.
Defined.

Lemma metrics_disabled_records_nothing_witness :
  let w := example_world [PktChunk (example_chunk 1 10)] 2 false in
  let o := OpRecv example_deadline in
  let tr := trace_of (op_prog example_quiet_channel o) w in
  let tr' := trace_of (destroy example_quiet_channel) w in
  count_events is_metric_record tr = 0%nat
  /\ exists p, tr' = Ev LoadStatus p
                     :: (if decide (p = InitPtr) then [] else [Ev (DeleteStatus p) tt]).
Proof.
  intros w o tr tr'.
  apply (metrics_disabled_records_nothing (mkKey 7 0) (mkOptions (mkTimespec 10 0) false)
           "ch" (mkContext "query" true) o tr
           (result_of ResVoid (op_prog example_quiet_channel o) w) tr' tt).
  - reflexivity.
  - eapply (run_path example_channel _ w). vm_compute. reflexivity.
  - eapply (run_path example_channel _ w). vm_compute. reflexivity.
Defined.

(** Calls that move three chunks through the channel, on a queue that
    holds two of them at the start. *)
Definition example_traffic : list Op :=
  [ OpRecv example_deadline;
    OpSend (example_chunk 3 30);
    OpRecv example_deadline;
    OpFinish (-1) "done";
    OpRecv example_deadline;
    OpRecv example_deadline ].

Definition example_loaded : World BoundedQueue :=
  example_world [PktChunk (example_chunk 1 10); PktChunk (example_chunk 2 20)] 4 false.

(** The three chunks are received, and the record holds their 60 bytes. *)
Example example_traffic_received :
  match run_ops example_channel example_traffic example_loaded with
  | Some (rs, w1) =>
      chunks_received rs = [example_chunk 1 10; example_chunk 2 20; example_chunk 3 30]
  | None => False
  end
  /\ (el_recv_bytes <$> query_exchange_log
                         (after (destroy example_channel)
                                (default example_loaded
                                   (snd <$> run_ops example_channel example_traffic
                                                    example_loaded))))
     = [60%N].
Proof. vm_compute. split; reflexivity. Qed.

(** The counter wraps around: one more byte after [2^64 - 1] gives 0. *)
Example example_counter_wraps :
  get_value (adder_add 1 [18446744073709551615%N]) = 0%N.
Proof. vm_compute. reflexivity. Qed.

Lemma destructor_logs_bytes_received_witness :
  exists rs w1 w2 tr el,
    run_ops example_channel example_traffic example_loaded = Some (rs, w1)
    /\ run example_channel (destroy example_channel) w1 = Some (tt, w2, tr)
    /\ query_exchange_log w2 = query_exchange_log example_loaded ++ [el]
    /\ el_type el = "local"
    /\ el_recv_bytes el
       = ((get_value (recv_bytes (receiver_metrics example_loaded))
           + (if enable_receiver_metrics example_channel
              then total (bytes <$> chunks_received rs) else 0))
          mod 2 ^ 64)%N.
Proof.
  apply (destructor_logs_bytes_received example_channel example_traffic example_loaded).
  - eexists. reflexivity.
  - reflexivity.
  - reflexivity.
Defined.


Lemma concurrent_calls_leak_nothing_witness :
  let w := example_world [PktChunk (example_chunk 1 10)] 2 false in
  let cfg := run_schedule example_channel (example_turns 20) example_start in
  match broadcast_status cfg.2 with
  | InitPtr => heap cfg.2 = heap w
  | HeapPtr q => heap w !! q = None /\ exists s, heap cfg.2 = <[q := s]> (heap w)
  end
  /\ exists w' tr,
      run example_channel (destroy example_channel) cfg.2 = Some (tt, w', tr)
      /\ heap w' = heap w.
Proof.
  intros w cfg.
  apply (concurrent_calls_leak_nothing example_channel example_calls w cfg
           [ ResStatus (mkBroadcastStatus (-1) true "done");
             ResStatus (mkBroadcastStatus (-1) false "done");
             ResRecv (RecvChunk (example_chunk 1 10));
             ResStatus (mkBroadcastStatus (-1) false "done") ]).
  - reflexivity.
  - apply run_schedule_steps.
  - vm_compute. reflexivity.
Defined.

Lemma concurrent_winner_installs_own_status_witness :
  let cfg := run_schedule example_channel (example_turns 20) example_start in
  exists i o s,
    example_calls !! i = Some o
    /\ call_status example_channel o = Some s
    /\ deref example_channel cfg.2 (broadcast_status cfg.2) = Some s
    /\ forall r, cfg.1 !! i = Some (Ret r) ->
                 result_status r = Some (set_is_modifer true s).
Proof.
  intros cfg.
  apply (concurrent_winner_installs_own_status example_channel example_calls
           (example_world [PktChunk (example_chunk 1 10)] 2 false) cfg).
  - reflexivity.
  - apply run_schedule_steps.
  - vm_compute. discriminate.
Defined.

Lemma concurrent_stream_ends_once_witness :
  let r := trace_schedule example_channel (example_turns 20) example_start in
  let ends := count_events is_queue_end r.1.*2 in
  (ends <= 1)%nat
  /\ (broadcast_status r.2.2 = InitPtr -> ends = 0%nat)
  /\ (forall rs, r.2.1 = Ret <$> rs -> broadcast_status r.2.2 <> InitPtr -> ends = 1%nat).
Proof.
  intros r.
  apply (concurrent_stream_ends_once example_channel example_calls
           (example_world [PktChunk (example_chunk 1 10)] 2 false) r.1 r.2).
  - reflexivity.
  - apply trace_schedule_trace.
Defined.

(** The second call, [finish] with the code 4, runs first and installs its
    status; the other calls have not started. *)
Definition example_cancelled_early : list (Prog OpResult) * World BoundedQueue :=
  run_schedule example_channel [1; 1]%nat example_start.

Lemma concurrent_calls_after_install_witness :
  let s := mkBroadcastStatus 4 false "cancel" in
  let run := trace_schedule example_channel (example_turns 20) example_cancelled_early in
  let r := ResRecv (RecvStatus s) in
  let tr := events_of 2 run.1 in
  if 0 <? code s
  then r = ResRecv (RecvStatus s) /\ queue_ops tr = []
  else r = ResRecv (RecvStatus s)
       \/ exists c, r = ResRecv (RecvChunk c)
                    /\ credit_events tr = [Popped c; ToThread (allocatedBytes c)].
Proof.
  intros s run r.
  apply (concurrent_calls_after_install example_channel example_calls
           (example_world [PktChunk (example_chunk 1 10)] 2 false)
           example_cancelled_early run.1 run.2 2%nat (OpRecv example_deadline) r s).
  - reflexivity.
  - apply run_schedule_steps.
  - vm_compute. discriminate.
  - reflexivity.
  - vm_compute. reflexivity.
  - apply trace_schedule_trace.
  - vm_compute. reflexivity.
Defined.

(** The four calls of [example_calls], their threads taking turns until all
    have returned, with the operations they performed. *)
Definition example_run
  : list (nat * Event) * (list (Prog OpResult) * World BoundedQueue) :=
  trace_schedule example_channel (example_turns 20) example_start.

Definition example_results : list OpResult :=
  [ ResStatus (mkBroadcastStatus (-1) true "done");
    ResStatus (mkBroadcastStatus (-1) false "done");
    ResRecv (RecvChunk (example_chunk 1 10));
    ResStatus (mkBroadcastStatus (-1) false "done") ].

Lemma concurrent_memory_follows_chunks_witness :
  global_memory example_run.2.2
  = global_memory (example_world [PktChunk (example_chunk 1 10)] 2 false)
    + queued_by example_run.1.*2.
Proof.
  apply (concurrent_memory_follows_chunks example_channel example_calls
           (example_world [PktChunk (example_chunk 1 10)] 2 false)
           example_run.1 example_run.2 example_results).
  - apply trace_schedule_trace.
  - vm_compute. reflexivity.
Defined.

Lemma concurrent_memory_credit_conserved_witness :
  let w := example_world [PktChunk (example_chunk 1 10)] 2 false in
  global_memory example_run.2.2 - queued_bytes (receive_queue example_run.2.2)
  = global_memory w - queued_bytes (receive_queue w).
Proof.
  intros w.
  apply (concurrent_memory_credit_conserved example_channel example_calls w
           example_run.1 example_run.2 example_results).
  - apply trace_schedule_trace.
  - vm_compute. reflexivity.
  - vm_compute. reflexivity.
Defined.
